(** * Vimshottari dasha engine (src/dasha/vimshottari.js): a shallow embedding

    JavaScript numbers are IEEE-754 binary64 values; they are modelled by
    Rocq's primitive [float] with the primitive [+ - * /] and comparisons,
    so every definition below evaluates to the number the source computes.
    The few built-ins that are not primitive ([%], [Math.floor], [Math.min],
    [new Date(ms).toISOString()]) are defined through [Prim2SF], the exact
    sign/mantissa/exponent reading of a float.

    An ISO-8601 string is kept as the integer number of milliseconds it
    denotes.  A thrown exception is an [Outcome] of its own.  The endless
    [outer: for (;;)] loop takes a bound on its number of turns;
    [computeVimshottari_terminates] shows that some bound always suffices.
    What the module requires from outside ([interpretations.json] and
    moment-timezone) is the class [Env]. *)

From Stdlib Require Import ZArith Floats Lia Ascii String.
From stdpp Require Import base option list strings gmap.

Set Default Proof Using "Type".
Local Open Scope Z_scope.

(** ** JavaScript number built-ins *)

Module JS.

(** The float whose value is [m * 2^e], rounded to nearest-even when it is
    not representable (every use below is on a representable value). *)
Definition of_scaled (m e : Z) (szero : bool) : float :=
  SF2Prim (binary_normalize prec emax m e szero).

Definition of_Z (n : Z) : float := of_scaled n 0 false.

(** [x % y] (ECMAScript Number::remainder): truncating remainder, exact,
    with the sign of the dividend. *)
Definition rem (x y : float) : float :=
  match Prim2SF x, Prim2SF y with
  | S754_nan, _ | _, S754_nan => nan
  | S754_infinity _, _ => nan
  | _, S754_zero _ => nan
  | _, S754_infinity _ => x
  | S754_zero _, _ => x
  | S754_finite sx mx ex, S754_finite _ my ey =>
      let e := Z.min ex ey in
      let r := (Z.shiftl (Zpos mx) (ex - e)) mod (Z.shiftl (Zpos my) (ey - e)) in
      of_scaled (if sx then - r else r) e sx
  end.

(** [Math.floor]. *)
Definition floor (x : float) : float :=
  match Prim2SF x with
  | S754_finite s m e =>
      if 0 <=? e then x
      else of_scaled (Z.shiftr (if s then Zneg m else Zpos m) (- e)) 0 s
  | _ => x
  end.

(** [Math.round]: the nearest integer, a tie going toward +infinity; a
    result of zero keeps the sign of the argument. *)
Definition round (x : float) : float :=
  match Prim2SF x with
  | S754_finite s m e =>
      if 0 <=? e then x
      else of_scaled
             (Z.shiftr (2 * (if s then Zneg m else Zpos m) + 2 ^ (- e)) (- e + 1)) 0 s
  | _ => x
  end.

(** [!x] on a number: true for the zeros and NaN. *)
Definition falsy (x : float) : bool := is_zero x || is_nan x.

(** [Math.min] of two arguments: NaN if either is NaN, and -0 below +0. *)
Definition min (a b : float) : float :=
  if is_nan a || is_nan b then nan
  else if (a <? b)%float then a
  else if (b <? a)%float then b
  else if is_zero a && get_sign a then a
  else b.

(** [new Date(ms).toISOString()]: TimeClip rejects NaN, the infinities and
    |ms| > 8.64e15 (toISOString then throws a RangeError, [None] here);
    otherwise the time value is [ms] truncated toward zero.  The ISO-8601
    text is an injective rendering of that integer number of milliseconds
    since the epoch, which is what the model keeps. *)
Definition maxTime : Z := 8640000000000000.

(** The integer part of [m * 2^e], and whether [m * 2^e] is above a bound. *)
Definition magnitude (m : positive) (e : Z) : Z :=
  if 0 <=? e then Z.shiftl (Zpos m) e else Z.shiftr (Zpos m) (- e).

Definition exceeds (m : positive) (e : Z) (bound : Z) : bool :=
  if 0 <=? e then bound <? Z.shiftl (Zpos m) e
  else Z.shiftl bound (- e) <? Zpos m.

Definition toISO (ms : float) : option Z :=
  match Prim2SF ms with
  | S754_zero _ => Some 0
  | S754_finite s m e =>
      if exceeds m e maxTime then None
      else Some (if s then - magnitude m e else magnitude m e)
  | _ => None
  end.

(** [String.prototype.toLowerCase] on the ASCII letters (lord names and the
    keys of the interpretation table are ASCII). *)
Definition lower_ascii (c : ascii) : ascii :=
  let n := nat_of_ascii c in
  if (65 <=? n)%nat && (n <=? 90)%nat then ascii_of_nat (n + 32) else c.

Fixpoint toLowerCase (s : string) : string :=
  match s with
  | EmptyString => EmptyString
  | String c r => String (lower_ascii c) (toLowerCase r)
  end.

End JS.

Notation "x % y" := (JS.rem x y) (at level 40, left associativity) : float_scope.

(** ** Constants *)

Inductive Lord := Ketu | Venus | Sun | Moon | Mars | Rahu | Jupiter | Saturn | Mercury.

#[global] Instance Lord_eq_dec : EqDecision Lord.
Proof. solve_decision. Defined.

Definition LORDS : list Lord :=
  [Ketu; Venus; Sun; Moon; Mars; Rahu; Jupiter; Saturn; Mercury].

(** The property names of [YEARS], which are also the strings in [LORDS]. *)
Definition lordName (l : Lord) : string :=
  match l with
  | Ketu => "Ketu" | Venus => "Venus" | Sun => "Sun" | Moon => "Moon"
  | Mars => "Mars" | Rahu => "Rahu" | Jupiter => "Jupiter"
  | Saturn => "Saturn" | Mercury => "Mercury"
  end.

Definition YEARS (l : Lord) : float :=
  match l with
  | Ketu => 7 | Venus => 20 | Sun => 6 | Moon => 10 | Mars => 7
  | Rahu => 18 | Jupiter => 16 | Saturn => 19 | Mercury => 17
  end%float.

Definition MS_PER_DAY : float := (86400 * 1000)%float.
Definition YEAR_MS : float := (31556952 * 1000)%float.

(** ** Helpers *)

Definition normalize360 (deg : float) : float :=
  let x := (deg % 360)%float in
  if (x <? 0)%float then (x + 360)%float else x.

Definition NAK_LEN_DEG : float := (360 / 27)%float.

Record Nak := { index : float; fracElapsed : float }.

Definition nakFromLon (lonDeg : float) : Nak :=
  let d := normalize360 lonDeg in
  let idx := JS.floor (d / NAK_LEN_DEG)%float in
  let fracElapsed := ((d - idx * NAK_LEN_DEG) / NAK_LEN_DEG)%float in
  {| index := idx; fracElapsed := fracElapsed |}.

(** [Array.prototype.slice(start, end)] with its relative (negative) indices,
    and [indexOf]. *)
Definition relIndex (len k : Z) : Z :=
  if k <? 0 then Z.max (len + k) 0 else Z.min k len.

Definition slice {A} (l : list A) (start : Z) (stop : option Z) : list A :=
  let len := Z.of_nat (length l) in
  let k := relIndex len start in
  let final := match stop with None => len | Some e => relIndex len e end in
  take (Z.to_nat (final - k)) (drop (Z.to_nat k) l).

Fixpoint indexOfFrom (l : list Lord) (x : Lord) (i : Z) : Z :=
  match l with
  | [] => -1
  | y :: r => if decide (y = x) then i else indexOfFrom r x (i + 1)
  end.

(** A lord variable of the source holds one of the nine names or
    [undefined] ([None]); [undefined] is not an element of [LORDS]. *)
Definition indexOf (l : list Lord) (x : option Lord) : Z :=
  match x with
  | None => -1
  | Some x => indexOfFrom l x 0
  end.

Definition rotateFromStart (startLord : option Lord) : list Lord :=
  let i := indexOf LORDS startLord in
  slice LORDS i None ++ slice LORDS 0 (Some i).

(** [arr[x]] for a number [x]: the element when [x] is an integer index of
    the array (-0 names index 0), [undefined] otherwise. *)
Definition arrayGet {A} (l : list A) (x : float) : option A :=
  match Prim2SF x with
  | S754_zero _ => l !! 0%nat
  | S754_finite false m e =>
      let n := JS.magnitude m e in
      let whole := if 0 <=? e then true else Z.shiftl n (- e) =? Zpos m in
      if whole && (n <? Z.of_nat (length l)) then l !! Z.to_nat n else None
  | _ => None
  end.

(** [YEARS[lord]] for a possibly undefined lord, and the number an
    arithmetic operator reads from it ([undefined] reads as NaN). *)
Definition YEARS_at (lord : option Lord) : option float := YEARS <$> lord.
Definition toNumber (v : option float) : float := default nan v.

(** ** The segment allocator *)

Section Allocator.
Context {K : Type}.

Record Segment := { lord : K; startMs : float; endMs : float; durationMs : float }.

Definition sumWeights (order : list K) (weightsYears : K -> float) : float :=
  foldl (fun acc lord => (acc + weightsYears lord)%float) 0%float order.

(** The body of the [for] loop, from index [i] on; [rest] holds
    [order[i..]] and [n] is [order.length]. *)
Fixpoint segmentsFrom (parentStartMs parentDurMs totalYears : float)
    (weightsYears : K -> float) (n i : nat) (rest : list K) (cursor : float)
    : list Segment :=
  match rest with
  | [] => []
  | lord :: rest' =>
      let segDur :=
        if (Z.of_nat i <? Z.of_nat n - 1)
        then (parentDurMs * (weightsYears lord / totalYears))%float
        else (parentStartMs + parentDurMs - cursor)%float in
      let startMs := cursor in
      let endMs := (startMs + segDur)%float in
      {| lord := lord; startMs := startMs; endMs := endMs; durationMs := segDur |}
        :: segmentsFrom parentStartMs parentDurMs totalYears weightsYears n (S i) rest' endMs
  end.

Definition buildWeightedSegments (parentStartMs parentDurMs : float)
    (order : list K) (weightsYears : K -> float) : list Segment :=
  let totalYears := sumWeights order weightsYears in
  segmentsFrom parentStartMs parentDurMs totalYears weightsYears
    (length order) 0 order parentStartMs.
End Allocator.

Arguments Segment K : clear implicits.

(** ** Output records; instants are serialized by [JS.toISO] *)

Record SubSub := {
  pd_lord : Lord; pd_start : Z; pd_end : Z; pd_interpretation : option string }.

Record Sub := {
  ad_lord : Lord; ad_start : Z; ad_end : Z; ad_interpretation : option string;
  pratyantar : list SubSub }.

Record Major := {
  md_lord : option Lord; md_start : Z; md_end : Z;
  years : option float; days : float; antar : list Sub }.

Record Meta := { birthUTC : Z; startLord : option Lord }.

Record Output := { meta : Meta; sequence : list Major }.

Record Payload := {
  birthDate : option string; birthTime : option string; timeZone : option string;
  moonSiderealDeg : option float;   (* [None]: absent or not of type number *)
  totalYears : option float }.      (* [None]: absent, the default 120 applies *)

Inductive Outcome :=
  | Returned (o : Output)
  | InvalidPayload         (* Error('Invalid payload for computeVimshottari') *)
  | RangeError             (* thrown by toISOString on an invalid time value *)
  | OutOfFuel.             (* the loop bound of the model was reached *)

(** A string field is truthy when present and non-empty. *)
Definition truthy (s : option string) : bool :=
  match s with Some s => negb (String.eqb s "") | None => false end.

(** [v || null] on an optional text: the empty string is falsy. *)
Definition orNull (v : option string) : option string :=
  match v with Some s => if String.eqb s "" then None else Some s | None => None end.

Inductive LoopExit := Broke | Fell (mdStartMs : float).

(** What the module requires: [interpretations.json], a two-level table of
    texts with lowercase keys, and moment-timezone, through
    [moment.tz(text, zone).utc().valueOf()]. *)
Class Env := {
  interpretations : gmap string (gmap string string);
  momentTz : string -> string -> float }.

Section Engine.
Context {env : Env}.

Definition interpFor (md ad : option string) : option string :=
  let a := JS.toLowerCase (default "" (orNull md)) in
  let b := JS.toLowerCase (default "" (orNull ad)) in
  match interpretations !! a with
  | None => None
  | Some mdBlock => orNull (mdBlock !! b)
  end.

Definition pratyantarOf (adLord : Lord) (pd : Segment Lord) : option SubSub :=
  let pdLord := lord pd in
  let pdInterpretation := interpFor (Some (lordName adLord)) (Some (lordName pdLord)) in
  s ← JS.toISO (startMs pd);
  e ← JS.toISO (endMs pd);
  Some {| pd_lord := pdLord; pd_start := s; pd_end := e;
          pd_interpretation := orNull pdInterpretation |}.

Definition antarOf (mdLord : option Lord) (seg : Segment Lord) : option Sub :=
  let adLord := lord seg in
  let adInterpretation := interpFor (lordName <$> mdLord) (Some (lordName adLord)) in
  let pdOrder := rotateFromStart (Some adLord) in
  let pdSegs := buildWeightedSegments (startMs seg) (durationMs seg) pdOrder YEARS in
  pratyantar ← mapM (pratyantarOf adLord) pdSegs;
  s ← JS.toISO (startMs seg);
  e ← JS.toISO (endMs seg);
  Some {| ad_lord := adLord; ad_start := s; ad_end := e;
          ad_interpretation := orNull adInterpretation; pratyantar := pratyantar |}.

(** [pushMD] returns the record it pushes; [None] when a [toISO] throws. *)
Definition pushMD (mdLord : option Lord) (mdStart mdEnd : float) : option Major :=
  let mdDur := (mdEnd - mdStart)%float in
  let antarOrder := rotateFromStart mdLord in
  let antarSegs := buildWeightedSegments mdStart mdDur antarOrder YEARS in
  antar ← mapM (antarOf mdLord) antarSegs;
  s ← JS.toISO mdStart;
  e ← JS.toISO mdEnd;
  Some {| md_lord := mdLord; md_start := s; md_end := e;
          years := YEARS_at mdLord; days := (mdDur / MS_PER_DAY)%float;
          antar := antar |}.

(** One inner [for] loop over [lords]: the records pushed, and whether it
    left through [break outer] or fell through with the new [mdStartMs]. *)
Fixpoint mdLoop (capEnd : float) (lords : list Lord) (mdStartMs : float)
    : option (list Major * LoopExit) :=
  match lords with
  | [] => Some ([], Fell mdStartMs)
  | lord :: rest =>
      let durMs := (YEAR_MS * YEARS lord)%float in
      let mdEnd := (mdStartMs + durMs)%float in
      if (capEnd <? mdEnd)%float then
        m ← pushMD (Some lord) mdStartMs capEnd;
        Some ([m], Broke)
      else
        m ← pushMD (Some lord) mdStartMs mdEnd;
        r ← mdLoop capEnd rest mdEnd;
        Some (m :: r.1, r.2)
  end.

Inductive LoopResult :=
  | Finished (pushed : list Major) | LoopThrew | LoopOutOfFuel.

(** [outer: for (;;)]: the first inner loop runs from index 1, the second
    from index 0; one unit of fuel per iteration of the outer loop. *)
Fixpoint outerLoop (fuel : nat) (capEnd : float) (cycleOrder : list Lord)
    (mdStartMs : float) : LoopResult :=
  match fuel with
  | O => LoopOutOfFuel
  | S fuel' =>
      match mdLoop capEnd (drop 1 cycleOrder) mdStartMs with
      | None => LoopThrew
      | Some (ms1, Broke) => Finished ms1
      | Some (ms1, Fell s1) =>
          match mdLoop capEnd cycleOrder s1 with
          | None => LoopThrew
          | Some (ms2, Broke) => Finished (ms1 ++ ms2)
          | Some (ms2, Fell s2) =>
              match outerLoop fuel' capEnd cycleOrder s2 with
              | Finished ms3 => Finished (ms1 ++ ms2 ++ ms3)
              | r => r
              end
          end
      end
  end.

(** The [const] bindings of [computeVimshottari], as functions of what
    they are computed from. *)
Definition startLordOf (nak : Nak) : option Lord :=
  arrayGet LORDS (index nak % 9)%float.

Definition mdTotalMsOf (startLord : option Lord) : float :=
  (YEAR_MS * toNumber (YEARS_at startLord))%float.

Definition mdRemainingMsOf (startLord : option Lord) (nak : Nak) : float :=
  let mdTotalMs := mdTotalMsOf startLord in
  let elapsedMs := (mdTotalMs * fracElapsed nak)%float in
  (mdTotalMs - elapsedMs)%float.

Definition capEndOf (birthMs totalYears : float) : float :=
  (birthMs + YEAR_MS * totalYears)%float.

Definition validPayload (p : Payload) : bool :=
  truthy (birthDate p) && truthy (birthTime p) && truthy (timeZone p)
  && bool_decide (is_Some (moonSiderealDeg p)).

Definition birthMsOf (p : Payload) : float :=
  momentTz (default "" (birthDate p) +:+ " " +:+ default "" (birthTime p))
           (default "" (timeZone p)).

(** The horizon instant [capEnd] and the anchor period's end [mdEndMs], as
    functions of the payload. *)
Definition nakOf (p : Payload) : Nak := nakFromLon (toNumber (moonSiderealDeg p)).

Definition horizonOf (p : Payload) : float :=
  capEndOf (birthMsOf p) (default 120%float (totalYears p)).

Definition anchorEndOf (p : Payload) : float :=
  JS.min (birthMsOf p + mdRemainingMsOf (startLordOf (nakOf p)) (nakOf p))%float
         (horizonOf p).

Definition computeVimshottari (fuel : nat) (p : Payload) : Outcome :=
  if negb (validPayload p) then InvalidPayload
  else
    let totalYears := default 120%float (totalYears p) in
    let birthMs := birthMsOf p in
    let nak := nakFromLon (toNumber (moonSiderealDeg p)) in
    let startLord := startLordOf nak in
    let mdRemainingMs := mdRemainingMsOf startLord nak in
    let capEnd := capEndOf birthMs totalYears in
    let mdStartMs := birthMs in
    let mdEndMs := JS.min (birthMs + mdRemainingMs)%float capEnd in
    (* return { meta: { birthUTC: toISO(birthMs), startLord }, sequence } *)
    let result (sequence : list Major) : Outcome :=
      match JS.toISO birthMs with
      | Some birthUTC =>
          Returned {| meta := {| birthUTC := birthUTC; startLord := startLord |};
                      sequence := sequence |}
      | None => RangeError
      end in
    match pushMD startLord mdStartMs mdEndMs with
    | None => RangeError
    | Some first =>
        let mdStartMs := mdEndMs in
        if (capEnd <=? mdStartMs)%float then result [first]
        else
          let cycleOrder := rotateFromStart startLord in
          match outerLoop fuel capEnd cycleOrder mdStartMs with
          | Finished rest => result (first :: rest)
          | LoopThrew => RangeError
          | LoopOutOfFuel => OutOfFuel
          end
    end.

Definition computeVimshottariFromMoon := computeVimshottari.
End Engine.

(** ** Chart helpers (src/utils.js)

    [normalize360] and [NAK_LEN_DEG] are defined a second time in
    utils.js, with the same text as in vimshottari.js. *)

Module Utils.

Definition normalize360 (deg : float) : float :=
  let x := (deg % 360)%float in
  if (x <? 0)%float then (x + 360)%float else x.

Record DMS := { d : float; m : float; s : float }.

Definition toDMS (deg : float) : DMS :=
  let d := JS.floor deg in
  let mF := ((deg - d) * 60)%float in
  let m := JS.floor mF in
  let s := JS.round ((mF - m) * 60)%float in
  {| d := d; m := m; s := s |}.

Definition RASHIS : list string :=
  ["Aries"; "Taurus"; "Gemini"; "Cancer"; "Leo"; "Virgo"; "Libra"; "Scorpio";
   "Sagittarius"; "Capricorn"; "Aquarius"; "Pisces"]%string.

Record Rashi := { rashi_index : float; rashi_name : option string }.

Definition getRashi (deg : float) : Rashi :=
  let d := normalize360 deg in
  let index := JS.floor (d / 30)%float in
  {| rashi_index := index; rashi_name := arrayGet RASHIS index |}.

Record DegreeInSign := { value : float; dms : DMS }.

Definition getDegreeInSign (deg : float) : DegreeInSign :=
  let d := normalize360 deg in
  let within := (d % 30)%float in
  let dms := toDMS within in
  {| value := within; dms := dms |}.

Definition NAKS : list string :=
  ["Ashwini"; "Bharani"; "Krittika"; "Rohini"; "Mrigashirsha"; "Ardra";
   "Punarvasu"; "Pushya"; "Ashlesha"; "Magha"; "Purva_Phalguni";
   "Uttara_Phalguni"; "Hasta"; "Chitra"; "Swati"; "Vishakha"; "Anuradha";
   "Jyeshtha"; "Mula"; "Purva_Ashadha"; "Uttara_Ashadha"; "Shravana";
   "Dhanishta"; "Shatabhisha"; "Purva_Bhadrapada"; "Uttara_Bhadrapada";
   "Revati"]%string.

Definition NAK_LEN_DEG : float := (360 / 27)%float.

Record Nakshatra := {
  nak_index : float; nak_name : option string;
  nak_fracElapsed : float; pada : float }.

Definition getNakshatra (deg : float) : Nakshatra :=
  let d := normalize360 deg in
  let idx := JS.floor (d / NAK_LEN_DEG)%float in
  let within := (d - idx * NAK_LEN_DEG)%float in
  let frac := (within / NAK_LEN_DEG)%float in
  let pada := (JS.floor (frac * 4) + 1)%float in
  {| nak_index := idx; nak_name := arrayGet NAKS idx;
     nak_fracElapsed := frac; pada := pada |}.

Definition isRetro (speed : float) : bool := (speed <? 0)%float.

Definition angDist (a b : float) : float :=
  let x := abs (normalize360 a - normalize360 b) in
  if (180 <? x)%float then (360 - x)%float else x.

(** The own properties of the object; a name it does not have reads as
    [undefined]. *)
Definition COMBUST_THRESH : gmap string float :=
  {[ "Mercury" := 12; "Venus" := 10; "Mars" := 17; "Jupiter" := 11;
     "Saturn" := 15 ]}%float%string.

Definition isCombust (name : string) (lon sun : float) : bool :=
  match COMBUST_THRESH !! name with
  | None => false
  | Some th => if JS.falsy th then false else (angDist lon sun <=? th)%float
  end.

End Utils.

(** ** The house of a planet (src/engine.js, computeKundali)

    [computeKundali] asks the Swiss Ephemeris for the longitudes and passes
    them through the helpers above; what it computes itself is the
    whole-sign house of a planet from the sign indices of the planet and of
    the ascendant. *)
Definition houseNumber (planetRashiIndex ascRashiIndex : float) : float :=
  (((planetRashiIndex - ascRashiIndex + 12) % 12) + 1)%float.

(** ** Vocabulary of the specification *)

(** An interval of the serialized tree: start and end instants in
    milliseconds since the epoch. *)
Definition Interval : Type := Z * Z.

Definition majorInterval (m : Major) : Interval := (md_start m, md_end m).
Definition subInterval (a : Sub) : Interval := (ad_start a, ad_end a).
Definition subSubInterval (q : SubSub) : Interval := (pd_start q, pd_end q).

(** [chained a iv b]: the intervals are laid back-to-back from [a] to [b]. *)
Fixpoint chained (a : Z) (iv : list Interval) (b : Z) : Prop :=
  match iv with
  | [] => a = b
  | i :: r => i.1 = a ∧ chained i.2 r b
  end.

Definition span (iv : list Interval) : Z :=
  foldr (fun i acc => (i.2 - i.1) + acc) 0 iv.

(** Children tile their parent: contiguous from the parent's start to the
    parent's end, none running backwards, durations adding up. *)
Definition Tiles (parent : Interval) (children : list Interval) : Prop :=
  children ≠ [] ∧ chained parent.1 children parent.2
  ∧ Forall (fun i => i.1 ≤ i.2) children
  ∧ span children = parent.2 - parent.1.

Definition MajorTiled (m : Major) : Prop :=
  Tiles (majorInterval m) (subInterval <$> antar m)
  ∧ Forall (fun a => Tiles (subInterval a) (subSubInterval <$> pratyantar a)) (antar m).

(** Every interval of a Major node, at the three levels. *)
Definition allIntervals (m : Major) : list Interval :=
  majorInterval m
    :: concat ((fun a => subInterval a :: (subSubInterval <$> pratyantar a)) <$> antar m).

(** Raw segments laid back-to-back from the cursor [c], each ending at its
    start plus its duration. *)
Fixpoint linked {K} (c : float) (segs : list (Segment K)) : Prop :=
  match segs with
  | [] => True
  | s :: r => startMs s = c ∧ endMs s = (startMs s + durationMs s)%float ∧ linked (endMs s) r
  end.

(** A Major record is whatever [pushMD] built for some lord and span. *)
Definition Pushed {env : Env} (m : Major) : Prop :=
  ∃ (mdLord : Lord) mdStart mdEnd, pushMD (Some mdLord) mdStart mdEnd = Some m.


(** The rotation of the fixed cycle that starts at position [i]. *)
Definition rotation (i : nat) : list Lord := drop i LORDS ++ take i LORDS.

(** The value of a finite binary64 number [m * 2^e] in units of 2^-1074,
    the smallest positive double: an integer for every double; [sulps] is
    the same with the sign. *)
Definition ulps (m : positive) (e : Z) : Z := Zpos m * 2 ^ (e + 1074).

Definition sulps (s : bool) (m : positive) (e : Z) : Z :=
  if s then - ulps m e else ulps m e.

(** The number a float stands for, in units of 2^-1074; [None] for NaN
    and the infinities. *)
Definition sval (f : spec_float) : option Z :=
  match f with
  | S754_zero _ => Some 0
  | S754_finite s m e => Some (sulps s m e)
  | _ => None
  end.

Definition value (x : float) : option Z := sval (Prim2SF x).

(** [whole x n]: the float [x] is the whole number [n] (for [n = 0], either
    zero). *)
Definition whole (x : float) (n : Z) : Prop := value x = Some (n * 2 ^ 1074).

(** Doubles of magnitude [V] (in units of 2^-1074) are the multiples of
    [2 ^ qexp V]; [representable v]: [v] is the value of a finite double. *)
Definition qexp (V : Z) : Z := Z.max (Z.log2 V - 52) 0.

Definition representable (v : Z) : Prop :=
  Z.abs v mod 2 ^ qexp (Z.abs v) = 0 ∧ Z.abs v < 2 ^ 2098.

(** [Nearest N D r]: [r] is a nearest point to the rational [N / D] on the
    grid of the doubles of its magnitude, which is how every arithmetic
    operation rounds. *)
Definition Nearest (N D r : Z) : Prop :=
  r mod 2 ^ qexp (Z.abs N / D) = 0
  ∧ 2 * Z.abs (r * D - N) ≤ 2 ^ qexp (Z.abs N / D) * D.

(** Where [N / D] lies between [N / D] rounded down and the next integer. *)
Definition locOf (N D : Z) : location :=
  if N mod D =? 0 then loc_Exact else loc_Inexact (2 * (N mod D) ?= D).

(** A mantissa with its rounding digits stands for [N / D]. *)
Definition located (N D : Z) (mrs : shr_record) : Prop :=
  shr_m mrs = N / D ∧ loc_of_shr_record mrs = locOf N D.

(** The lords the loops of [computeVimshottari] visit after the anchor
    period in [turns] turns of the outer loop: on each turn the cycle from
    its second lord on, then the whole cycle. *)
Definition visited (turns : nat) (cycleOrder : list Lord) : list Lord :=
  concat (replicate turns (drop 1 cycleOrder ++ cycleOrder)).

(** A tree without its interpretation texts: the schedule proper. *)
Definition bareSubSub (q : SubSub) : SubSub :=
  {| pd_lord := pd_lord q; pd_start := pd_start q; pd_end := pd_end q;
     pd_interpretation := None |}.

Definition bareSub (a : Sub) : Sub :=
  {| ad_lord := ad_lord a; ad_start := ad_start a; ad_end := ad_end a;
     ad_interpretation := None; pratyantar := bareSubSub <$> pratyantar a |}.

Definition bareMajor (m : Major) : Major :=
  {| md_lord := md_lord m; md_start := md_start m; md_end := md_end m;
     years := years m; days := days m; antar := bareSub <$> antar m |}.

Definition bareOutcome (r : Outcome) : Outcome :=
  match r with
  | Returned o => Returned {| meta := meta o; sequence := bareMajor <$> sequence o |}
  | r => r
  end.

(** ** Concrete inputs *)

Module Examples.
Local Open Scope string_scope.

Definition table : gmap string (gmap string string) :=
  {[ "moon" := {[ "moon" := "Moon in Moon"; "mars" := "Mars in Moon" ]};
     "mars" := {[ "rahu" := "Rahu in Mars" ]} ]}.

(** The instants moment-timezone yields for the civil times used below. *)
Definition resolver (text zone : string) : float :=
  if String.eqb zone "UTC" then
    if String.eqb text "2000-01-01 00:00" then 946684800000%float
    else if String.eqb text "1962-05-27 00:00" then (-239846400000)%float
    else nan
  else nan.

Definition env : Env := {| interpretations := table; momentTz := resolver |}.

Definition payload (date : string) (lon : float) (horizon : option float) : Payload :=
  {| birthDate := Some date; birthTime := Some "00:00"; timeZone := Some "UTC";
     moonSiderealDeg := Some lon; totalYears := horizon |}.

Definition run (date : string) (lon : float) (horizon : option float) : Outcome :=
  computeVimshottari (env := env) 4 (payload date lon horizon).

Definition outputOf (r : Outcome) : Output :=
  match r with
  | Returned o => o
  | _ => {| meta := {| birthUTC := 0; startLord := None |}; sequence := [] |}
  end.

(** Moon at 45 degrees, one-year horizon, from 2000-01-01T00:00Z. *)
Definition moon45 : Output := outputOf (run "2000-01-01" 45 (Some 1%float)).

(** Moon at 0 degrees and the default 120-year horizon. *)
Definition moon0 : Output := outputOf (run "2000-01-01" 0 None).

(** Moon at 0 degrees and a horizon of 250 years. *)
Definition moon0_250 : Output := outputOf (run "2000-01-01" 0 (Some 250%float)).

(** Moon at 47.7 degrees and the default horizon. *)
Definition lon_47_7 : float := 0x1.7d9999999999ap+5%float.
Definition moon47_7 : Output := outputOf (run "2000-01-01" lon_47_7 None).

(** Moon at 113.62 degrees, born 1962-05-27T00:00Z, default horizon. *)
Definition lon_113_62 : float := 0x1.c67ae147ae148p+6%float.
Definition born1962 : Output := outputOf (run "1962-05-27" lon_113_62 None).

(** Moon at 400 degrees and a horizon of minus one year. *)
Definition backwards : Output := outputOf (run "2000-01-01" 400 (Some (-1)%float)).

(** A longitude just below zero, -1e-20, and the double nearest to
    226 2/3 degrees (seventeen nakshatras). *)
Definition lon_tiny_negative : float := (-0x1.79ca10c924223p-67)%float.
Definition lon_226_67 : float := 0x1.c555555555555p+7%float.
End Examples.

(** * Verification *)

(** ** Facts about binary64 comparisons and serialization *)

Lemma SFcompare_swap (u v : spec_float) :
  SFcompare v u = CompOpp <$> SFcompare u v.
Proof.
  destruct u as [s|s| |s m e], v as [s'|s'| |s' m' e']; simpl; try done;
    try (by destruct s); try (by destruct s'); try (by destruct s, s').
  destruct s, s'; simpl; try done;
    rewrite (Z.compare_antisym e' e); destruct (e' ?= e) eqn:He; simpl; try done;
    rewrite (ZC4 m' m); simpl; try done.
Qed.




Lemma toISO_zero x s : Prim2SF x = S754_zero s → JS.toISO x = Some 0.
Proof. unfold JS.toISO. by intros ->. Qed.



Lemma digits2_bounds m :
  2 ^ (Zpos (digits2_pos m) - 1) ≤ Zpos m < 2 ^ Zpos (digits2_pos m).
Proof.
  induction m as [p IH|p IH|]; simpl digits2_pos; [| |simpl; lia].
  all: rewrite Pos2Z.inj_succ, Z.pow_succ_r by lia.
  all: replace (Z.succ (Zpos (digits2_pos p)) - 1) with (Z.succ (Zpos (digits2_pos p) - 1)) by lia.
  all: rewrite Z.pow_succ_r by lia; lia.
Qed.

Lemma bounded_range m e :
  bounded prec emax m e = true →
  Zpos m < 2 ^ 53 ∧ -1074 ≤ e ∧ (-1074 < e → 2 ^ 52 ≤ Zpos m).
Proof.
  unfold bounded, canonical_mantissa, fexp, SpecFloat.emin, prec, emax.
  intros [Hc _]%andb_true_iff. apply Z.eqb_eq in Hc.
  pose proof (digits2_bounds m) as [Hlo Hhi].
  set (d := Zpos (digits2_pos m)) in *.
  split_and!.
  - assert (d ≤ 53) by lia.
    eapply Z.lt_le_trans; [exact Hhi|]. by apply Z.pow_le_mono_r.
  - lia.
  - intros He. assert (d = 53) as Hd by lia. by rewrite Hd in Hlo.
Qed.

Lemma magnitude_nonneg m e : 0 ≤ JS.magnitude m e.
Proof.
  unfold JS.magnitude. destruct (0 <=? e) eqn:He.
  - apply Z.shiftl_nonneg. lia.
  - apply Z.shiftr_nonneg. lia.
Qed.

Lemma magnitude_mono_mantissa m1 m2 e :
  Zpos m1 ≤ Zpos m2 → JS.magnitude m1 e ≤ JS.magnitude m2 e.
Proof.
  intros Hm. unfold JS.magnitude. destruct (0 <=? e) eqn:He.
  - apply Z.leb_le in He. rewrite !Z.shiftl_mul_pow2 by done.
    apply Z.mul_le_mono_nonneg_r; [|done]. by apply Z.pow_nonneg.
  - apply Z.leb_gt in He. rewrite !Z.shiftr_div_pow2 by lia.
    apply Z.div_le_mono; [|done]. apply Z.pow_pos_nonneg; lia.
Qed.

Lemma magnitude_mono_exponent m1 e1 m2 e2 :
  Zpos m1 < 2 ^ 53 → 2 ^ 52 ≤ Zpos m2 → e1 < e2 →
  JS.magnitude m1 e1 ≤ JS.magnitude m2 e2.
Proof.
  intros H1 H2 He. unfold JS.magnitude.
  assert (∀ k, 0 ≤ k → 0 < 2 ^ k) as Hpos by (intros; apply Z.pow_pos_nonneg; lia).
  destruct (Z.leb_spec 0 e1) as [He1|He1], (Z.leb_spec 0 e2) as [He2|He2]; try lia.
  - rewrite !Z.shiftl_mul_pow2 by done.
    replace e2 with (e1 + (e2 - e1)) by lia. rewrite Z.pow_add_r by lia.
    assert (2 ^ 1 ≤ 2 ^ (e2 - e1)) by (apply Z.pow_le_mono_r; lia).
    pose proof (Hpos e1 He1).
    change (2 ^ 53) with (2 * 2 ^ 52) in H1. change (2 ^ 1) with 2 in *.
    set (P := 2 ^ e1) in *. set (Q := 2 ^ (e2 - e1)) in *. set (C := 2 ^ 52) in *.
    assert (2 * C ≤ Zpos m2 * Q) by nia.
    assert (Zpos m1 * P ≤ (2 * C) * P) by nia.
    assert ((2 * C) * P ≤ (Zpos m2 * Q) * P) by (apply Z.mul_le_mono_nonneg_r; lia).
    lia.
  - rewrite Z.shiftl_mul_pow2, Z.shiftr_div_pow2 by lia.
    assert (2 ^ 1 ≤ 2 ^ (- e1)) by (apply Z.pow_le_mono_r; lia).
    assert (Zpos m1 / 2 ^ (- e1) ≤ Zpos m1 / 2 ^ 1).
    { apply Z.div_le_compat_l; lia. }
    assert (Zpos m1 / 2 ^ 1 < 2 ^ 52).
    { apply Z.div_lt_upper_bound; lia. }
    pose proof (Hpos e2 He2).
    set (P := 2 ^ e2) in *. set (C := 2 ^ 52) in *.
    assert (Zpos m2 * 1 ≤ Zpos m2 * P) by (apply Z.mul_le_mono_nonneg_l; lia).
    lia.
  - rewrite !Z.shiftr_div_pow2 by lia.
    replace (- e1) with ((e2 - e1) + - e2) by lia.
    rewrite Z.pow_add_r by lia. rewrite <- Z.div_div by (try apply Hpos; lia).
    apply Z.div_le_mono; [apply Hpos; lia|].
    assert (2 ^ 1 ≤ 2 ^ (e2 - e1)) by (apply Z.pow_le_mono_r; lia).
    assert (Zpos m1 / 2 ^ (e2 - e1) ≤ Zpos m1 / 2 ^ 1).
    { apply Z.div_le_compat_l; lia. }
    assert (Zpos m1 / 2 ^ 1 < 2 ^ 52).
    { apply Z.div_lt_upper_bound; lia. }
    lia.
Qed.

(** Serialization is monotone: a number that compares below or equal to
    another has the earlier (or the same) time value. *)
Lemma toISO_mono_compare x y a b :
  SFleb (Prim2SF x) (Prim2SF y) = true →
  JS.toISO x = Some a → JS.toISO y = Some b → a ≤ b.
Proof.
  unfold JS.toISO, SFleb.
  pose proof (Prim2SF_valid x) as Vx. pose proof (Prim2SF_valid y) as Vy.
  destruct (Prim2SF x) as [s|s| |s m e], (Prim2SF y) as [s'|s'| |s' m' e'];
    simpl in *; try done.
  - intros _ [= <-] [= <-]. done.
  - destruct (JS.exceeds m' e' JS.maxTime); [done|].
    pose proof (magnitude_nonneg m' e').
    destruct s'; [done|]. intros _ [= <-] [= <-]. done.
  - destruct (JS.exceeds m e JS.maxTime); [done|].
    pose proof (magnitude_nonneg m e).
    destruct s; [|done]. intros _ [= <-] [= <-]. lia.
  - destruct (JS.exceeds m e JS.maxTime), (JS.exceeds m' e' JS.maxTime); try done.
    apply bounded_range in Vx as (Hx & ? & Hx'), Vy as (Hy & ? & Hy').
    pose proof (magnitude_nonneg m e). pose proof (magnitude_nonneg m' e').
    destruct s, s'; try done; intros Hc [= <-] [= <-]; try lia.
    + destruct (e ?= e') eqn:Hee; try done.
      * apply Z.compare_eq in Hee as ->.
        assert (Zpos m' ≤ Zpos m); [|pose proof (magnitude_mono_mantissa m' m e'); lia].
        destruct (Pos.compare_cont Eq m m') eqn:Hm; try done.
        -- apply Pos.compare_eq in Hm. lia.
        -- rewrite Pos.compare_gt_iff in Hm. lia.
      * rewrite Z.compare_gt_iff in Hee.
        pose proof (magnitude_mono_exponent m' e' m e). lia.
    + destruct (e ?= e') eqn:Hee; try done.
      * apply Z.compare_eq in Hee as ->.
        assert (Zpos m ≤ Zpos m'); [|pose proof (magnitude_mono_mantissa m m' e'); lia].
        destruct (Pos.compare_cont Eq m m') eqn:Hm; try done.
        -- apply Pos.compare_eq in Hm. lia.
        -- rewrite Pos.compare_lt_iff in Hm. lia.
      * rewrite Z.compare_lt_iff in Hee.
        pose proof (magnitude_mono_exponent m e m' e'). lia.
Qed.

Lemma toISO_le_of_leb x y a b :
  (x <=? y)%float = true → JS.toISO x = Some a → JS.toISO y = Some b → a ≤ b.
Proof. rewrite FloatAxioms.leb_spec. apply toISO_mono_compare. Qed.

Lemma toISO_not_nan x a : JS.toISO x = Some a → Prim2SF x ≠ S754_nan.
Proof. unfold JS.toISO. by destruct (Prim2SF x). Qed.

Lemma toISO_le_of_not_ltb x y a b :
  (y <? x)%float = false → JS.toISO x = Some a → JS.toISO y = Some b → a ≤ b.
Proof.
  intros Hlt Hx Hy. apply (toISO_mono_compare x y); [|done..].
  apply toISO_not_nan in Hx as Nx. apply toISO_not_nan in Hy as Ny.
  rewrite FloatAxioms.ltb_spec in Hlt. unfold SFltb, SFleb in *.
  rewrite (SFcompare_swap (Prim2SF y) (Prim2SF x)).
  destruct (SFcompare (Prim2SF y) (Prim2SF x)) as [[]|] eqn:Hc; try done.
  destruct (Prim2SF x), (Prim2SF y); simpl in Hc; try done.
Qed.

Lemma toISO_min_le x c a b :
  JS.toISO (JS.min x c) = Some a → JS.toISO c = Some b → a ≤ b.
Proof.
  unfold JS.min.
  destruct (is_nan x || is_nan c); [done|].
  destruct (x <? c)%float eqn:Hxc.
  { apply toISO_mono_compare. rewrite FloatAxioms.ltb_spec in Hxc.
    unfold SFltb, SFleb in *. by destruct (SFcompare _ _) as [[]|]. }
  destruct (c <? x)%float eqn:Hcx.
  { intros H1 H2. assert (a = b) by congruence. lia. }
  destruct (is_zero x && get_sign x).
  - by apply toISO_le_of_not_ltb.
  - intros H1 H2. assert (a = b) by congruence. lia.
Qed.

(** NaN propagates: an undefined starting lord gives no serializable end. *)
Lemma mul_nan_l x : (nan * x)%float = nan.
Proof.
  apply Prim2SF_inj. rewrite mul_spec. change (Prim2SF nan) with S754_nan.
  by destruct (Prim2SF x).
Qed.

Lemma sub_nan_l x : (nan - x)%float = nan.
Proof.
  apply Prim2SF_inj. rewrite sub_spec. change (Prim2SF nan) with S754_nan.
  by destruct (Prim2SF x).
Qed.

Lemma add_nan_r x : (x + nan)%float = nan.
Proof.
  apply Prim2SF_inj. rewrite add_spec. change (Prim2SF nan) with S754_nan.
  by destruct (Prim2SF x).
Qed.

Lemma min_nan_l c : JS.min nan c = nan.
Proof. reflexivity. Qed.

(** ** The segment allocator: what holds for every input *)

Section AllocatorFacts.
Context {K : Type}.
Implicit Types (order rest : list K) (w : K → float).

Lemma segmentsFrom_lords ps pd tot w n i rest c :
  lord <$> segmentsFrom ps pd tot w n i rest c = rest.
Proof.
  revert i c. induction rest as [|k rest IH]; intros i c; simpl; [done|].
  by rewrite IH.
Qed.

Lemma segmentsFrom_linked ps pd tot w n i rest c :
  linked c (segmentsFrom ps pd tot w n i rest c).
Proof.
  revert i c. induction rest as [|k rest IH]; intros i c; simpl; [done|].
  repeat split. apply IH.
Qed.

Lemma segmentsFrom_duration ps pd tot w n i rest c k seg :
  segmentsFrom ps pd tot w n i rest c !! k = Some seg →
  durationMs seg =
    if Z.of_nat (i + k) <? Z.of_nat n - 1
    then (pd * (w (lord seg) / tot))%float
    else (ps + pd - startMs seg)%float.
Proof.
  revert i c k. induction rest as [|x rest IH]; intros i c k; simpl; [done|].
  destruct k as [|k]; simpl.
  - intros [= <-]; simpl. by rewrite Nat.add_0_r.
  - intros H. apply IH in H. by replace (i + S k)%nat with (S i + k)%nat by lia.
Qed.

(** One segment per lord, in input order; back-to-back from the parent's
    start; proportional durations but for the last, which is the parent's
    end minus the running cursor. *)
Lemma buildWeightedSegments_layout ps pd order w :
  let segs := buildWeightedSegments ps pd order w in
  lord <$> segs = order
  ∧ linked ps segs
  ∧ ∀ k seg, segs !! k = Some seg →
      durationMs seg =
        if Z.of_nat k <? Z.of_nat (length order) - 1
        then (pd * (w (lord seg) / sumWeights order w))%float
        else (ps + pd - startMs seg)%float.
Proof.
  unfold buildWeightedSegments. split_and!.
  - apply segmentsFrom_lords.
  - apply segmentsFrom_linked.
  - intros k seg H. by apply segmentsFrom_duration in H.
Qed.

Lemma linked_head c (segs : list (Segment K)) s :
  linked c segs → head segs = Some s → startMs s = c.
Proof. destruct segs; simpl; [done|]. by intros (? & _) [= <-]. Qed.
End AllocatorFacts.

(** ** The payload guard *)




(** ** The tree builder *)

Section EngineFacts.
Context {env : Env}.


Lemma pratyantarOf_inv adLord pd q :
  pratyantarOf adLord pd = Some q →
  pd_lord q = lord pd
  ∧ JS.toISO (startMs pd) = Some (pd_start q)
  ∧ JS.toISO (endMs pd) = Some (pd_end q)
  ∧ pd_interpretation q
    = orNull (interpFor (Some (lordName adLord)) (Some (lordName (lord pd)))).
Proof. unfold pratyantarOf. intros; by simplify_option_eq. Qed.

Lemma antarOf_inv mdLord seg a :
  antarOf mdLord seg = Some a →
  ad_lord a = lord seg
  ∧ JS.toISO (startMs seg) = Some (ad_start a)
  ∧ JS.toISO (endMs seg) = Some (ad_end a)
  ∧ ad_interpretation a
    = orNull (interpFor (lordName <$> mdLord) (Some (lordName (lord seg))))
  ∧ Forall2 (fun pd q => pratyantarOf (lord seg) pd = Some q)
      (buildWeightedSegments (startMs seg) (durationMs seg)
         (rotateFromStart (Some (lord seg))) YEARS)
      (pratyantar a).
Proof.
  unfold antarOf. intros; simplify_option_eq. split_and!; try done.
  by apply mapM_Some_1.
Qed.

Lemma pushMD_inv mdLord mdStart mdEnd m :
  pushMD mdLord mdStart mdEnd = Some m →
  md_lord m = mdLord
  ∧ JS.toISO mdStart = Some (md_start m)
  ∧ JS.toISO mdEnd = Some (md_end m)
  ∧ years m = YEARS_at mdLord
  ∧ days m = ((mdEnd - mdStart) / MS_PER_DAY)%float
  ∧ Forall2 (fun seg a => antarOf mdLord seg = Some a)
      (buildWeightedSegments mdStart (mdEnd - mdStart)%float
         (rotateFromStart mdLord) YEARS)
      (antar m).
Proof.
  unfold pushMD. intros; simplify_option_eq. split_and!; try done.
  by apply mapM_Some_1.
Qed.

(** *** The loops *)

Lemma mdLoop_pushed capEnd lords mdStartMs ms ex :
  mdLoop capEnd lords mdStartMs = Some (ms, ex) →
  Forall Pushed ms.
Proof.
  revert mdStartMs ms ex. induction lords as [|l lords IH]; intros s ms ex; simpl.
  { by intros [= <- <-]. }
  destruct (capEnd <? s + YEAR_MS * YEARS l)%float.
  - destruct (pushMD (Some l) s capEnd) as [m|] eqn:Hm; simpl; [|done].
    intros [= <- <-]. repeat constructor. by exists l, s, capEnd.
  - destruct (pushMD (Some l) s _) as [m|] eqn:Hm; simpl; [|done].
    destruct (mdLoop capEnd lords _) as [[ms' ex']|] eqn:Hr; simpl; [|done].
    intros [= <- <-]. constructor; [by eexists _, _, _|]. by eapply IH.
Qed.

Lemma mdLoop_chain capEnd lords mdStartMs ms ex a :
  JS.toISO mdStartMs = Some a →
  mdLoop capEnd lords mdStartMs = Some (ms, ex) →
  ∃ b, chained a (majorInterval <$> ms) b
       ∧ match ex with
         | Broke => JS.toISO capEnd = Some b ∧ ms ≠ []
         | Fell s' => JS.toISO s' = Some b
         end.
Proof.
  revert mdStartMs ms ex a. induction lords as [|l lords IH]; intros s ms ex a Ha; simpl.
  { intros [= <- <-]. by exists a. }
  destruct (capEnd <? s + YEAR_MS * YEARS l)%float.
  - destruct (pushMD (Some l) s capEnd) as [m|] eqn:Hm; simpl; [|done].
    intros [= <- <-]. apply pushMD_inv in Hm as (_ & Hs & He & _).
    exists (md_end m). simpl. split_and!; try done. congruence.
  - destruct (pushMD (Some l) s _) as [m|] eqn:Hm; simpl; [|done].
    destruct (mdLoop capEnd lords _) as [[ms' ex']|] eqn:Hr; simpl; [|done].
    intros [= <- <-]. apply pushMD_inv in Hm as (_ & Hs & He & _).
    destruct (IH _ _ _ _ He Hr) as (b & Hch & Hex).
    exists b. simpl. split; [split; [congruence|done]|].
  destruct ex'; [|done]. by destruct Hex.
Qed.

Lemma chained_app a l1 b l2 c :
  chained a l1 b → chained b l2 c → chained a (l1 ++ l2) c.
Proof.
  revert a. induction l1 as [|i l1 IH]; intros a; simpl.
  - by intros ->.
  - intros [-> H1] H2. split; [done|]. by apply IH.
Qed.



Lemma outerLoop_pushed fuel capEnd cycleOrder mdStartMs ms :
  outerLoop fuel capEnd cycleOrder mdStartMs = Finished ms →
  Forall Pushed ms.
Proof.
  revert mdStartMs ms. induction fuel as [|fuel IH]; intros s ms; simpl; [done|].
  destruct (mdLoop capEnd (drop 1 cycleOrder) s) as [[ms1 [|s1]]|] eqn:H1; try done.
  { intros [= <-]. by eapply mdLoop_pushed. }
  destruct (mdLoop capEnd cycleOrder s1) as [[ms2 [|s2]]|] eqn:H2; try done.
  { intros [= <-]. apply Forall_app; split; by eapply mdLoop_pushed. }
  destruct (outerLoop fuel capEnd cycleOrder s2) as [ms3| |] eqn:H3; try done.
  intros [= <-]. rewrite !Forall_app. split_and!; eauto using mdLoop_pushed.
Qed.

Lemma outerLoop_chain fuel capEnd cycleOrder mdStartMs ms a :
  JS.toISO mdStartMs = Some a →
  outerLoop fuel capEnd cycleOrder mdStartMs = Finished ms →
  ∃ b, chained a (majorInterval <$> ms) b ∧ JS.toISO capEnd = Some b ∧ ms ≠ [].
Proof.
  revert mdStartMs ms a. induction fuel as [|fuel IH]; intros s ms a Ha; simpl; [done|].
  destruct (mdLoop capEnd (drop 1 cycleOrder) s) as [[ms1 [|s1]]|] eqn:H1; try done.
  { intros [= <-]. destruct (mdLoop_chain _ _ _ _ _ _ Ha H1) as (b & ? & ? & ?). eauto. }
  destruct (mdLoop_chain _ _ _ _ _ _ Ha H1) as (b1 & Hc1 & Hb1).
  destruct (mdLoop capEnd cycleOrder s1) as [[ms2 [|s2]]|] eqn:H2; try done.
  { intros [= <-]. destruct (mdLoop_chain _ _ _ _ _ _ Hb1 H2) as (b & ? & ? & ?).
    exists b. rewrite fmap_app. split_and!; eauto using chained_app.
    by intros [_ ?]%app_eq_nil. }
  destruct (mdLoop_chain _ _ _ _ _ _ Hb1 H2) as (b2 & Hc2 & Hb2).
  destruct (outerLoop fuel capEnd cycleOrder s2) as [ms3| |] eqn:H3; try done.
  intros [= <-]. destruct (IH _ _ _ Hb2 H3) as (b & Hc3 & Hb & Hne).
  exists b. rewrite !fmap_app. split_and!; eauto using chained_app.
  by intros [_ [_ ?]%app_eq_nil]%app_eq_nil.
Qed.

(** More fuel never changes a result. *)
Lemma outerLoop_fuel_mono fuel fuel' capEnd cycleOrder mdStartMs :
  (fuel ≤ fuel')%nat →
  outerLoop fuel capEnd cycleOrder mdStartMs ≠ LoopOutOfFuel →
  outerLoop fuel' capEnd cycleOrder mdStartMs
  = outerLoop fuel capEnd cycleOrder mdStartMs.
Proof.
  revert fuel' mdStartMs. induction fuel as [|fuel IH]; intros fuel' s Hle; simpl; [done|].
  destruct fuel' as [|fuel']; [lia|]. simpl.
  destruct (mdLoop capEnd (drop 1 cycleOrder) s) as [[ms1 [|s1]]|]; try done.
  destruct (mdLoop capEnd cycleOrder s1) as [[ms2 [|s2]]|]; try done.
  intros Hne. rewrite (IH fuel' s2); [done|lia|].
  by destruct (outerLoop fuel capEnd cycleOrder s2).
Qed.
End EngineFacts.

(** ** Rounding of a binary64 sum, as far as the loop needs it *)

Lemma iter_pos_iter {A} (f : A → A) p x : SpecFloat.iter_pos f p x = Pos.iter f x p.
Proof.
  revert x. induction p as [p IH|p IH|]; intros x; simpl; [|by rewrite !IH|done].
  by rewrite !IH, <- !Pos.iter_swap.
Qed.

Lemma shr_1_m mrs : 0 ≤ shr_m mrs → shr_m (shr_1 mrs) = shr_m mrs / 2.
Proof.
  intros Hm. rewrite <- Z.div2_div.
  destruct mrs as [m r s]. simpl in *. by destruct m as [|[p|p|]|p].
Qed.

Lemma iter_shr_m p mrs :
  0 ≤ shr_m mrs → shr_m (SpecFloat.iter_pos shr_1 p mrs) = shr_m mrs / 2 ^ Zpos p.
Proof.
  intros Hm. rewrite iter_pos_iter.
  pattern p, (Pos.iter shr_1 mrs p). apply Pos.iter_ind.
  - rewrite shr_1_m by done. by rewrite Z.pow_1_r.
  - intros q mrs' IH. rewrite shr_1_m.
    + rewrite IH, Pos2Z.inj_succ, Z.pow_succ_r, Z.div_div by lia.
      f_equal. lia.
    + rewrite IH. apply Z.div_pos; [done|]. apply Z.pow_pos_nonneg; lia.
Qed.

Lemma iter_xO_pow m d : Zpos (Pos.iter xO m d) = Zpos m * 2 ^ Zpos d.
Proof.
  pattern d, (Pos.iter xO m d). apply Pos.iter_ind.
  - rewrite Pos2Z.inj_xO. lia.
  - intros q a IH. rewrite Pos2Z.inj_xO, IH, Pos2Z.inj_succ, Z.pow_succ_r by lia. lia.
Qed.

(** One stage of [binary_round_aux]: the mantissa is shifted right until it
    fits the format; nothing is lost but the low bits. *)
Lemma shr_fexp_stage m e mrs e' :
  0 < m → -1074 ≤ e →
  shr_fexp prec emax m e loc_Exact = (mrs, e') →
  e ≤ e' ∧ -1074 ≤ e' ∧ 0 < shr_m mrs
  ∧ shr_m mrs * 2 ^ (e' - e) ≤ m < (shr_m mrs + 1) * 2 ^ (e' - e).
Proof.
  intros Hm He. unfold shr_fexp, shr, fexp, SpecFloat.emin, prec, emax.
  destruct m as [|q|q]; try lia. simpl Zdigits2.
  pose proof (digits2_bounds q) as [Hlo _].
  set (d := Zpos (digits2_pos q)) in *.
  destruct (Z.max (d + e - 53) (3 - 1024 - 53) - e) as [|p|p] eqn:Hn.
  - intros [= <- <-]. simpl. rewrite Z.sub_diag. simpl. lia.
  - intros [= <- <-]. rewrite iter_shr_m by (simpl; lia). simpl shr_m.
    replace (e + Zpos p - e) with (Zpos p) by lia.
    assert (Zpos p = d - 53) as Hp by lia.
    assert (0 < 2 ^ Zpos p) as Hpow by (apply Z.pow_pos_nonneg; lia).
    assert (2 ^ Zpos p ≤ Zpos q) as Hle.
    { etrans; [|exact Hlo]. apply Z.pow_le_mono_r; lia. }
    split_and!; try lia.
    + apply Z.div_str_pos. lia.
    + rewrite Z.mul_comm. apply Z.mul_div_le. lia.
    + rewrite Z.mul_comm. apply Z.mul_succ_div_gt. lia.
  - intros [= <- <-]. simpl. rewrite Z.sub_diag. simpl. lia.
Qed.

Lemma round_nearest_even_range mx lx :
  mx ≤ round_nearest_even mx lx ≤ mx + 1.
Proof. unfold round_nearest_even. destruct lx as [|[]]; try destruct (Z.even mx); lia. Qed.

(** Rounding to nearest moves a value by less than two units of the
    result's last place. *)
Lemma binary_round_aux_bounds sx mx ex :
  -1074 ≤ ex →
  match binary_round_aux prec emax sx (Zpos mx) ex loc_Exact with
  | S754_finite s m e =>
      s = sx ∧ ex ≤ e
      ∧ Zpos m * 2 ^ (e - ex) ≤ Zpos mx + 2 ^ (e - ex)
      ∧ Zpos mx < (Zpos m + 2) * 2 ^ (e - ex)
  | S754_infinity _ => True
  | _ => False
  end.
Proof.
  intros He. unfold binary_round_aux.
  destruct (shr_fexp prec emax (Zpos mx) ex loc_Exact) as [mrs1 e1] eqn:H1.
  apply shr_fexp_stage in H1 as (He1 & He1' & Hm1 & Hlo1 & Hhi1); [|lia|done].
  pose proof (round_nearest_even_range (shr_m mrs1) (loc_of_shr_record mrs1)) as [Hr Hr'].
  set (m2 := round_nearest_even _ _) in *.
  destruct (shr_fexp prec emax m2 e1 loc_Exact) as [mrs2 e2] eqn:H2.
  apply shr_fexp_stage in H2 as (He2 & He2' & Hm2 & Hlo2 & Hhi2); [|lia|done].
  destruct (shr_m mrs2) as [|m3|m3] eqn:Hm3; try lia.
  destruct (e2 <=? _); [|done].
  assert (0 < 2 ^ (e1 - ex)) as P1 by (apply Z.pow_pos_nonneg; lia).
  assert (0 < 2 ^ (e2 - e1)) as P2 by (apply Z.pow_pos_nonneg; lia).
  replace (e2 - ex) with ((e2 - e1) + (e1 - ex)) by lia.
  rewrite Z.pow_add_r by lia.
  set (A := 2 ^ (e1 - ex)) in *. set (B := 2 ^ (e2 - e1)) in *.
  split_and!; [done|lia|nia|nia].
Qed.

Lemma shl_align_spec mx ex ex' :
  ex' ≤ ex →
  shl_align mx ex ex' = ((shl_align mx ex ex').1, ex')
  ∧ Zpos (shl_align mx ex ex').1 = Zpos mx * 2 ^ (ex - ex').
Proof.
  intros Hle. unfold shl_align.
  destruct (ex' - ex) as [|d|d] eqn:Hd; try lia; simpl.
  - assert (ex' = ex) as -> by lia. rewrite Z.sub_diag. split; [done|]. simpl. lia.
  - rewrite iter_xO_pow. replace (ex - ex') with (Zpos d) by lia. done.
Qed.

Lemma binary_round_bounds sx mx ex :
  -1074 ≤ ex →
  match binary_round prec emax sx mx ex with
  | S754_finite s m e =>
      s = sx ∧ -1074 ≤ e
      ∧ ulps m e ≤ ulps mx ex + 2 ^ (e + 1074)
      ∧ ulps mx ex < ulps m e + 2 * 2 ^ (e + 1074)
  | S754_infinity _ => True
  | _ => False
  end.
Proof.
  intros He. unfold binary_round.
  set (ex' := fexp prec emax (Zpos (digits2_pos mx) + ex)).
  assert (-1074 ≤ ex') as He'.
  { unfold ex', fexp, SpecFloat.emin, prec, emax. lia. }
  destruct (shl_align mx ex ex') as [mz ez] eqn:Hal.
  assert (-1074 ≤ ez ∧ ez ≤ ex ∧ Zpos mz = Zpos mx * 2 ^ (ex - ez)) as (Hez & Hez' & Hmz).
  { destruct (Z.le_gt_cases ex' ex) as [Hle|Hgt].
    - destruct (shl_align_spec mx ex ex' Hle) as [Heq Hv].
      rewrite Hal in Heq, Hv. apply (f_equal snd) in Heq. simpl in Heq, Hv.
      rewrite Heq. by split_and!; [lia..|].
    - unfold shl_align in Hal. destruct (ex' - ex) as [|d|d] eqn:Hd; try lia.
      injection Hal as <- <-. rewrite Z.sub_diag. simpl. lia. }
  pose proof (binary_round_aux_bounds sx mz ez Hez) as Haux.
  destruct (binary_round_aux prec emax sx (Zpos mz) ez loc_Exact) as [| | |s m e]; try done.
  destruct Haux as (Hs & Hee & Hup & Hlo).
  assert (2 ^ (e + 1074) = 2 ^ (e - ez) * 2 ^ (ez + 1074)) as Hu1.
  { rewrite <- Z.pow_add_r by lia. f_equal. lia. }
  assert (ulps mx ex = Zpos mz * 2 ^ (ez + 1074)) as Hu2.
  { unfold ulps. rewrite Hmz, <- Z.mul_assoc, <- Z.pow_add_r by lia.
    do 2 f_equal. lia. }
  assert (0 < 2 ^ (ez + 1074)) by (apply Z.pow_pos_nonneg; lia).
  rewrite Hu2. unfold ulps. rewrite Hu1.
  set (A := 2 ^ (e - ez)) in *. set (B := 2 ^ (ez + 1074)) in *.
  split_and!; [done|lia|nia|nia].
Qed.

Lemma SFadd_finite_bounds sx mx ex sy my ey :
  -1074 ≤ ex → -1074 ≤ ey →
  let S := sulps sx mx ex + sulps sy my ey in
  match SFadd prec emax (S754_finite sx mx ex) (S754_finite sy my ey) with
  | S754_zero _ => S = 0
  | S754_finite s m e =>
      -1074 ≤ e
      ∧ if s then S < 0 ∧ ulps m e ≤ - S + 2 ^ (e + 1074)
                  ∧ - S < ulps m e + 2 * 2 ^ (e + 1074)
        else 0 < S ∧ ulps m e ≤ S + 2 ^ (e + 1074)
             ∧ S < ulps m e + 2 * 2 ^ (e + 1074)
  | S754_infinity _ => True
  | S754_nan => False
  end.
Proof.
  intros Hex Hey S. unfold SFadd.
  set (ez := Z.min ex ey).
  assert (ez ≤ ex ∧ ez ≤ ey ∧ -1074 ≤ ez) as (Hzx & Hzy & Hez) by (unfold ez; lia).
  destruct (shl_align_spec mx ex ez Hzx) as [_ Hx].
  destruct (shl_align_spec my ey ez Hzy) as [_ Hy].
  set (ax := (shl_align mx ex ez).1) in *. set (ay := (shl_align my ey ez).1) in *.
  set (M := cond_Zopp sx (Zpos ax) + cond_Zopp sy (Zpos ay)).
  assert (0 < 2 ^ (ez + 1074)) as Hpos by (apply Z.pow_pos_nonneg; lia).
  assert (M * 2 ^ (ez + 1074) = S) as HM.
  { assert (ulps mx ex = Zpos ax * 2 ^ (ez + 1074)) as Ux.
    { unfold ulps. rewrite Hx, <- Z.mul_assoc, <- Z.pow_add_r by lia.
      do 2 f_equal. lia. }
    assert (ulps my ey = Zpos ay * 2 ^ (ez + 1074)) as Uy.
    { unfold ulps. rewrite Hy, <- Z.mul_assoc, <- Z.pow_add_r by lia.
      do 2 f_equal. lia. }
    unfold M, S, sulps, cond_Zopp. rewrite Ux, Uy. destruct sx, sy; lia. }
  unfold binary_normalize. destruct M as [|pm|pm] eqn:HMv.
  - lia.
  - pose proof (binary_round_bounds false pm ez Hez) as Hb.
    destruct (binary_round prec emax false pm ez) as [| | |s m e]; try done.
    destruct Hb as (-> & He & Hup & Hlo). split; [done|].
    assert (ulps pm ez = S) as <- by (unfold ulps; lia).
    unfold ulps in *. split_and!; lia.
  - pose proof (binary_round_bounds true pm ez Hez) as Hb.
    destruct (binary_round prec emax true pm ez) as [| | |s m e]; try done.
    destruct Hb as (-> & He & Hup & Hlo). split; [done|].
    assert (ulps pm ez = - S) as <- by (unfold ulps; lia).
    unfold ulps in *. split_and!; lia.
Qed.

Lemma magnitude_ulps m e : -1074 ≤ e → JS.magnitude m e = ulps m e / 2 ^ 1074.
Proof.
  intros He. unfold JS.magnitude, ulps.
  destruct (Z.leb_spec 0 e) as [H0|H0].
  - rewrite Z.shiftl_mul_pow2, Z.pow_add_r, Z.mul_assoc by lia.
    symmetry. apply Z.div_mul. lia.
  - rewrite Z.shiftr_div_pow2 by lia.
    replace (2 ^ 1074) with (2 ^ (- e) * 2 ^ (e + 1074)).
    + symmetry. apply Z.div_mul_cancel_r; apply Z.pow_nonzero; lia.
    + rewrite <- Z.pow_add_r by lia. f_equal. lia.
Qed.

(** A float that serializes is at most 8.64e15 in magnitude, so its last
    place is worth at most 1. *)
Lemma toISO_finite x s m e a :
  Prim2SF x = S754_finite s m e → JS.toISO x = Some a →
  -1074 ≤ e ∧ e ≤ 0
  ∧ a = if s then - (ulps m e / 2 ^ 1074) else ulps m e / 2 ^ 1074.
Proof.
  intros Hx. pose proof (Prim2SF_valid x) as V. rewrite Hx in V. simpl in V.
  apply bounded_range in V as (Hm & He & Hn).
  unfold JS.toISO. rewrite Hx.
  destruct (JS.exceeds m e JS.maxTime) eqn:Hex; [done|].
  intros [= <-]. rewrite magnitude_ulps by done. split_and!; [done| |done].
  unfold JS.exceeds in Hex. destruct (Z.leb_spec 0 e) as [H0|H0]; [|lia].
  apply Z.ltb_ge in Hex. rewrite Z.shiftl_mul_pow2 in Hex by done.
  destruct (Z.eq_dec e 0) as [->|Hne]; [done|].
  assert (2 ^ 1 ≤ 2 ^ e) by (apply Z.pow_le_mono_r; lia).
  specialize (Hn ltac:(lia)). unfold JS.maxTime in Hex.
  change (2 ^ 52) with 4503599627370496 in Hn. change (2 ^ 1) with 2 in *. nia.
Qed.

Lemma div_shift X Y T k : 0 < T → Y + k * T ≤ X → Y / T + k ≤ X / T.
Proof.
  intros HT H. rewrite <- Z.div_add by lia. by apply Z.div_le_mono.
Qed.

(** Adding a positive number of at least four milliseconds moves the
    serialized instant forward. *)
Lemma add_progress s d a b md ed :
  Prim2SF d = S754_finite false md ed → -1074 ≤ ed → 4 * 2 ^ 1074 ≤ ulps md ed →
  JS.toISO s = Some a → JS.toISO (s + d)%float = Some b → a < b.
Proof.
  intros Hd Hed Hbig Ha Hb.
  assert (0 < 2 ^ 1074) as HT by (by apply Z.pow_pos_nonneg).
  pose proof (add_spec s d) as Hadd. rewrite Hd in Hadd. unfold SF64add in Hadd.
  destruct (Prim2SF s) as [ss|ss| |ss ms es] eqn:Hs.
  - (* s is a zero *)
    rewrite (toISO_zero _ _ Hs) in Ha. injection Ha as <-.
    simpl in Hadd. destruct (toISO_finite _ _ _ _ _ Hadd Hb) as (_ & _ & ->).
    pose proof (div_shift (ulps md ed) 0 (2 ^ 1074) 4 HT ltac:(lia)).
    rewrite Z.div_0_l in * by lia. lia.
  - unfold JS.toISO in Ha. by rewrite Hs in Ha.
  - unfold JS.toISO in Ha. by rewrite Hs in Ha.
  - destruct (toISO_finite _ _ _ _ _ Hs Ha) as (Hes & _ & ->).
    pose proof (SFadd_finite_bounds ss ms es false md ed Hes Hed) as Hsum.
    cbv zeta in Hsum. rewrite <- Hadd in Hsum.
    assert (0 < ulps ms es) as Hpos.
    { unfold ulps. apply Z.mul_pos_pos; [done|]. apply Z.pow_pos_nonneg; lia. }
    destruct (Prim2SF (s + d)%float) as [sr|sr| |sr mr er] eqn:Hr.
    + (* the sum is zero *)
      rewrite (toISO_zero _ _ Hr) in Hb. injection Hb as <-.
      unfold sulps in Hsum. destruct ss; [|lia].
      pose proof (div_shift (ulps ms es) 0 (2 ^ 1074) 4 HT ltac:(lia)).
      rewrite Z.div_0_l in * by lia. lia.
    + unfold JS.toISO in Hb. by rewrite Hr in Hb.
    + done.
    + destruct (toISO_finite _ _ _ _ _ Hr Hb) as (Her & Her' & ->).
      destruct Hsum as [_ Hsum].
      assert (2 ^ (er + 1074) ≤ 2 ^ 1074) as Hq by (apply Z.pow_le_mono_r; lia).
      set (T := 2 ^ 1074) in *. set (q := 2 ^ (er + 1074)) in *.
      unfold sulps in Hsum.
      destruct ss, sr; destruct Hsum as (Hsign & Hup & Hlo); try lia.
      * (* negative start, negative sum *)
        pose proof (div_shift (ulps ms es) (ulps mr er) T 3 HT ltac:(lia)). lia.
      * (* negative start, positive sum *)
        assert (0 ≤ ulps mr er / T) by (apply Z.div_pos; unfold ulps in *; lia).
        destruct (Z.le_gt_cases T (ulps ms es)) as [Hge|Hlt].
        -- pose proof (div_shift (ulps ms es) 0 T 1 HT ltac:(lia)).
           rewrite Z.div_0_l in * by lia. lia.
        -- pose proof (div_shift (ulps mr er) 0 T 1 HT ltac:(lia)).
           rewrite Z.div_0_l in * by lia.
           assert (0 ≤ ulps ms es / T) by (apply Z.div_pos; lia). lia.
      * (* non-negative start *)
        pose proof (div_shift (ulps mr er) (ulps ms es) T 2 HT ltac:(lia)). lia.
Qed.

Lemma toISO_le_maxTime x a : JS.toISO x = Some a → a ≤ JS.maxTime.
Proof.
  unfold JS.toISO. destruct (Prim2SF x) as [s|s| |s m e]; try done.
  { by intros [= <-]. }
  destruct (JS.exceeds m e JS.maxTime) eqn:Hex; [done|]. intros [= <-].
  pose proof (magnitude_nonneg m e). destruct s; [unfold JS.maxTime; lia|].
  unfold JS.exceeds, JS.magnitude in *.
  destruct (Z.leb_spec 0 e) as [H0|H0]; apply Z.ltb_ge in Hex; [done|].
  rewrite Z.shiftl_mul_pow2 in Hex by lia. rewrite Z.shiftr_div_pow2 by lia.
  apply Z.div_le_upper_bound; [apply Z.pow_pos_nonneg; lia|lia].
Qed.

(** Every natural period is a positive whole number of milliseconds. *)
Lemma period_float l :
  ∃ md ed, Prim2SF (YEAR_MS * YEARS l)%float = S754_finite false md ed
           ∧ -1074 ≤ ed ∧ 4 * 2 ^ 1074 ≤ ulps md ed.
Proof.
  destruct l; eexists _, _; (split; [vm_compute; reflexivity|]);
    (split; [done|]); apply Z.leb_le; vm_compute; reflexivity.
Qed.

Section Termination.
Context {env : Env}.

Lemma mdLoop_progress capEnd lords mdStartMs ms s' a :
  JS.toISO mdStartMs = Some a →
  mdLoop capEnd lords mdStartMs = Some (ms, Fell s') →
  ∃ b, JS.toISO s' = Some b ∧ a ≤ b ∧ (lords ≠ [] → a < b).
Proof.
  revert mdStartMs ms a. induction lords as [|l lords IH]; intros s ms a Ha; simpl.
  { intros [= <- <-]. exists a. by split_and!. }
  destruct (capEnd <? s + YEAR_MS * YEARS l)%float.
  { by destruct (pushMD (Some l) s capEnd). }
  destruct (pushMD (Some l) s _) as [m|] eqn:Hm; simpl; [|done].
  destruct (mdLoop capEnd lords _) as [[ms' ex']|] eqn:Hr; simpl; [|done].
  intros [= <- ->]. apply pushMD_inv in Hm as (_ & _ & He & _).
  destruct (period_float l) as (md & ed & Hd & Hed & Hbig).
  pose proof (add_progress _ _ _ _ _ _ Hd Hed Hbig Ha He) as Hlt.
  destruct (IH _ _ _ He Hr) as (b & Hb & Hle & _).
  exists b. split_and!; [done|lia|lia].
Qed.

Lemma outerLoop_terminates capEnd cycleOrder n mdStartMs a :
  cycleOrder ≠ [] →
  JS.toISO mdStartMs = Some a →
  JS.maxTime - a < Z.of_nat n →
  ∃ fuel, outerLoop fuel capEnd cycleOrder mdStartMs ≠ LoopOutOfFuel.
Proof.
  intros Hne. revert mdStartMs a. induction n as [|n IH]; intros s a Ha Hn.
  { apply toISO_le_maxTime in Ha. lia. }
  destruct (mdLoop capEnd (drop 1 cycleOrder) s) as [[ms1 [|s1]]|] eqn:H1.
  - exists 1%nat. simpl. by rewrite H1.
  - destruct (mdLoop_progress _ _ _ _ _ _ Ha H1) as (a1 & Ha1 & Hle1 & _).
    destruct (mdLoop capEnd cycleOrder s1) as [[ms2 [|s2]]|] eqn:H2.
    + exists 1%nat. simpl. by rewrite H1, H2.
    + destruct (mdLoop_progress _ _ _ _ _ _ Ha1 H2) as (a2 & Ha2 & _ & Hlt2).
      specialize (Hlt2 Hne).
      destruct (IH s2 a2 Ha2 ltac:(lia)) as [fuel Hfuel].
      exists (S fuel). simpl. rewrite H1, H2.
      by destruct (outerLoop fuel capEnd cycleOrder s2).
    + exists 1%nat. simpl. by rewrite H1, H2.
  - exists 1%nat. simpl. by rewrite H1.
Qed.

Lemma rotateFromStart_nonempty startLord : rotateFromStart startLord ≠ [].
Proof. by destruct startLord as [[]|]. Qed.

(** X1.  The function always comes to an end: for every payload some
    number of turns of the outer loop suffices, and more turns give the
    same outcome. *)
Theorem computeVimshottari_terminates p :
  ∃ fuel, computeVimshottari fuel p ≠ OutOfFuel
          ∧ ∀ fuel', (fuel ≤ fuel')%nat →
              computeVimshottari fuel' p = computeVimshottari fuel p.
Proof.
  unfold computeVimshottari.
  destruct (negb (validPayload p)); [by exists 0%nat|].
  cbv zeta.
  destruct (pushMD _ _ _) as [first|] eqn:Hfirst; [|by exists 0%nat].
  destruct (_ <=? _)%float.
  { exists 0%nat. split; [|done]. by destruct (JS.toISO (birthMsOf p)). }
  apply pushMD_inv in Hfirst as (_ & _ & He & _).
  destruct (outerLoop_terminates
              (capEndOf (birthMsOf p) (default 120%float (totalYears p)))
              (rotateFromStart (startLordOf (nakFromLon (toNumber (moonSiderealDeg p)))))
              (Z.to_nat (JS.maxTime - md_end first + 1)) _ _
              (rotateFromStart_nonempty _) He) as [fuel Hfuel].
  { apply toISO_le_maxTime in He. lia. }
  exists fuel. split.
  - revert Hfuel. destruct (outerLoop fuel _ _ _); try done.
    intros _. by destruct (JS.toISO (birthMsOf p)).
  - intros fuel' Hle. by rewrite (outerLoop_fuel_mono _ _ _ _ _ Hle Hfuel).
Qed.
End Termination.

(** ** The schedule as a whole *)

Section ScheduleFacts.
Context {env : Env}.




(** What a returned output is made of. *)
Lemma computeVimshottari_returned fuel p o :
  computeVimshottari fuel p = Returned o →
  validPayload p = true
  ∧ ∃ first rest,
      sequence o = first :: rest
      ∧ pushMD (startLordOf (nakOf p)) (birthMsOf p) (anchorEndOf p) = Some first
      ∧ JS.toISO (birthMsOf p) = Some (birthUTC (meta o))
      ∧ startLord (meta o) = startLordOf (nakOf p)
      ∧ if (horizonOf p <=? anchorEndOf p)%float then rest = []
        else outerLoop fuel (horizonOf p)
               (rotateFromStart (startLordOf (nakOf p))) (anchorEndOf p)
             = Finished rest.
Proof.
  unfold computeVimshottari.
  destruct (validPayload p); simpl; [|done].
  change (nakFromLon (toNumber (moonSiderealDeg p))) with (nakOf p).
  change (capEndOf (birthMsOf p) (default 120%float (totalYears p)))
    with (horizonOf p).
  change (JS.min _ (horizonOf p)) with (anchorEndOf p).
  destruct (pushMD _ _ _) as [first|] eqn:Hfirst; [|done].
  destruct (horizonOf p <=? anchorEndOf p)%float.
  - destruct (JS.toISO (birthMsOf p)) as [utc|] eqn:Hutc; [|done].
    intros [= <-]. split; [done|]. by exists first, [].
  - destruct (outerLoop _ _ _ _) as [rest| |] eqn:Hrest; try done.
    destruct (JS.toISO (birthMsOf p)) as [utc|] eqn:Hutc; [|done].
    intros [= <-]. split; [done|]. by exists first, rest.
Qed.

Lemma anchorEndOf_undefined_lord p :
  startLordOf (nakOf p) = None → JS.toISO (anchorEndOf p) = None.
Proof.
  unfold anchorEndOf, mdRemainingMsOf, mdTotalMsOf. intros ->.
  change (YEAR_MS * toNumber (YEARS_at None))%float with nan.
  by rewrite mul_nan_l, sub_nan_l, add_nan_r, min_nan_l.
Qed.

Lemma computeVimshottari_pushed fuel p o :
  computeVimshottari fuel p = Returned o →
  Forall Pushed (sequence o).
Proof.
  intros (_ & first & rest & -> & Hfirst & _ & _ & Hrest)%computeVimshottari_returned.
  constructor.
  - destruct (startLordOf (nakOf p)) as [l|] eqn:Hl; [by eexists _, _, _|].
    apply pushMD_inv in Hfirst as (_ & _ & He & _).
    by rewrite (anchorEndOf_undefined_lord p Hl) in He.
  - destruct (horizonOf p <=? anchorEndOf p)%float; [by subst|].
    by eapply outerLoop_pushed.
Qed.




End ScheduleFacts.

(** ** Rotation of the lord cycle and the lords of the children *)

Lemma Forall2_Some_fmap {A B C} (f : A → option B) (g : B → C) (h : A → C) l k :
  Forall2 (fun x y => f x = Some y) l k →
  (∀ x y, f x = Some y → g y = h x) →
  g <$> k = h <$> l.
Proof.
  intros HF Hgh. induction HF as [|x y l k Hxy _ IH]; [done|].
  by rewrite !fmap_cons, IH, (Hgh x y Hxy).
Qed.

Lemma Forall2_Some_Forall {A B} (f : A → option B) (Q : B → Prop) l k :
  Forall2 (fun x y => f x = Some y) l k →
  (∀ x y, f x = Some y → Q y) →
  Forall Q k.
Proof.
  intros HF HQ. induction HF as [|x y l k Hxy _ IH]; constructor; eauto.
Qed.

Lemma rotateFromStart_cycle (l : Lord) :
  let r := rotateFromStart (Some l) in
  length r = 9%nat ∧ head r = Some l ∧ NoDup r ∧ (∀ x : Lord, x ∈ r)
  ∧ ∃ i, LORDS !! i = Some l ∧ r = rotation i.
Proof.
  split_and!.
  - by destruct l.
  - by destruct l.
  - destruct l; apply (bool_decide_unpack _); by vm_compute.
  - intros x. destruct l, x; apply (bool_decide_unpack _); by vm_compute.
  - exists (Z.to_nat (indexOf LORDS (Some l))). by destruct l.
Qed.

Section TreeFacts.
Context {env : Env}.

Lemma orNull_idemp v : orNull (orNull v) = orNull v.
Proof. destruct v as [s|]; simpl; [|done]. by destruct (String.eqb s "") eqn:E; simpl; rewrite ?E. Qed.

Lemma default_orNull s : default "" (orNull (Some s)) = s.
Proof. simpl. by destruct (String.eqb_spec s "") as [->|]. Qed.

Lemma orNull_interpFor md ad : orNull (interpFor md ad) = interpFor md ad.
Proof.
  unfold interpFor. destruct (interpretations !! _); [|done]. apply orNull_idemp.
Qed.

Lemma antarOf_children mdLord seg a :
  antarOf mdLord seg = Some a →
  pd_lord <$> pratyantar a = rotateFromStart (Some (ad_lord a)).
Proof.
  intros (Hl & _ & _ & _ & HF)%antarOf_inv.
  rewrite Hl.
  rewrite (Forall2_Some_fmap _ pd_lord lord _ _ HF).
  - by destruct (buildWeightedSegments_layout (startMs seg) (durationMs seg)
                  (rotateFromStart (Some (lord seg))) YEARS) as [? _].
  - by intros pd q (? & _)%pratyantarOf_inv.
Qed.

Lemma pushed_children m :
  Pushed m →
  ∃ l, md_lord m = Some l
       ∧ ad_lord <$> antar m = rotateFromStart (Some l)
       ∧ Forall (fun a => pd_lord <$> pratyantar a = rotateFromStart (Some (ad_lord a)))
           (antar m).
Proof.
  intros (l & s & e & Hp). apply pushMD_inv in Hp as (Hl & _ & _ & _ & _ & HF).
  exists l. split_and!; [done| |].
  - rewrite (Forall2_Some_fmap _ ad_lord lord _ _ HF).
    + by destruct (buildWeightedSegments_layout s (e - s)%float
                    (rotateFromStart (Some l)) YEARS) as [? _].
    + by intros seg a (? & _)%antarOf_inv.
  - eapply Forall2_Some_Forall; [exact HF|]. intros seg a. apply antarOf_children.
Qed.

Lemma pushed_interpretations m :
  Pushed m →
  ∃ l, md_lord m = Some l
       ∧ Forall (fun a =>
           ad_interpretation a
           = interpFor (Some (lordName l)) (Some (lordName (ad_lord a)))
           ∧ Forall (fun q =>
               pd_interpretation q
               = interpFor (Some (lordName (ad_lord a))) (Some (lordName (pd_lord q))))
               (pratyantar a))
           (antar m).
Proof.
  intros (l & s & e & Hp). apply pushMD_inv in Hp as (Hl & _ & _ & _ & _ & HF).
  exists l. split; [done|].
  eapply Forall2_Some_Forall; [exact HF|]. intros seg a Ha.
  apply antarOf_inv in Ha as (Hla & _ & _ & Hi & HFq).
  rewrite Hi, orNull_interpFor, Hla. split; [done|].
  eapply Forall2_Some_Forall; [exact HFq|]. intros pd q Hq.
  apply pratyantarOf_inv in Hq as (Hlq & _ & _ & Hiq).
  by rewrite Hiq, orNull_interpFor, Hlq.
Qed.

(** Siblings are contiguous and the first child starts at the parent's
    start, at both levels; where the last child ends is another matter. *)
Lemma linked_chained {X} (f : Segment Lord → option X) (iv : X → Interval) segs xs c a :
  (∀ seg x, f seg = Some x →
     JS.toISO (startMs seg) = Some (iv x).1 ∧ JS.toISO (endMs seg) = Some (iv x).2) →
  Forall2 (fun seg x => f seg = Some x) segs xs →
  linked c segs → JS.toISO c = Some a →
  ∃ b, chained a (iv <$> xs) b.
Proof.
  intros Hf HF. revert c a.
  induction HF as [|seg x segs xs Hx _ IH]; intros c a Hl Ha; [by exists a|].
  destruct Hl as (Hs & _ & Hl). destruct (Hf seg x Hx) as [Hxs Hxe].
  destruct (IH _ _ Hl Hxe) as (b & Hb). exists b. rewrite fmap_cons. simpl.
  split; [congruence|done].
Qed.

Lemma pushed_children_chained m :
  Pushed m →
  (∃ b, chained (md_start m) (subInterval <$> antar m) b)
  ∧ Forall (fun a => ∃ b, chained (ad_start a) (subSubInterval <$> pratyantar a) b)
      (antar m).
Proof.
  intros (l & s & e & Hp). apply pushMD_inv in Hp as (_ & Hs & _ & _ & _ & HF).
  split.
  - eapply (linked_chained _ subInterval); [|exact HF| |exact Hs].
    + by intros seg a (_ & ? & ? & _)%antarOf_inv.
    + by destruct (buildWeightedSegments_layout s (e - s)%float
                    (rotateFromStart (Some l)) YEARS) as (_ & ? & _).
  - eapply Forall2_Some_Forall; [exact HF|]. intros seg a Ha.
    apply antarOf_inv in Ha as (_ & Has & _ & _ & HFq).
    eapply (linked_chained _ subSubInterval); [|exact HFq| |exact Has].
    + by intros pd q (_ & ? & ? & _)%pratyantarOf_inv.
    + by destruct (buildWeightedSegments_layout (startMs seg) (durationMs seg)
                    (rotateFromStart (Some (lord seg))) YEARS) as (_ & ? & _).
Qed.

(** C5 (rotation).  [rotateFromStart] of any of the nine lords is the fixed
    cycle rotated to start at that lord: nine lords, the given one first, no
    repeats, none missing.  In every returned tree each Major node has one
    of the nine lords, its Sub children carry the cycle rotated to the
    Major's lord, and the SubSub children of each Sub carry the cycle
    rotated to that Sub's lord. *)
Theorem rotation_order :
  (∀ l : Lord,
     let r := rotateFromStart (Some l) in
     length r = 9%nat ∧ head r = Some l ∧ NoDup r ∧ (∀ x : Lord, x ∈ r)
     ∧ ∃ i, LORDS !! i = Some l ∧ r = rotation i)
  ∧ (∀ fuel p o m,
       computeVimshottari fuel p = Returned o → m ∈ sequence o →
       ∃ l, md_lord m = Some l
            ∧ ad_lord <$> antar m = rotateFromStart (Some l)
            ∧ ∀ a, a ∈ antar m →
                pd_lord <$> pratyantar a = rotateFromStart (Some (ad_lord a))).
Proof.
  split; [apply rotateFromStart_cycle|].
  intros fuel p o m Hret Hm. apply computeVimshottari_pushed in Hret.
  rewrite Forall_forall in Hret.
  destruct (pushed_children m (Hret m Hm)) as (l & Hl & Hsub & Hsubsub).
  exists l. split_and!; [done..|]. by apply Forall_forall.
Qed.

(** C9 (interpretation lookup).  The lookup lower-cases both names, so it
    depends on them only up to case; it is a function of every pair of
    names and answers [None] (null) exactly when the table has no non-empty
    text for the lower-cased pair.  In every returned tree each Sub node
    carries the lookup for (Major lord, Sub lord) and each SubSub node the
    lookup for (Sub lord, SubSub lord). *)
Theorem interpretation_lookup :
  (∀ md ad md' ad',
     JS.toLowerCase md = JS.toLowerCase md' → JS.toLowerCase ad = JS.toLowerCase ad' →
     interpFor (Some md) (Some ad) = interpFor (Some md') (Some ad'))
  ∧ (∀ md ad : Lord,
       interpFor (Some (lordName md)) (Some (lordName ad)) = None
       ↔ ∀ block text,
           interpretations !! JS.toLowerCase (lordName md) = Some block →
           block !! JS.toLowerCase (lordName ad) = Some text → text = "")
  ∧ (∀ fuel p o m,
       computeVimshottari fuel p = Returned o → m ∈ sequence o →
       ∃ l, md_lord m = Some l
            ∧ ∀ a, a ∈ antar m →
                ad_interpretation a
                = interpFor (Some (lordName l)) (Some (lordName (ad_lord a)))
                ∧ ∀ q, q ∈ pratyantar a →
                    pd_interpretation q
                    = interpFor (Some (lordName (ad_lord a)))
                        (Some (lordName (pd_lord q)))).
Proof.
  split_and!.
  - intros md ad md' ad' Hm Ha. unfold interpFor.
    by rewrite !default_orNull, Hm, Ha.
  - intros md ad. unfold interpFor. rewrite !default_orNull.
    destruct (interpretations !! _) as [block|] eqn:Hb; [|by split].
    unfold orNull. destruct (block !! _) as [text|] eqn:Ht.
    + destruct (String.eqb_spec text "") as [->|Hne]; split; try done.
      * intros _ b t [= <-] Hbt. congruence.
      * intros H. by specialize (H block text eq_refl Ht).
    + split; [|done]. intros _ b t [= <-] Hbt. congruence.
  - intros fuel p o m Hret Hm. apply computeVimshottari_pushed in Hret.
    rewrite Forall_forall in Hret.
    destruct (pushed_interpretations m (Hret m Hm)) as (l & Hl & HF).
    exists l. split; [done|]. intros a Ha.
    rewrite Forall_forall in HF. destruct (HF a Ha) as [Hi HFq].
    split; [done|]. by apply Forall_forall.
Qed.
End TreeFacts.

(** ** The engine on concrete inputs *)


Lemma run_moon0 : Examples.run "2000-01-01" 0 None = Returned Examples.moon0.
Proof. by vm_compute. Qed.

Lemma run_moon47_7 :
  Examples.run "2000-01-01" Examples.lon_47_7 None = Returned Examples.moon47_7.
Proof. by vm_compute. Qed.

Lemma run_born1962 :
  Examples.run "1962-05-27" Examples.lon_113_62 None = Returned Examples.born1962.
Proof. by vm_compute. Qed.

Lemma run_backwards :
  Examples.run "2000-01-01" 400 (Some (-1)%float) = Returned Examples.backwards.
Proof. by vm_compute. Qed.

(** C1 (segment allocator).  The call [pushMD] makes for the first Major
    period of a chart born 1962-05-27T00:00Z with the Moon at 113.62 degrees,
    [buildWeightedSegments(-239846400000, 256700026044, rotate(Mercury), YEARS)]:
    the nine lords come back in order and the last duration is the parent's
    end minus the cursor, but the last interval ends at 16853626043.999996
    and not at [parentStart + parentDuration = 16853626044]: adding the
    remainder back to the cursor rounds.  The same happens on the small span
    that starts at -6 and lasts 7, rotated to Jupiter. *)
Theorem allocator_last_end_misses_parent_end :
  (let segs := buildWeightedSegments (-239846400000) 256700026044
                 (rotateFromStart (Some Mercury)) YEARS in
   lord <$> segs = rotateFromStart (Some Mercury)
   ∧ (-239846400000 + 256700026044)%float = 16853626044%float
   ∧ (durationMs <$> last segs)
     = (fun s => (-239846400000 + 256700026044 - startMs s)%float) <$> last segs
   ∧ endMs <$> last segs = Some 0x1.f646f65dffffep+33%float
   ∧ (0x1.f646f65dffffep+33 <? 16853626044)%float = true)
  ∧ (let segs := buildWeightedSegments (-6) 7 (rotateFromStart (Some Jupiter)) YEARS in
     (-6 + 7)%float = 1%float
     ∧ endMs <$> last segs = Some 0x1.fffffffffffffp-1%float
     ∧ (0x1.fffffffffffffp-1 <? 1)%float = true).
Proof. by vm_compute. Qed.

(** C2 (tiling).  Born 1962-05-27T00:00Z with the Moon at 113.62 degrees
    and the default horizon: the first Major period (Mercury) ends at
    16853626044 ms, its last Sub period at 16853626043 ms, so its children
    do not tile it. *)
Theorem tiling_broken_before_1970 :
  Examples.run "1962-05-27" Examples.lon_113_62 None = Returned Examples.born1962
  ∧ ∃ m a, head (sequence Examples.born1962) = Some m
      ∧ md_lord m = Some Mercury
      ∧ last (antar m) = Some a
      ∧ md_end m = 16853626044
      ∧ ad_end a = 16853626043
      ∧ ¬ MajorTiled m.
Proof.
  split; [apply run_born1962|].
  eexists _, _. split; [by vm_compute|]. split; [by vm_compute|].
  split; [by vm_compute|]. split; [by vm_compute|]. split; [by vm_compute|].
  unfold MajorTiled, Tiles. intros H. destruct H as [(_ & Hch & _) _].
  vm_compute in Hch.
  lia.
Qed.

(** C6 (positive length).  Born 2000-01-01T00:00Z with the Moon at 0 degrees
    and the default 120-year horizon: the ninth Major period ends exactly at
    the horizon, and the loop still pushes a tenth one (Ketu) that starts
    and ends at the horizon, with all its children of zero length. *)
Theorem zero_length_period_at_exact_horizon :
  Examples.run "2000-01-01" 0 None = Returned Examples.moon0
  ∧ length (sequence Examples.moon0) = 10%nat
  ∧ ∃ m, last (sequence Examples.moon0) = Some m
      ∧ md_lord m = Some Ketu
      ∧ md_start m = 4733519040000 ∧ md_end m = 4733519040000
      ∧ Forall (fun i => i.1 = i.2) (allIntervals m).
Proof.
  split; [apply run_moon0|]. split; [by vm_compute|].
  eexists. split; [by vm_compute|]. split; [by vm_compute|].
  split; [by vm_compute|]. split; [by vm_compute|].
  apply (bool_decide_unpack _). by vm_compute.
Qed.

(** C10 (nakshatra of a longitude).  At the longitude -1e-20,
    [normalize360] returns 360 and [nakFromLon] the index 27, outside 0..26;
    at the double nearest to 226 2/3 degrees the fraction is negative. *)
Theorem nakshatra_out_of_range :
  normalize360 Examples.lon_tiny_negative = 360%float
  ∧ index (nakFromLon Examples.lon_tiny_negative) = 27%float
  ∧ index (nakFromLon Examples.lon_226_67) = 17%float
  ∧ (fracElapsed (nakFromLon Examples.lon_226_67) <? 0)%float = true.
Proof. by vm_compute. Qed.




(** *** Instances of the general theorems *)




Lemma rotation_order_witness :
  ∃ m l, head (sequence Examples.moon45) = Some m
    ∧ md_lord m = Some l
    ∧ ad_lord <$> antar m = rotateFromStart (Some l)
    ∧ ∀ a, a ∈ antar m →
        pd_lord <$> pratyantar a = rotateFromStart (Some (ad_lord a)).
Proof.
  assert (∃ m, head (sequence Examples.moon45) = Some m) as [m Hm]
    by (eexists; by vm_compute).
  destruct (proj2 (rotation_order (env := Examples.env)) 4%nat
              (Examples.payload "2000-01-01" 45 (Some 1%float)) Examples.moon45 m)
    as (l & Hl & Hsub & Hsubsub).
  - by vm_compute.
  - apply (list_elem_of_lookup_2 _ 0%nat). rewrite <- head_lookup. exact Hm.
  - exists m, l. exact (conj Hm (conj Hl (conj Hsub Hsubsub))).
Defined.

Lemma interpretation_lookup_witness :
  ∃ m l, head (sequence Examples.moon45) = Some m
    ∧ md_lord m = Some l
    ∧ ∀ a, a ∈ antar m →
        ad_interpretation a
        = interpFor (env := Examples.env) (Some (lordName l)) (Some (lordName (ad_lord a)))
        ∧ ∀ q, q ∈ pratyantar a →
            pd_interpretation q
            = interpFor (env := Examples.env) (Some (lordName (ad_lord a)))
                (Some (lordName (pd_lord q))).
Proof.
  assert (∃ m, head (sequence Examples.moon45) = Some m) as [m Hm]
    by (eexists; by vm_compute).
  destruct (proj2 (proj2 (interpretation_lookup (env := Examples.env))) 4%nat
              (Examples.payload "2000-01-01" 45 (Some 1%float)) Examples.moon45 m)
    as (l & Hl & Hint).
  - by vm_compute.
  - apply (list_elem_of_lookup_2 _ 0%nat). rewrite <- head_lookup. exact Hm.
  - exists m, l. exact (conj Hm (conj Hl Hint)).
Defined.


(** ** Further properties of the dasha engine *)

Section AllocatorIndexed.
Context {K : Type}.

Lemma linked_lookup c (segs : list (Segment K)) k seg :
  linked c segs → segs !! k = Some seg →
  startMs seg = match k with
                | O => c
                | S j => default c (endMs <$> segs !! j)
                end
  ∧ endMs seg = (startMs seg + durationMs seg)%float.
Proof.
  revert c k. induction segs as [|s0 segs IH]; intros c k; simpl; [done|].
  intros (Hs & He & Hl). destruct k as [|k]; simpl.
  - by intros [= <-].
  - intros Hk. destruct (IH _ _ Hl Hk) as [Hst Hen]. split; [|done].
    destruct k as [|k]; simpl; [done|].
    rewrite Hst. destruct (segs !! k) eqn:Hk'; [done|].
    apply lookup_ge_None in Hk'. apply lookup_lt_Some in Hk. lia.
Qed.

(** X2.  The allocator, for every parent interval, order and weights: one
    segment per lord of the order, in that order; the first segment starts
    at the parent's start and every other one where its predecessor ends;
    every segment ends at its start plus its duration (a binary64 sum); the
    duration is the proportional share [parentDur * (w / total)] for all
    but the last segment and [parentStart + parentDur - start] for the
    last, the single segment of a one-lord order included. *)
Theorem allocator_layout ps pd (order : list K) (w : K → float) :
  let segs := buildWeightedSegments ps pd order w in
  length segs = length order
  ∧ ∀ k seg, segs !! k = Some seg →
      order !! k = Some (lord seg)
      ∧ startMs seg = match k with
                      | O => ps
                      | S j => default ps (endMs <$> segs !! j)
                      end
      ∧ endMs seg = (startMs seg + durationMs seg)%float
      ∧ durationMs seg =
          if Z.of_nat k <? Z.of_nat (length order) - 1
          then (pd * (w (lord seg) / sumWeights order w))%float
          else (ps + pd - startMs seg)%float.
Proof.
  intros segs.
  destruct (buildWeightedSegments_layout ps pd order w) as (Hl & Hlk & Hd).
  fold segs in Hl, Hlk, Hd. split.
  - apply (f_equal length) in Hl. by rewrite length_fmap in Hl.
  - intros k seg Hk. destruct (linked_lookup _ _ _ _ Hlk Hk) as [Hs He].
    split_and!; [|done|done|by apply Hd].
    rewrite <- Hl, list_lookup_fmap, Hk. done.
Qed.
End AllocatorIndexed.

Section ScheduleMore.
Context {env : Env}.

(** X3.  In every returned tree, at both levels, the first child starts at
    its parent's start and every other child starts where its predecessor
    ends, to the millisecond. *)
Theorem siblings_contiguous fuel p o m :
  computeVimshottari fuel p = Returned o → m ∈ sequence o →
  (∃ b, chained (md_start m) (subInterval <$> antar m) b)
  ∧ ∀ a, a ∈ antar m →
      ∃ b, chained (ad_start a) (subSubInterval <$> pratyantar a) b.
Proof.
  intros Hret Hm. apply computeVimshottari_pushed in Hret.
  rewrite Forall_forall in Hret.
  destruct (pushed_children_chained m (Hret m Hm)) as [H1 H2].
  split; [done|]. by apply Forall_forall.
Qed.

(** *** The order of the Major lords *)

Lemma mdLoop_lords capEnd lords mdStartMs ms ex :
  mdLoop capEnd lords mdStartMs = Some (ms, ex) →
  match ex with
  | Fell _ => md_lord <$> ms = Some <$> lords
  | Broke => (md_lord <$> ms) `prefix_of` (Some <$> lords)
  end.
Proof.
  revert mdStartMs ms ex. induction lords as [|l lords IH]; intros s ms ex; simpl.
  { by intros [= <- <-]. }
  destruct (capEnd <? s + YEAR_MS * YEARS l)%float.
  - destruct (pushMD (Some l) s capEnd) as [m|] eqn:Hm; simpl; [|done].
    intros [= <- <-]. apply pushMD_inv in Hm as (Hl & _). simpl. rewrite Hl.
    by apply prefix_cons, prefix_nil.
  - destruct (pushMD (Some l) s _) as [m|] eqn:Hm; simpl; [|done].
    destruct (mdLoop capEnd lords _) as [[ms' ex']|] eqn:Hr; simpl; [|done].
    intros [= <- <-]. apply pushMD_inv in Hm as (Hl & _). apply IH in Hr.
    destruct ex'; rewrite !fmap_cons, Hl.
    + by apply prefix_cons.
    + by rewrite Hr.
Qed.

Lemma outerLoop_lords fuel capEnd cycleOrder mdStartMs ms :
  outerLoop fuel capEnd cycleOrder mdStartMs = Finished ms →
  (md_lord <$> ms) `prefix_of` (Some <$> visited fuel cycleOrder).
Proof.
  revert mdStartMs ms. induction fuel as [|fuel IH]; intros s ms; simpl; [done|].
  unfold visited. simpl. fold (visited fuel cycleOrder).
  rewrite !fmap_app.
  destruct (mdLoop capEnd (drop 1 cycleOrder) s) as [[ms1 [|s1]]|] eqn:H1; try done.
  { intros [= <-]. apply mdLoop_lords in H1.
    etrans; [exact H1|]. rewrite <- (assoc_L (++)). apply prefix_app_r. done. }
  apply mdLoop_lords in H1.
  destruct (mdLoop capEnd cycleOrder s1) as [[ms2 [|s2]]|] eqn:H2; try done.
  { intros [= <-]. apply mdLoop_lords in H2.
    rewrite fmap_app, H1, <- (assoc_L (++)). apply prefix_app.
    by apply prefix_app_r. }
  apply mdLoop_lords in H2.
  destruct (outerLoop fuel capEnd cycleOrder s2) as [ms3| |] eqn:H3; try done.
  intros [= <-]. apply IH in H3.
  rewrite !fmap_app, H1, H2, <- (assoc_L (++)). by do 2 apply prefix_app.
Qed.

(** X4.  The lords of the Major periods of every returned schedule, in
    order: the starting lord (the anchor period), then, turn after turn of
    the outer loop, the eight lords that follow it in the cycle and then
    all nine from the starting lord on.  The returned sequence is a prefix
    of that list; so the starting lord is left out at the beginning of
    every turn, the first turn (where the anchor stands for it) apart. *)
Theorem major_lords_order fuel p o :
  computeVimshottari fuel p = Returned o →
  ∃ l, startLord (meta o) = Some l
       ∧ (md_lord <$> sequence o)
           `prefix_of` (Some <$> l :: visited fuel (rotateFromStart (Some l))).
Proof.
  intros Hret. pose proof (computeVimshottari_pushed _ _ _ Hret) as Hp.
  apply computeVimshottari_returned
    in Hret as (_ & first & rest & Hseq & Hfirst & _ & Hsl & Hrest).
  rewrite Hseq in Hp |- *. apply Forall_cons in Hp as [(l & s & e & Hl) _].
  apply pushMD_inv in Hl as (Hl & _). apply pushMD_inv in Hfirst as (Hl' & _).
  exists l. split; [congruence|].
  rewrite !fmap_cons, Hl. apply prefix_cons.
  destruct (horizonOf p <=? anchorEndOf p)%float.
  - subst rest. apply prefix_nil.
  - replace (Some l) with (startLordOf (nakOf p)) by congruence.
    by eapply outerLoop_lords.
Qed.

(** *** No period of the loop runs backwards *)

Lemma mdLoop_forward capEnd lords mdStartMs ms ex a b :
  JS.toISO mdStartMs = Some a → JS.toISO capEnd = Some b → a ≤ b →
  mdLoop capEnd lords mdStartMs = Some (ms, ex) →
  match ex with
  | Fell s' =>
      Forall (fun m => md_start m < md_end m) ms
      ∧ ∃ a', JS.toISO s' = Some a' ∧ a' ≤ b
  | Broke =>
      ∃ ms' m, ms = ms' ++ [m]
        ∧ Forall (fun m => md_start m < md_end m) ms'
        ∧ md_start m ≤ md_end m
  end.
Proof.
  intros Ha Hb. revert mdStartMs ms ex a Ha.
  induction lords as [|l lords IH]; intros s ms ex a Ha Hab; simpl.
  { intros [= <- <-]. split; [done|]. by exists a. }
  destruct (capEnd <? s + YEAR_MS * YEARS l)%float eqn:Hclip.
  - destruct (pushMD (Some l) s capEnd) as [m|] eqn:Hm; simpl; [|done].
    intros [= <- <-]. apply pushMD_inv in Hm as (_ & Hs & He & _).
    exists [], m. split_and!; [done|done|].
    assert (md_start m = a) by congruence. assert (md_end m = b) by congruence. lia.
  - destruct (pushMD (Some l) s _) as [m|] eqn:Hm; simpl; [|done].
    destruct (mdLoop capEnd lords _) as [[ms' ex']|] eqn:Hr; simpl; [|done].
    intros [= <- <-]. apply pushMD_inv in Hm as (_ & Hs & He & _).
    destruct (period_float l) as (md & ed & Hd & Hed & Hbig).
    pose proof (add_progress _ _ _ _ _ _ Hd Hed Hbig Ha He) as Hlt.
    assert (md_start m = a) as Hsa by congruence.
    pose proof (toISO_le_of_not_ltb _ _ _ _ Hclip He Hb) as Hle.
    specialize (IH _ _ _ _ He Hle Hr). destruct ex'.
    + destruct IH as (ms'' & m' & -> & HF & Hm'). exists (m :: ms''), m'.
      split_and!; [done| |done]. constructor; [lia|done].
    + destruct IH as [HF Hex]. split; [|done]. constructor; [lia|done].
Qed.

Lemma outerLoop_forward fuel capEnd cycleOrder mdStartMs ms a b :
  JS.toISO mdStartMs = Some a → JS.toISO capEnd = Some b → a ≤ b →
  outerLoop fuel capEnd cycleOrder mdStartMs = Finished ms →
  ∃ ms' m, ms = ms' ++ [m]
    ∧ Forall (fun m => md_start m < md_end m) ms'
    ∧ md_start m ≤ md_end m.
Proof.
  intros Ha Hb. revert mdStartMs ms a Ha.
  induction fuel as [|fuel IH]; intros s ms a Ha Hab; simpl; [done|].
  destruct (mdLoop capEnd (drop 1 cycleOrder) s) as [[ms1 [|s1]]|] eqn:H1; try done.
  { intros [= <-]. exact (mdLoop_forward _ _ _ _ _ _ _ Ha Hb Hab H1). }
  destruct (mdLoop_forward _ _ _ _ _ _ _ Ha Hb Hab H1) as (HF1 & a1 & Ha1 & Hab1).
  destruct (mdLoop capEnd cycleOrder s1) as [[ms2 [|s2]]|] eqn:H2; try done.
  { intros [= <-].
    destruct (mdLoop_forward _ _ _ _ _ _ _ Ha1 Hb Hab1 H2) as (ms' & m & -> & HF2 & Hm).
    exists (ms1 ++ ms'), m. rewrite (assoc_L (++)). split_and!; [done| |done].
    by apply Forall_app. }
  destruct (mdLoop_forward _ _ _ _ _ _ _ Ha1 Hb Hab1 H2) as (HF2 & a2 & Ha2 & Hab2).
  destruct (outerLoop fuel capEnd cycleOrder s2) as [ms3| |] eqn:H3; try done.
  intros [= <-]. destruct (IH _ _ _ Ha2 Hab2 H3) as (ms' & m & -> & HF3 & Hm).
  exists (ms1 ++ ms2 ++ ms'), m. rewrite !(assoc_L (++)). split_and!; [done| |done].
  rewrite !Forall_app. done.
Qed.

(** X5.  In every returned schedule no Major period after the anchor runs
    backwards, and each of them but the last has a positive length of at
    least one millisecond: an empty Major period can only be the last one
    (the anchor apart). *)
Theorem major_periods_forward fuel p o i m :
  computeVimshottari fuel p = Returned o →
  sequence o !! i = Some m → (0 < i)%nat →
  md_start m ≤ md_end m
  ∧ ((i + 1 < length (sequence o))%nat → md_start m < md_end m).
Proof.
  intros Hret Hi Hpos.
  apply computeVimshottari_returned
    in Hret as (_ & first & rest & Hseq & Hfirst & _ & _ & Hrest).
  rewrite Hseq in Hi |- *. destruct i as [|i]; [lia|]. simpl in Hi.
  apply pushMD_inv in Hfirst as (_ & _ & He & _).
  destruct (horizonOf p <=? anchorEndOf p)%float; [by subst|].
  destruct (outerLoop_chain _ _ _ _ _ _ He Hrest) as (b & _ & Hb & _).
  pose proof (toISO_min_le _ _ _ _ He Hb) as Hle.
  destruct (outerLoop_forward _ _ _ _ _ _ _ He Hb Hle Hrest)
    as (ms' & last & -> & HF & Hlast).
  simpl. rewrite length_app. simpl.
  destruct (decide (i < length ms')%nat) as [Hlt|Hge].
  - rewrite lookup_app_l in Hi by done.
    rewrite Forall_lookup in HF. specialize (HF _ _ Hi). lia.
  - rewrite lookup_app_r in Hi by lia.
    destruct (i - length ms')%nat eqn:Hd; [|done].
    injection Hi as <-. split; [done|lia].
Qed.
End ScheduleMore.

(** ** What does not depend on the interpretation table *)

Lemma mapM_bare {A B} (f g : A → option B) (h : B → B) (l : list A) :
  (∀ x, h <$> f x = h <$> g x) →
  fmap h <$> mapM f l = fmap h <$> mapM g l.
Proof.
  intros Hfg. induction l as [|x l IH]; simpl; [done|].
  specialize (Hfg x).
  destruct (f x) as [y|], (g x) as [y'|]; simpl in *; try done.
  destruct (mapM f l) as [k|], (mapM g l) as [k'|]; simpl in *; try done.
  injection Hfg as Hy. injection IH as Hk.
  change (Some (h y :: (h <$> k)) = Some (h y' :: (h <$> k'))). by rewrite Hy, Hk.
Qed.

Section TableIndependence.
Context (t1 t2 : gmap string (gmap string string)) (tz : string → string → float).

Lemma bare_pratyantarOf adLord pd :
  bareSubSub <$> pratyantarOf (env := Build_Env t1 tz) adLord pd
  = bareSubSub <$> pratyantarOf (env := Build_Env t2 tz) adLord pd.
Proof.
  unfold pratyantarOf.
  by destruct (JS.toISO (startMs pd)), (JS.toISO (endMs pd)).
Qed.

Lemma bare_antarOf mdLord seg :
  bareSub <$> antarOf (env := Build_Env t1 tz) mdLord seg
  = bareSub <$> antarOf (env := Build_Env t2 tz) mdLord seg.
Proof.
  unfold antarOf.
  pose proof (mapM_bare _ _ bareSubSub
                (buildWeightedSegments (startMs seg) (durationMs seg)
                   (rotateFromStart (Some (lord seg))) YEARS)
                (bare_pratyantarOf (lord seg))) as HM.
  destruct (mapM (pratyantarOf (env := Build_Env t1 tz) _) _) as [k|],
           (mapM (pratyantarOf (env := Build_Env t2 tz) _) _) as [k'|];
    try done.
  apply (inj Some) in HM. simpl.
  destruct (JS.toISO (startMs seg)), (JS.toISO (endMs seg)); simpl; try done.
  unfold bareSub. simpl. by rewrite HM.
Qed.

Lemma bare_pushMD mdLord mdStart mdEnd :
  bareMajor <$> pushMD (env := Build_Env t1 tz) mdLord mdStart mdEnd
  = bareMajor <$> pushMD (env := Build_Env t2 tz) mdLord mdStart mdEnd.
Proof.
  unfold pushMD.
  pose proof (mapM_bare _ _ bareSub
                (buildWeightedSegments mdStart (mdEnd - mdStart)%float
                   (rotateFromStart mdLord) YEARS)
                (bare_antarOf mdLord)) as HM.
  destruct (mapM (antarOf (env := Build_Env t1 tz) _) _) as [k|],
           (mapM (antarOf (env := Build_Env t2 tz) _) _) as [k'|];
    try done.
  apply (inj Some) in HM. simpl.
  destruct (JS.toISO mdStart), (JS.toISO mdEnd); simpl; try done.
  unfold bareMajor. simpl. by rewrite HM.
Qed.

Lemma bare_mdLoop capEnd lords mdStartMs :
  match mdLoop (env := Build_Env t1 tz) capEnd lords mdStartMs,
        mdLoop (env := Build_Env t2 tz) capEnd lords mdStartMs with
  | Some (ms, ex), Some (ms', ex') => bareMajor <$> ms = bareMajor <$> ms' ∧ ex = ex'
  | None, None => True
  | _, _ => False
  end.
Proof.
  revert mdStartMs. induction lords as [|l lords IH]; intros s; simpl; [done|].
  destruct (capEnd <? s + YEAR_MS * YEARS l)%float.
  - pose proof (bare_pushMD (Some l) s capEnd) as HP.
    destruct (pushMD (env := Build_Env t1 tz) _ _ _) as [m|],
             (pushMD (env := Build_Env t2 tz) _ _ _) as [m'|]; try done.
    apply (inj Some) in HP. simpl. by rewrite HP.
  - pose proof (bare_pushMD (Some l) s (s + YEAR_MS * YEARS l)%float) as HP.
    destruct (pushMD (env := Build_Env t1 tz) _ _ _) as [m|],
             (pushMD (env := Build_Env t2 tz) _ _ _) as [m'|]; try done.
    apply (inj Some) in HP. specialize (IH (s + YEAR_MS * YEARS l)%float).
    destruct (mdLoop (env := Build_Env t1 tz) _ _ _) as [[ms ex]|],
             (mdLoop (env := Build_Env t2 tz) _ _ _) as [[ms' ex']|]; try done.
    destruct IH as [IH ->]. simpl. split; [|done].
    change (bareMajor m :: (bareMajor <$> ms) = bareMajor m' :: (bareMajor <$> ms')).
    by rewrite HP, IH.
Qed.

Lemma bare_outerLoop fuel capEnd cycleOrder mdStartMs :
  match outerLoop (env := Build_Env t1 tz) fuel capEnd cycleOrder mdStartMs,
        outerLoop (env := Build_Env t2 tz) fuel capEnd cycleOrder mdStartMs with
  | Finished ms, Finished ms' => bareMajor <$> ms = bareMajor <$> ms'
  | LoopThrew, LoopThrew | LoopOutOfFuel, LoopOutOfFuel => True
  | _, _ => False
  end.
Proof.
  revert mdStartMs. induction fuel as [|fuel IH]; intros s; simpl; [done|].
  pose proof (bare_mdLoop capEnd (drop 1 cycleOrder) s) as H1.
  destruct (mdLoop (env := Build_Env t1 tz) _ _ _) as [[ms1 ex1]|],
           (mdLoop (env := Build_Env t2 tz) _ _ _) as [[ms1' ex1']|]; try done.
  destruct H1 as [H1 <-]. destruct ex1 as [|s1]; [done|].
  pose proof (bare_mdLoop capEnd cycleOrder s1) as H2.
  destruct (mdLoop (env := Build_Env t1 tz) _ _ _) as [[ms2 ex2]|],
           (mdLoop (env := Build_Env t2 tz) _ _ _) as [[ms2' ex2']|]; try done.
  destruct H2 as [H2 <-]. destruct ex2 as [|s2].
  { by rewrite !fmap_app, H1, H2. }
  specialize (IH s2).
  destruct (outerLoop (env := Build_Env t1 tz) _ _ _ _),
           (outerLoop (env := Build_Env t2 tz) _ _ _ _); try done.
  by rewrite !fmap_app, H1, H2, IH.
Qed.

(** X6.  The interpretation table has no influence on the schedule: with
    any two tables (and the same time-zone resolution) the function fails
    on the same inputs, in the same way, and returns trees that differ at
    most in their interpretation texts. *)
Theorem schedule_independent_of_texts fuel p :
  bareOutcome (computeVimshottari (env := Build_Env t1 tz) fuel p)
  = bareOutcome (computeVimshottari (env := Build_Env t2 tz) fuel p).
Proof.
  unfold computeVimshottari.
  destruct (negb _); [done|]. cbv zeta.
  change (birthMsOf (env := Build_Env t1 tz) p) with (birthMsOf (env := Build_Env t2 tz) p).
  set (birthMs := birthMsOf p).
  set (sl := startLordOf _). set (cap := capEndOf _ _). set (e0 := JS.min _ _).
  pose proof (bare_pushMD sl birthMs e0) as HP.
  destruct (pushMD (env := Build_Env t1 tz) _ _ _) as [f1|],
           (pushMD (env := Build_Env t2 tz) _ _ _) as [f2|]; try done.
  apply (inj Some) in HP.
  destruct (cap <=? e0)%float.
  { destruct (JS.toISO birthMs); simpl; [|done]. by rewrite HP. }
  pose proof (bare_outerLoop fuel cap (rotateFromStart sl) e0) as HL.
  destruct (outerLoop (env := Build_Env t1 tz) _ _ _ _) as [l| |],
           (outerLoop (env := Build_Env t2 tz) _ _ _ _) as [l0| |]; try done.
  destruct (JS.toISO birthMs) as [utc|]; simpl; [|done].
  change (Returned {| meta := {| birthUTC := utc; startLord := sl |};
                      sequence := bareMajor f1 :: (bareMajor <$> l) |}
          = Returned {| meta := {| birthUTC := utc; startLord := sl |};
                        sequence := bareMajor f2 :: (bareMajor <$> l0) |}).
  by rewrite HP, HL.
Qed.
End TableIndependence.

(** ** Rounding to nearest: what every binary64 operation does

    The operations of [SpecFloat] are analysed once, in units of 2^-1074:
    the result of an operation is a double nearest to the exact result
    ([Nearest]), from which exactness on representable results and
    monotonicity follow. *)

Lemma pow2_pos k : 0 ≤ k → 0 < 2 ^ k.
Proof. intros. apply Z.pow_pos_nonneg; lia. Qed.

Lemma pow2_split a b : 0 ≤ a → a ≤ b → 2 ^ b = 2 ^ (b - a) * 2 ^ a.
Proof. intros. rewrite <- Z.pow_add_r by lia. f_equal. lia. Qed.

Lemma Zdigits2_log2 m : 0 < m → Zdigits2 m = Z.log2 m + 1.
Proof.
  destruct m as [|p|p]; try lia. intros _. simpl Zdigits2.
  pose proof (digits2_bounds p) as [Hlo Hhi].
  assert (Z.log2 (Zpos p) = Zpos (digits2_pos p) - 1); [|lia].
  apply Z.log2_unique; [lia|].
  replace (Z.succ (Zpos (digits2_pos p) - 1)) with (Zpos (digits2_pos p)) by lia.
  done.
Qed.

Lemma Zdigits2_nonneg m : 0 ≤ m → 0 ≤ Zdigits2 m.
Proof. destruct m; simpl; lia. Qed.

Lemma Zdigits2_shift m n :
  0 ≤ m → 0 ≤ n → Zdigits2 (m / 2 ^ n) = Z.max (Zdigits2 m - n) 0.
Proof.
  intros Hm Hn. destruct (Z.eq_dec m 0) as [->|Hne].
  { rewrite Z.div_0_l by (pose proof (pow2_pos n); lia). simpl. lia. }
  pose proof (pow2_pos n Hn) as Hp.
  rewrite (Zdigits2_log2 m) by lia.
  destruct (Z.lt_ge_cases m (2 ^ n)) as [Hlt|Hge].
  - rewrite Z.div_small by lia. simpl.
    assert (Z.log2 m < n) by (apply Z.log2_lt_pow2; lia). lia.
  - assert (0 < m / 2 ^ n) by (apply Z.div_str_pos; lia).
    rewrite Zdigits2_log2 by done.
    rewrite <- Z.shiftr_div_pow2 by done. rewrite Z.log2_shiftr by lia.
    assert (n ≤ Z.log2 m) by (apply Z.log2_le_pow2; lia). lia.
Qed.

Lemma Zdigits2_mono a b : 0 ≤ a → a ≤ b → Zdigits2 a ≤ Zdigits2 b.
Proof.
  intros Ha Hab. destruct (Z.eq_dec a 0) as [->|Hne].
  { simpl. by apply Zdigits2_nonneg; lia. }
  rewrite !Zdigits2_log2 by lia. pose proof (Z.log2_le_mono a b Hab). lia.
Qed.

Lemma Zdigits2_succ m : 0 ≤ m → Zdigits2 (m + 1) ≤ Zdigits2 m + 1
  ∧ (Zdigits2 (m + 1) = Zdigits2 m + 1 → m + 1 = 2 ^ Zdigits2 m).
Proof.
  intros Hm. destruct (Z.eq_dec m 0) as [->|Hne]; [by simpl|].
  rewrite !Zdigits2_log2 by lia.
  pose proof (Z.log2_spec m ltac:(lia)) as [Hlo Hhi].
  pose proof (Z.log2_spec (m + 1) ltac:(lia)) as [Hlo' Hhi'].
  pose proof (Z.log2_nonneg m). pose proof (Z.log2_nonneg (m + 1)).
  replace (Z.succ (Z.log2 m)) with (Z.log2 m + 1) in * by lia.
  replace (Z.succ (Z.log2 (m + 1))) with (Z.log2 (m + 1) + 1) in * by lia.
  assert (Z.log2 (m + 1) ≤ Z.log2 m + 1) as Hle.
  { destruct (Z.le_gt_cases (Z.log2 (m + 1)) (Z.log2 m + 1)) as [|Hgt]; [done|].
    assert (2 ^ (Z.log2 m + 2) ≤ 2 ^ Z.log2 (m + 1)) by (apply Z.pow_le_mono_r; lia).
    replace (Z.log2 m + 2) with (Z.log2 m + 1 + 1) in * by lia.
    rewrite (Z.pow_add_r _ _ 1) in * by lia. lia. }
  split; [lia|]. intros Heq.
  assert (Z.log2 (m + 1) = Z.log2 m + 1) as E by lia. rewrite E in Hlo'. lia.
Qed.

(** *** Shifting with a sticky location *)

Lemma located_of_loc N D : located N D (shr_record_of_loc (N / D) (locOf N D)).
Proof. split; by destruct (locOf N D) as [|[]]. Qed.

Lemma located_shr_1 N D mrs :
  0 ≤ N → 0 < D → located N D mrs → located N (2 * D) (shr_1 mrs).
Proof.
  intros HN HD [Hm Hl].
  assert (0 ≤ N / D) as Hq by (apply Z.div_pos; lia).
  pose proof (Z.mod_pos_bound N D HD) as Hr.
  pose proof (Z.div_mod N D ltac:(lia)) as HND.
  assert (N / (2 * D) = N / D / 2) as Hdiv.
  { rewrite (Z.mul_comm 2 D), Z.div_div by lia. done. }
  assert (N mod (2 * D) = N mod D + D * (N / D mod 2)) as Hmod.
  { rewrite (Z.mul_comm 2 D). apply Z.rem_mul_r; lia. }
  pose proof (Z.mod_pos_bound (N / D) 2 ltac:(lia)) as Hbit.
  pose proof (Z.div_mod (N / D) 2 ltac:(lia)) as Hhalf.
  unfold located, locOf in *. rewrite Hdiv, Hmod.
  destruct mrs as [m r s]. simpl in Hm, Hl. subst m.
  assert ((r || s) = negb (N mod D =? 0)) as Hrs.
  { destruct (N mod D =? 0); destruct r, s; simpl in *; congruence. }
  unfold shr_1. rewrite Hrs.
  destruct (N / D) as [|[p|p|]|p] eqn:E; try lia; simpl shr_m; simpl loc_of_shr_record.
  - (* zero *)
    change (0 mod 2) with 0. change (0 / 2) with 0.
    split; [done|]. rewrite Z.mul_0_r, Z.add_0_r.
    destruct (Z.eqb_spec (N mod D) 0) as [E0|E0]; simpl; [done|].
    assert (2 * (N mod D) < 2 * D) as Hlt by lia.
    apply Z.compare_lt_iff in Hlt. by rewrite Hlt.
  - (* odd *)
    assert (Zpos p~1 mod 2 = 1) as -> by (rewrite Pos2Z.inj_xI, Z.add_comm, Z.mul_comm, Z.mod_add; done).
    assert (Zpos p~1 / 2 = Zpos p) as -> by (rewrite Pos2Z.inj_xI, Z.add_comm, Z.mul_comm, Z.div_add; done).
    split; [done|].
    destruct (Z.eqb_spec (N mod D) 0) as [E0|E0]; simpl.
    + rewrite E0. destruct (Z.eqb_spec (0 + D * 1) 0); [lia|].
      by replace (2 * (0 + D * 1)) with (2 * D) by lia; rewrite Z.compare_refl.
    + destruct (Z.eqb_spec (N mod D + D * 1) 0); [lia|].
      assert (2 * (N mod D + D * 1) > 2 * D) as Hgt by lia.
      apply Z.gt_lt, Z.compare_gt_iff in Hgt. by rewrite Hgt.
  - (* even *)
    assert (Zpos p~0 mod 2 = 0) as -> by (rewrite Pos2Z.inj_xO, Z.mul_comm, Z.mod_mul; done).
    assert (Zpos p~0 / 2 = Zpos p) as -> by (rewrite Pos2Z.inj_xO, Z.mul_comm, Z.div_mul; done).
    split; [done|]. rewrite Z.mul_0_r, Z.add_0_r.
    destruct (Z.eqb_spec (N mod D) 0) as [E0|E0]; simpl; [done|].
    assert (2 * (N mod D) < 2 * D) as Hlt by lia.
    apply Z.compare_lt_iff in Hlt. by rewrite Hlt.
  - (* one *)
    change (1 mod 2) with 1. change (1 / 2) with 0.
    split; [done|].
    destruct (Z.eqb_spec (N mod D) 0) as [E0|E0]; simpl.
    + rewrite E0. destruct (Z.eqb_spec (0 + D * 1) 0); [lia|].
      by replace (2 * (0 + D * 1)) with (2 * D) by lia; rewrite Z.compare_refl.
    + destruct (Z.eqb_spec (N mod D + D * 1) 0); [lia|].
      assert (2 * (N mod D + D * 1) > 2 * D) as Hgt by lia.
      apply Z.gt_lt, Z.compare_gt_iff in Hgt. by rewrite Hgt.
Qed.

Lemma located_iter N D p mrs :
  0 ≤ N → 0 < D → located N D mrs →
  located N (D * 2 ^ Zpos p) (SpecFloat.iter_pos shr_1 p mrs).
Proof.
  intros HN HD Hl. rewrite iter_pos_iter.
  pattern p, (Pos.iter shr_1 mrs p). apply Pos.iter_ind.
  - rewrite Z.pow_1_r, Z.mul_comm. by apply located_shr_1.
  - intros q mrs' IH.
    rewrite Pos2Z.inj_succ, Z.pow_succ_r by lia.
    replace (D * (2 * 2 ^ Zpos q)) with (2 * (D * 2 ^ Zpos q)) by lia.
    apply located_shr_1; [done| |done].
    pose proof (pow2_pos (Zpos q)). nia.
Qed.

Lemma located_shr N D mrs e n :
  0 ≤ N → 0 < D → 0 ≤ n → located N D mrs →
  located N (D * 2 ^ n) (shr mrs e n).1 ∧ (shr mrs e n).2 = e + n.
Proof.
  intros HN HD Hn Hl. unfold shr. destruct n as [|p|p]; try lia; simpl.
  - by rewrite Z.mul_1_r, Z.add_0_r.
  - split; [|done]. by apply located_iter.
Qed.

Lemma round_nearest_even_located N D mrs :
  0 ≤ N → 0 < D → located N D mrs →
  let m2 := round_nearest_even (shr_m mrs) (loc_of_shr_record mrs) in
  (m2 = N / D ∨ m2 = N / D + 1) ∧ 2 * Z.abs (m2 * D - N) ≤ D.
Proof.
  intros HN HD [-> ->]. unfold locOf, round_nearest_even.
  pose proof (Z.mod_pos_bound N D HD) as Hr.
  pose proof (Z.div_mod N D ltac:(lia)) as HND.
  destruct (Z.eqb_spec (N mod D) 0) as [E0|E0]; simpl.
  { split; [by left|]. nia. }
  destruct (Z.compare_spec (2 * (N mod D)) D) as [Heq|Hlt|Hgt].
  - destruct (Z.even (N / D)); (split; [by auto|]); nia.
  - split; [by left|]. nia.
  - split; [by right|]. nia.
Qed.

(** *** The rounding step *)

Lemma fexp_eq a : fexp prec emax a = Z.max (a - 53) (-1074).
Proof. reflexivity. Qed.

Lemma binary_round_aux_nearest sx mx ex N D :
  0 < D → 0 ≤ N → mx = N / D → ex ≤ fexp prec emax (Zdigits2 mx + ex) →
  let e1 := fexp prec emax (Zdigits2 mx + ex) in
  let D1 := D * 2 ^ (e1 - ex) in
  match binary_round_aux prec emax sx mx ex (locOf N D) with
  | S754_zero s => s = sx ∧ 2 * N ≤ D1
  | S754_finite s m e =>
      s = sx ∧ bounded prec emax m e = true
      ∧ ∃ m2, ulps m e = m2 * 2 ^ (e1 + 1074) ∧ 2 * Z.abs (m2 * D1 - N) ≤ D1
  | S754_infinity s =>
      s = sx
      ∧ ∃ m2, 2 ^ 2098 ≤ m2 * 2 ^ (e1 + 1074) ∧ 2 * Z.abs (m2 * D1 - N) ≤ D1
  | S754_nan => False
  end.
Proof.
  intros HD HN Hmx Hn1 e1 D1.
  assert (0 ≤ mx) as Hmx0 by (subst mx; apply Z.div_pos; lia).
  pose proof (Zdigits2_nonneg mx Hmx0) as Hd.
  assert (-1074 ≤ e1) as He1 by (unfold e1; rewrite fexp_eq; lia).
  assert (0 < 2 ^ (e1 - ex)) as Hp1 by (apply pow2_pos; unfold e1; lia).
  assert (0 < D1) as HD1 by (unfold D1; nia).
  unfold binary_round_aux, shr_fexp. fold e1.
  destruct (located_shr N D (shr_record_of_loc mx (locOf N D)) ex (e1 - ex))
    as [Hloc1 He]; [done|done|unfold e1; lia|subst mx; apply located_of_loc|].
  destruct (shr (shr_record_of_loc mx (locOf N D)) ex (e1 - ex)) as [mrs1 e1'].
  simpl in Hloc1, He. replace e1' with e1 by lia. fold D1 in Hloc1.
  destruct (round_nearest_even_located N D1 mrs1 HN HD1 Hloc1) as [Hm2 Hnear].
  set (m2 := round_nearest_even (shr_m mrs1) (loc_of_shr_record mrs1)) in *.
  set (m1 := N / D1) in *.
  assert (0 ≤ m1) as Hm1 by (apply Z.div_pos; lia).
  assert (m1 = mx / 2 ^ (e1 - ex)) as Hm1x.
  { unfold m1, D1. subst mx. rewrite Z.div_div by lia. done. }
  assert (Zdigits2 m1 = Z.max (Zdigits2 mx - (e1 - ex)) 0) as Hd1.
  { rewrite Hm1x. apply Zdigits2_shift; [done|unfold e1; lia]. }
  assert (fexp prec emax (Zdigits2 m1 + e1) = e1) as HP.
  { rewrite Hd1. unfold e1 in *. rewrite !fexp_eq in *. lia. }
  pose proof (Zdigits2_succ m1 Hm1) as [Hsucc Hpow].
  assert (0 ≤ m2) as Hm20 by lia.
  assert (Zdigits2 m1 ≤ Zdigits2 m2 ≤ Zdigits2 m1 + 1) as Hd2.
  { destruct Hm2 as [-> | ->]; [lia|]. split; [|done]. apply Zdigits2_mono; lia. }
  pose proof (Zdigits2_nonneg m1 Hm1) as Hd1'.
  set (n2 := fexp prec emax (Zdigits2 m2 + e1) - e1).
  assert (n2 = 0 ∨ n2 = 1 ∧ m2 = 2 ^ Zdigits2 m1 ∧ 1 ≤ Zdigits2 m1
            ∧ Zdigits2 m2 = Zdigits2 m1 + 1) as Hn2.
  { unfold n2. rewrite fexp_eq in *.
    destruct (Z.eq_dec (Zdigits2 m2) (Zdigits2 m1)) as [E|E]; [left; lia|].
    assert (Zdigits2 m2 = Zdigits2 m1 + 1) as E' by lia.
    destruct Hm2 as [Hm2|Hm2]; [rewrite Hm2 in E; lia|].
    rewrite Hm2 in E'. specialize (Hpow E').
    destruct (Z.eq_dec (Z.max (Zdigits2 m2 + e1 - 53) (-1074) - e1) 0) as [|Hne];
      [by left|right].
    split_and!; [lia|lia|lia|by rewrite Hm2]. }
  destruct Hn2 as [Hn2|(Hn2 & Hpow2 & Hk & Hd2')].
  - (* the rounded mantissa fits *)
    rewrite Hn2. simpl shr. simpl shr_m.
    destruct m2 as [|p|p] eqn:Em2; [| |lia].
    + split; [done|]. lia.
    + destruct (Z.leb_spec e1 (emax - prec)) as [Hle|Hgt].
      * split; [done|]. split.
        -- unfold bounded, canonical_mantissa. apply andb_true_iff. split.
           ++ apply Z.eqb_eq. unfold n2 in Hn2. simpl Zdigits2 in Hn2. lia.
           ++ by apply Z.leb_le.
        -- exists (Zpos p). split; [done|lia].
      * split; [done|]. exists (Zpos p). split; [|lia].
        unfold emax, prec in Hgt. unfold n2 in Hn2. rewrite fexp_eq in Hn2.
        simpl Zdigits2 in Hn2.
        pose proof (digits2_bounds p) as [Hlo _].
        assert (Zpos (digits2_pos p) = 53) as E53 by lia. rewrite E53 in Hlo.
        change (2 ^ (53 - 1)) with (2 ^ 52) in Hlo.
        assert (2 ^ 2046 ≤ 2 ^ (e1 + 1074)) by (apply Z.pow_le_mono_r; lia).
        change (2 ^ 2098) with (2 ^ 52 * 2 ^ 2046).
        apply Z.mul_le_mono_nonneg; lia.
  - (* the rounded mantissa is the next power of two *)
    rewrite Hn2. unfold shr. unfold SpecFloat.iter_pos.
    assert (located m2 (2 * 1) (shr_1 (shr_record_of_loc m2 loc_Exact))) as [Hm3 _].
    { apply located_shr_1; [lia|lia|]. split; simpl; [by rewrite Z.div_1_r|].
      unfold locOf. by rewrite Z.mod_1_r. }
    change (2 * 1) with 2 in Hm3. rewrite Hm3.
    assert (m2 = 2 * 2 ^ (Zdigits2 m1 - 1)) as Hevn.
    { rewrite Hpow2. rewrite <- Z.pow_succ_r by lia. f_equal. lia. }
    assert (0 < 2 ^ (Zdigits2 m1 - 1)) as Hpp by (apply pow2_pos; lia).
    assert (m2 / 2 = 2 ^ (Zdigits2 m1 - 1)) as Hhalf.
    { rewrite Hevn, Z.mul_comm, Z.div_mul by lia. done. }
    rewrite Hhalf.
    destruct (2 ^ (Zdigits2 m1 - 1)) as [|p|p] eqn:Ep; try lia.
    destruct (Z.leb_spec (e1 + 1) (emax - prec)) as [Hle|Hgt].
    + split; [done|]. split.
      * unfold bounded, canonical_mantissa. apply andb_true_iff. split.
        -- apply Z.eqb_eq.
           assert (Zdigits2 (Zpos p) = Zdigits2 m2 - 1) as Hdp.
           { rewrite <- Hhalf. change 2 with (2 ^ 1) at 1.
             rewrite Zdigits2_shift by lia. lia. }
           simpl Zdigits2 in Hdp. rewrite Hdp.
           replace (Zdigits2 m2 - 1 + (e1 + 1)) with (Zdigits2 m2 + e1) by lia.
           unfold n2 in Hn2. lia.
        -- by apply Z.leb_le.
      * exists m2. split; [|lia]. unfold ulps.
        replace (e1 + 1 + 1074) with (Z.succ (e1 + 1074)) by lia.
        rewrite Z.pow_succ_r by lia. lia.
    + split; [done|]. exists m2. split; [|lia].
      unfold emax, prec in Hgt. unfold n2 in Hn2. rewrite fexp_eq in Hn2.
      assert (Zdigits2 m1 = 53) as E53 by lia. rewrite Hpow2, E53.
      assert (2 ^ 2045 ≤ 2 ^ (e1 + 1074)) by (apply Z.pow_le_mono_r; lia).
      change (2 ^ 2098) with (2 ^ 53 * 2 ^ 2045).
      apply Z.mul_le_mono_nonneg; lia.
Qed.

(** *** The grid of the doubles *)

Lemma mod_pow2_le a i j : 0 ≤ i → i ≤ j → a mod 2 ^ j = 0 → a mod 2 ^ i = 0.
Proof.
  intros Hi Hij Hj. pose proof (pow2_pos i Hi). pose proof (pow2_pos j ltac:(lia)).
  apply Z.mod_divide; [lia|]. apply Z.mod_divide in Hj; [|lia].
  etrans; [|exact Hj]. exists (2 ^ (j - i)). by apply pow2_split.
Qed.

Lemma qexp_nonneg V : 0 ≤ qexp V.
Proof. unfold qexp. lia. Qed.

Lemma qexp_mono a b : a ≤ b → qexp a ≤ qexp b.
Proof. intros H. unfold qexp. pose proof (Z.log2_le_mono a b H). lia. Qed.

Lemma qexp_small V : V < 2 ^ 53 → qexp V = 0.
Proof.
  intros H. unfold qexp. destruct (Z.le_gt_cases V 0) as [H0|H0].
  - rewrite Z.log2_nonpos by done. lia.
  - assert (Z.log2 V < 53) by (apply Z.log2_lt_pow2; lia). lia.
Qed.

Lemma log2_scaled m k F :
  0 < m → 0 ≤ k → m * 2 ^ k ≤ F < (m + 1) * 2 ^ k → Z.log2 F = Z.log2 m + k.
Proof.
  intros Hm Hk [Hlo Hhi]. pose proof (pow2_pos k Hk) as Hp.
  pose proof (Z.log2_spec m Hm) as [Hl Hh]. pose proof (Z.log2_nonneg m).
  apply Z.log2_unique; [lia|].
  replace (Z.succ (Z.log2 m + k)) with (Z.succ (Z.log2 m) + k) by lia.
  rewrite !Z.pow_add_r by lia. split; nia.
Qed.

Lemma ulps_pos m e : -1074 ≤ e → 0 < ulps m e.
Proof. intros. unfold ulps. pose proof (pow2_pos (e + 1074)). nia. Qed.

Lemma bounded_qexp m e :
  bounded prec emax m e = true →
  -1074 ≤ e ∧ qexp (ulps m e) = e + 1074 ∧ representable (ulps m e).
Proof.
  intros Hb. pose proof (bounded_range m e Hb) as (Hm & He & _).
  unfold bounded, canonical_mantissa in Hb.
  apply andb_true_iff in Hb as [Hc Hle]. apply Z.eqb_eq in Hc. apply Z.leb_le in Hle.
  rewrite fexp_eq in Hc. unfold emax, prec in Hle.
  assert (Z.log2 (ulps m e) = Z.log2 (Zpos m) + (e + 1074)) as Hlog.
  { apply log2_scaled; [done|lia|]. unfold ulps.
    pose proof (pow2_pos (e + 1074)). nia. }
  pose proof (Zdigits2_log2 (Zpos m) ltac:(done)) as Hd. simpl Zdigits2 in Hd.
  assert (qexp (ulps m e) = e + 1074) as Hq by (unfold qexp; lia).
  split; [done|]. split; [done|].
  pose proof (ulps_pos m e He). unfold representable.
  rewrite Z.abs_eq by lia. rewrite Hq. split.
  - unfold ulps. apply Z.mod_mul. pose proof (pow2_pos (e + 1074)). lia.
  - unfold ulps.
    assert (2 ^ (e + 1074) ≤ 2 ^ 2045) by (apply Z.pow_le_mono_r; lia).
    change (2 ^ 2098) with (2 ^ 53 * 2 ^ 2045).
    pose proof (pow2_pos (e + 1074)). nia.
Qed.

Lemma stage1_canonical mx ex :
  0 ≤ mx → ex ≤ fexp prec emax (Zdigits2 mx + ex) →
  let e1 := fexp prec emax (Zdigits2 mx + ex) in
  fexp prec emax (Zdigits2 (mx / 2 ^ (e1 - ex)) + e1) = e1.
Proof.
  intros Hmx Hn1 e1. pose proof (Zdigits2_nonneg mx Hmx).
  rewrite Zdigits2_shift by (unfold e1; lia).
  unfold e1 in *. rewrite !fexp_eq in *. lia.
Qed.

Lemma aux_qexp mx ex N D :
  0 < D → 0 ≤ N → mx = N / D → ex ≤ fexp prec emax (Zdigits2 mx + ex) →
  let e1 := fexp prec emax (Zdigits2 mx + ex) in
  let D1 := D * 2 ^ (e1 - ex) in
  qexp (N * 2 ^ (e1 + 1074) / D1) = e1 + 1074.
Proof.
  intros HD HN Hmx Hn1 e1 D1.
  assert (0 ≤ mx) as Hmx0 by (subst mx; apply Z.div_pos; lia).
  assert (-1074 ≤ e1) as He1 by (unfold e1; rewrite fexp_eq; lia).
  assert (0 < 2 ^ (e1 - ex)) as Hp1 by (apply pow2_pos; unfold e1; lia).
  assert (0 < D1) as HD1 by (unfold D1; nia).
  pose proof (stage1_canonical mx ex Hmx0 Hn1) as HP. cbv zeta in HP. fold e1 in HP.
  assert (mx / 2 ^ (e1 - ex) = N / D1) as Hm1.
  { unfold D1. subst mx. rewrite Z.div_div by lia. done. }
  rewrite Hm1 in HP. set (m1 := N / D1) in *.
  assert (0 ≤ m1) as Hm10 by (apply Z.div_pos; lia).
  pose proof (pow2_pos (e1 + 1074) ltac:(lia)) as Hq. set (q := 2 ^ (e1 + 1074)) in *.
  pose proof (Z.div_mod N D1 ltac:(lia)) as HND. fold m1 in HND.
  pose proof (Z.mod_pos_bound N D1 HD1) as Hr.
  assert (m1 * q ≤ N * q / D1 < (m1 + 1) * q) as [Hlo Hhi].
  { split.
    - apply Z.div_le_lower_bound; [done|]. nia.
    - apply Z.div_lt_upper_bound; [done|]. nia. }
  destruct (Z.eq_dec m1 0) as [E0|E0].
  - rewrite E0 in *. simpl Zdigits2 in HP. rewrite fexp_eq in HP.
    assert (e1 = -1074) as E1 by lia.
    assert (q = 1) as Eq1 by (unfold q; rewrite E1; done).
    rewrite qexp_small by (rewrite Eq1 in *; lia). lia.
  - rewrite (Zdigits2_log2 m1) in HP by lia. rewrite fexp_eq in HP.
    unfold qexp. rewrite (log2_scaled m1 (e1 + 1074)) by (fold q; lia). lia.
Qed.

Lemma representable_0 : representable 0.
Proof. split; [done|]. simpl. by apply pow2_pos. Qed.

(** The result of the rounding step, in the terms of [Nearest]: a finite
    result is a double nearest to the exact value; an infinite one is given
    when the nearest point of the grid is beyond the largest double. *)
Lemma binary_round_aux_Nearest sx mx ex N D :
  0 < D → 0 ≤ N → mx = N / D → ex ≤ fexp prec emax (Zdigits2 mx + ex) →
  let e1 := fexp prec emax (Zdigits2 mx + ex) in
  let D1 := D * 2 ^ (e1 - ex) in
  let Nq := N * 2 ^ (e1 + 1074) in
  0 < D1 ∧
  match binary_round_aux prec emax sx mx ex (locOf N D) with
  | S754_zero s => s = sx ∧ Nearest Nq D1 0
  | S754_finite s m e => s = sx ∧ bounded prec emax m e = true ∧ Nearest Nq D1 (ulps m e)
  | S754_infinity s => s = sx ∧ ∃ r, 2 ^ 2098 ≤ r ∧ Nearest Nq D1 r
  | S754_nan => False
  end.
Proof.
  intros HD HN Hmx Hn1 e1 D1 Nq.
  assert (-1074 ≤ e1) as He1 by (unfold e1; rewrite fexp_eq; lia).
  assert (0 < 2 ^ (e1 - ex)) as Hp1 by (apply pow2_pos; unfold e1; lia).
  assert (0 < D1) as HD1 by (unfold D1; nia).
  split; [done|].
  pose proof (aux_qexp mx ex N D HD HN Hmx Hn1) as Hq. cbv zeta in Hq.
  fold e1 D1 Nq in Hq.
  pose proof (binary_round_aux_nearest sx mx ex N D HD HN Hmx Hn1) as Haux.
  cbv zeta in Haux. fold e1 D1 in Haux.
  pose proof (pow2_pos (e1 + 1074) ltac:(lia)) as Hqp.
  assert (0 ≤ Nq) as HNq by (unfold Nq; nia).
  assert (∀ m2, 2 * Z.abs (m2 * D1 - N) ≤ D1 → Nearest Nq D1 (m2 * 2 ^ (e1 + 1074)))
    as Hnear.
  { intros m2 Hm2. unfold Nearest. rewrite (Z.abs_eq Nq) by done. rewrite Hq.
    split; [apply Z.mod_mul; lia|]. unfold Nq.
    replace (m2 * 2 ^ (e1 + 1074) * D1 - N * 2 ^ (e1 + 1074))
      with ((m2 * D1 - N) * 2 ^ (e1 + 1074)) by lia.
    rewrite Z.abs_mul, (Z.abs_eq (2 ^ _)) by lia. nia. }
  destruct (binary_round_aux prec emax sx mx ex (locOf N D)) as [s|s| |s m e]; [| | |].
  - destruct Haux as [-> H0]. split; [done|].
    specialize (Hnear 0). rewrite Z.mul_0_l in Hnear. apply Hnear. lia.
  - destruct Haux as (-> & m2 & Hbig & Hm2). split; [done|].
    exists (m2 * 2 ^ (e1 + 1074)). split; [done|]. by apply Hnear.
  - done.
  - destruct Haux as (-> & Hb & m2 & Hu & Hm2). split_and!; [done..|].
    rewrite Hu. by apply Hnear.
Qed.

(** *** Consequences of [Nearest]: exactness and monotonicity *)

Lemma div_char a b q : 0 < b → q * b ≤ a < (q + 1) * b → a / b = q.
Proof. intros Hb [Hlo Hhi]. symmetry. apply (Z.div_unique a b q (a - q * b)); lia. Qed.

Lemma multiple_of q r : 0 < q → r mod q = 0 → r = q * (r / q).
Proof. intros Hq Hr. pose proof (Z.div_mod r q ltac:(lia)). lia. Qed.

Lemma Nearest_equiv N D N' D' r :
  0 < D → 0 < D' → N * D' = N' * D → Nearest N D r → Nearest N' D' r.
Proof.
  intros HD HD' Heq [Hgrid Hhalf].
  assert (Z.abs N' / D' = Z.abs N / D) as HF.
  { apply div_char; [done|].
    pose proof (Z.div_mod (Z.abs N) D ltac:(lia)) as HND.
    pose proof (Z.mod_pos_bound (Z.abs N) D HD) as Hr.
    assert (Z.abs N * D' = Z.abs N' * D) as Habs.
    { pose proof (Z.abs_mul N D') as H1. pose proof (Z.abs_mul N' D) as H2.
      rewrite (Z.abs_eq D') in H1 by lia. rewrite (Z.abs_eq D) in H2 by lia.
      rewrite <- H1, <- H2. by rewrite Heq. }
    set (F := Z.abs N / D) in *. split; nia. }
  unfold Nearest. rewrite HF. split; [done|].
  assert (Z.abs (r * D' - N') * D = Z.abs (r * D - N) * D') as Habs.
  { pose proof (Z.abs_mul (r * D' - N') D) as H1.
    pose proof (Z.abs_mul (r * D - N) D') as H2.
    rewrite (Z.abs_eq D) in H1 by lia. rewrite (Z.abs_eq D') in H2 by lia.
    rewrite <- H1, <- H2. f_equal. lia. }
  pose proof (pow2_pos (qexp (Z.abs N / D)) (qexp_nonneg _)) as Hq.
  set (q := 2 ^ qexp (Z.abs N / D)) in *.
  set (X := Z.abs (r * D - N)) in *. set (Y := Z.abs (r * D' - N')) in *.
  nia.
Qed.

Lemma Nearest_opp N D r : Nearest N D r → Nearest (- N) D (- r).
Proof.
  intros [Hgrid Hhalf]. unfold Nearest. rewrite Z.abs_opp.
  pose proof (pow2_pos (qexp (Z.abs N / D)) (qexp_nonneg _)) as Hq.
  split.
  - apply Z.mod_opp_l_z; [lia|done].
  - replace (- r * D - - N) with (- (r * D - N)) by lia. by rewrite Z.abs_opp.
Qed.

Lemma Nearest_nonneg N D r : 0 < D → 0 ≤ N → Nearest N D r → 0 ≤ r.
Proof.
  intros HD HN [Hgrid Hhalf].
  pose proof (pow2_pos (qexp (Z.abs N / D)) (qexp_nonneg _)) as Hq.
  set (q := 2 ^ qexp (Z.abs N / D)) in *.
  pose proof (multiple_of q r Hq Hgrid) as Hr.
  destruct (Z.le_gt_cases 0 (r / q)) as [|Hneg]; [nia|].
  assert (r ≤ - q) by nia. nia.
Qed.

Lemma representable_grid B F :
  representable B → F ≤ Z.abs B → B mod 2 ^ qexp F = 0.
Proof.
  intros [HB _] HF.
  pose proof (qexp_mono _ _ HF) as Hle. pose proof (qexp_nonneg F) as H0.
  pose proof (mod_pow2_le _ _ _ H0 Hle HB) as Habs.
  pose proof (pow2_pos (qexp F) H0).
  destruct (Z.abs_eq_or_opp B) as [E|E]; rewrite E in Habs; [done|].
  apply Z.mod_divide in Habs; [|lia]. apply Z.mod_divide; [lia|].
  exact (proj1 (Z.divide_opp_r _ _) Habs).
Qed.

Lemma Nearest_le N D r B :
  0 < D → 0 ≤ N → Nearest N D r → representable B → N ≤ B * D → r ≤ B.
Proof.
  intros HD HN [Hgrid Hhalf] HB HNB. rewrite (Z.abs_eq N) in * by done.
  pose proof (Z.div_mod N D ltac:(lia)) as HND.
  pose proof (Z.mod_pos_bound N D HD) as Hr.
  set (F := N / D) in *.
  assert (0 ≤ B) as HB0 by nia.
  assert (F ≤ Z.abs B) as HFB by (rewrite Z.abs_eq by done; nia).
  pose proof (representable_grid B F HB HFB) as HBgrid.
  pose proof (pow2_pos (qexp F) (qexp_nonneg _)) as Hq.
  set (q := 2 ^ qexp F) in *.
  pose proof (multiple_of q r Hq Hgrid) as Er.
  pose proof (multiple_of q B Hq HBgrid) as EB.
  destruct (Z.le_gt_cases (r / q) (B / q)) as [|Hgt]; [nia|].
  assert (B + q ≤ r) by nia.
  assert (q * D ≤ r * D - N) by nia. lia.
Qed.

Lemma Nearest_ge N D r A :
  0 < D → 0 ≤ N → Nearest N D r → representable A → A * D ≤ N → A ≤ r.
Proof.
  intros HD HN Hnear HA HAN.
  pose proof (Nearest_nonneg N D r HD HN Hnear) as Hr0.
  destruct (Z.le_gt_cases A 0) as [|HA0]; [lia|].
  destruct Hnear as [Hgrid Hhalf]. rewrite (Z.abs_eq N) in * by done.
  pose proof (Z.div_mod N D ltac:(lia)) as HND.
  pose proof (Z.mod_pos_bound N D HD) as Hr.
  set (F := N / D) in *.
  assert (A ≤ F) as HAF by (apply Z.div_le_lower_bound; lia).
  pose proof (pow2_pos (qexp F) (qexp_nonneg _)) as Hq.
  pose proof (Z.div_mod F (2 ^ qexp F) ltac:(lia)) as HFq.
  pose proof (Z.mod_pos_bound F (2 ^ qexp F) Hq) as HFr.
  pose proof (multiple_of _ r Hq Hgrid) as Er.
  assert (2 ^ qexp F * (F / 2 ^ qexp F) ≤ r) as Hg.
  { destruct (Z.le_gt_cases (F / 2 ^ qexp F) (r / 2 ^ qexp F)) as [|Hlt]; [nia|].
    set (q := 2 ^ qexp F) in *.
    assert (r + q ≤ q * (F / q)) by nia.
    assert (q * D ≤ N - r * D) by nia. lia. }
  etrans; [|exact Hg].
  destruct (Z.le_gt_cases (Z.log2 F - 52) 0) as [Hsmall|Hbig].
  - assert (qexp F = 0) as E0 by (unfold qexp; lia). rewrite E0 in *.
    change (2 ^ 0) with 1 in *. lia.
  - assert (qexp F = Z.log2 F - 52) as Ek by (unfold qexp; lia).
    pose proof (Z.log2_spec F ltac:(lia)) as [Hlo _].
    assert (2 ^ Z.log2 F = 2 ^ 52 * 2 ^ qexp F) as Hsplit.
    { rewrite Ek, <- Z.pow_add_r by lia. f_equal. lia. }
    assert (2 ^ 52 ≤ F / 2 ^ qexp F) as H52.
    { apply Z.div_le_lower_bound; [done|]. lia. }
    destruct (Z.lt_ge_cases A (2 ^ Z.log2 F)) as [HAlt|HAge].
    + set (q := 2 ^ qexp F) in *. nia.
    + assert (Z.log2 A = Z.log2 F) as HlA.
      { apply Z.le_antisymm; [by apply Z.log2_le_mono|].
        apply Z.log2_le_pow2; [lia|done]. }
      destruct HA as [HAgrid _]. rewrite Z.abs_eq in HAgrid by lia.
      assert (qexp A = qexp F) as EqA by (unfold qexp; by rewrite HlA).
      rewrite EqA in HAgrid.
      pose proof (multiple_of _ A Hq HAgrid) as EA.
      assert (A / 2 ^ qexp F ≤ F / 2 ^ qexp F) by (apply Z.div_le_mono; lia).
      set (q := 2 ^ qexp F) in *. nia.
Qed.

Lemma representable_opp v : representable v → representable (- v).
Proof. unfold representable. by rewrite Z.abs_opp. Qed.

(** Rounding is monotone: a representable bound on the exact result is a
    bound on the rounded one; hence a representable result is exact. *)
Lemma Nearest_upper N D r B :
  0 < D → Nearest N D r → representable B → N ≤ B * D → r ≤ B.
Proof.
  intros HD Hnear HB HNB. destruct (Z.le_gt_cases 0 N) as [HN|HN].
  { by eapply Nearest_le. }
  apply Nearest_opp in Hnear.
  pose proof (Nearest_nonneg (- N) D (- r) HD ltac:(lia) Hnear).
  destruct (Z.le_gt_cases 0 B) as [|HB0]; [lia|].
  pose proof (Nearest_ge (- N) D (- r) (- B) HD ltac:(lia) Hnear
                (representable_opp _ HB) ltac:(lia)). lia.
Qed.

Lemma Nearest_lower N D r A :
  0 < D → Nearest N D r → representable A → A * D ≤ N → A ≤ r.
Proof.
  intros HD Hnear HA HAN.
  pose proof (Nearest_upper (- N) D (- r) (- A) HD (Nearest_opp _ _ _ Hnear)
                (representable_opp _ HA) ltac:(lia)). lia.
Qed.

Lemma Nearest_exact N D r v :
  0 < D → Nearest N D r → representable v → N = v * D → r = v.
Proof.
  intros HD Hnear Hv ->. apply Z.le_antisymm.
  - by eapply Nearest_upper.
  - by eapply Nearest_lower.
Qed.

Lemma Nearest_refl v : representable v → Nearest v 1 v.
Proof.
  intros [Hv _]. unfold Nearest. rewrite Z.div_1_r.
  pose proof (pow2_pos (qexp (Z.abs v)) (qexp_nonneg _)) as Hq. split.
  - destruct (Z.abs_eq_or_opp v) as [E|E]; rewrite E in Hv at 1; [done|].
    apply Z.mod_divide in Hv; [|lia]. apply Z.mod_divide; [lia|].
    exact (proj1 (Z.divide_opp_r _ _) Hv).
  - rewrite Z.mul_1_r, Z.sub_diag. simpl. lia.
Qed.

(** *** The value of the result of an operation *)

Lemma sval_valid f v :
  valid_binary f = true → sval f = Some v → representable v.
Proof.
  destruct f as [s|s| |s m e]; simpl; try done.
  - intros _ [= <-]. apply representable_0.
  - intros Hb [= <-]. apply bounded_qexp in Hb as (_ & _ & Hr).
    unfold sulps. destruct s; [by apply representable_opp|done].
Qed.

Lemma value_representable x v : value x = Some v → representable v.
Proof. apply sval_valid, Prim2SF_valid. Qed.

Lemma sval_opp f v : sval f = Some v → sval (SFopp f) = Some (- v).
Proof.
  destruct f as [s|s| |s m e]; simpl; try done.
  - by intros [= <-].
  - intros [= <-]. f_equal. unfold sulps. destruct s; simpl; lia.
Qed.

Lemma valid_opp f : valid_binary f = true → valid_binary (SFopp f) = true.
Proof. by destruct f. Qed.

Lemma Zdigits2_mul_pow2 m k : 0 < m → 0 ≤ k → Zdigits2 (m * 2 ^ k) = Zdigits2 m + k.
Proof.
  intros Hm Hk. pose proof (pow2_pos k Hk).
  rewrite !Zdigits2_log2 by nia. rewrite Z.log2_mul_pow2 by lia. lia.
Qed.

Lemma locOf_1 N : locOf N 1 = loc_Exact.
Proof. unfold locOf. by rewrite Z.mod_1_r. Qed.

Lemma binary_round_Nearest sx mx ex :
  -1074 ≤ ex →
  match binary_round prec emax sx mx ex with
  | S754_zero s => Nearest (ulps mx ex) 1 0
  | S754_finite s m e =>
      s = sx ∧ bounded prec emax m e = true ∧ Nearest (ulps mx ex) 1 (ulps m e)
  | S754_infinity s => ∃ r, 2 ^ 2098 ≤ r ∧ Nearest (ulps mx ex) 1 r
  | S754_nan => False
  end.
Proof.
  intros He. unfold binary_round.
  set (ex' := fexp prec emax (Zpos (digits2_pos mx) + ex)).
  assert (-1074 ≤ ex') as He' by (unfold ex'; rewrite fexp_eq; lia).
  destruct (shl_align mx ex ex') as [mz ez] eqn:Hal.
  assert (-1074 ≤ ez ∧ ez ≤ ex ∧ Zpos mz = Zpos mx * 2 ^ (ex - ez)
          ∧ ez ≤ fexp prec emax (Zdigits2 (Zpos mz) + ez)) as (Hez & Hez' & Hmz & Hn1).
  { destruct (Z.le_gt_cases ex' ex) as [Hle|Hgt].
    - destruct (shl_align_spec mx ex ex' Hle) as [Heq Hv].
      rewrite Hal in Heq, Hv. apply (f_equal snd) in Heq. simpl in Heq, Hv.
      subst ez. split_and!; [lia|lia|done|].
      rewrite Hv, Zdigits2_mul_pow2 by lia. simpl Zdigits2.
      replace (Zpos (digits2_pos mx) + (ex - ex') + ex')
        with (Zpos (digits2_pos mx) + ex) by lia. fold ex'. lia.
    - unfold shl_align in Hal. destruct (ex' - ex) as [|d|d] eqn:Hd; try lia.
      injection Hal as <- <-. rewrite Z.sub_diag. simpl Zdigits2.
      fold ex'. split_and!; lia. }
  pose proof (binary_round_aux_Nearest sx (Zpos mz) ez (Zpos mz) 1
                ltac:(lia) ltac:(lia) ltac:(by rewrite Z.div_1_r) Hn1) as Haux.
  cbv zeta in Haux. rewrite locOf_1 in Haux.
  set (e1 := fexp prec emax (Zdigits2 (Zpos mz) + ez)) in *.
  destruct Haux as [HD1 Haux].
  assert (ulps mx ex * (1 * 2 ^ (e1 - ez)) = Zpos mz * 2 ^ (e1 + 1074) * 1) as Heq.
  { unfold ulps. rewrite Hmz.
    rewrite (pow2_split (ez + 1074) (e1 + 1074)) by lia.
    rewrite (pow2_split (ez + 1074) (ex + 1074)) by lia.
    replace (e1 + 1074 - (ez + 1074)) with (e1 - ez) by lia.
    replace (ex + 1074 - (ez + 1074)) with (ex - ez) by lia. lia. }
  assert (∀ r, Nearest (Zpos mz * 2 ^ (e1 + 1074)) (1 * 2 ^ (e1 - ez)) r
               → Nearest (ulps mx ex) 1 r) as Hconv.
  { intros r. apply Nearest_equiv; [done|lia|lia]. }
  destruct (binary_round_aux prec emax sx (Zpos mz) ez loc_Exact) as [s|s| |s m e].
  - destruct Haux as [_ H]. by apply Hconv.
  - destruct Haux as (_ & r & Hr & H). exists r. split; [done|]. by apply Hconv.
  - done.
  - destruct Haux as (-> & Hb & H). split_and!; [done..|]. by apply Hconv.
Qed.

Lemma SFadd_value u v vu vv :
  valid_binary u = true → valid_binary v = true →
  sval u = Some vu → sval v = Some vv →
  (∃ r, sval (SFadd prec emax u v) = Some r ∧ Nearest (vu + vv) 1 r)
  ∨ (∃ r, 2 ^ 2098 ≤ Z.abs r ∧ Nearest (vu + vv) 1 r).
Proof.
  intros Vu Vv Hu Hv.
  pose proof (sval_valid _ _ Vu Hu) as Ru. pose proof (sval_valid _ _ Vv Hv) as Rv.
  destruct u as [su|su| |su mu eu], v as [sv|sv| |sv mv ev]; simpl in Hu, Hv; try done;
    injection Hu as <-; injection Hv as <-.
  - left. exists 0. split; [by destruct su, sv|]. apply Nearest_refl, representable_0.
  - left. eexists. split; [done|]. by apply Nearest_refl.
  - left. eexists. split; [done|]. rewrite Z.add_0_r. by apply Nearest_refl.
  - simpl in Vu, Vv.
    apply bounded_qexp in Vu as (Heu & _). apply bounded_qexp in Vv as (Hev & _).
    unfold SFadd.
    set (ez := Z.min eu ev).
    assert (ez ≤ eu ∧ ez ≤ ev ∧ -1074 ≤ ez) as (Hzx & Hzy & Hez) by (unfold ez; lia).
    destruct (shl_align_spec mu eu ez Hzx) as [_ Hx].
    destruct (shl_align_spec mv ev ez Hzy) as [_ Hy].
    set (ax := (shl_align mu eu ez).1) in *. set (ay := (shl_align mv ev ez).1) in *.
    set (M := cond_Zopp su (Zpos ax) + cond_Zopp sv (Zpos ay)).
    assert (0 < 2 ^ (ez + 1074)) as Hpos by (apply pow2_pos; lia).
    assert (M * 2 ^ (ez + 1074) = sulps su mu eu + sulps sv mv ev) as HM.
    { assert (ulps mu eu = Zpos ax * 2 ^ (ez + 1074)) as Ux.
      { unfold ulps. rewrite Hx, <- Z.mul_assoc, <- Z.pow_add_r by lia.
        do 2 f_equal. lia. }
      assert (ulps mv ev = Zpos ay * 2 ^ (ez + 1074)) as Uy.
      { unfold ulps. rewrite Hy, <- Z.mul_assoc, <- Z.pow_add_r by lia.
        do 2 f_equal. lia. }
      unfold M, sulps, cond_Zopp. rewrite Ux, Uy. destruct su, sv; lia. }
    rewrite <- HM. unfold binary_normalize. destruct M as [|pm|pm].
    + left. exists 0. split; [done|]. apply Nearest_refl, representable_0.
    + pose proof (binary_round_Nearest false pm ez Hez) as Hb. unfold ulps in Hb.
      destruct (binary_round prec emax false pm ez) as [s|s| |s m e]; try done.
      * left. by exists 0.
      * right. destruct Hb as (r & Hr & Hn). exists r. split; [lia|done].
      * left. destruct Hb as (-> & _ & Hn). by exists (ulps m e).
    + pose proof (binary_round_Nearest true pm ez Hez) as Hb. unfold ulps in Hb.
      replace (Zneg pm * 2 ^ (ez + 1074)) with (- (Zpos pm * 2 ^ (ez + 1074))) by lia.
      destruct (binary_round prec emax true pm ez) as [s|s| |s m e]; try done.
      * left. exists 0. split; [done|]. by apply (Nearest_opp _ _ 0).
      * right. destruct Hb as (r & Hr & Hn). exists (- r).
        split; [lia|by apply Nearest_opp].
      * left. destruct Hb as (-> & _ & Hn). exists (- ulps m e).
        split; [done|by apply Nearest_opp].
Qed.

Lemma add_value x y vx vy :
  value x = Some vx → value y = Some vy →
  (∃ r, value (x + y) = Some r ∧ Nearest (vx + vy) 1 r)
  ∨ (∃ r, 2 ^ 2098 ≤ Z.abs r ∧ Nearest (vx + vy) 1 r).
Proof.
  unfold value. rewrite add_spec. apply SFadd_value; apply Prim2SF_valid.
Qed.

Lemma SFsub_SFadd u v : SFsub prec emax u v = SFadd prec emax u (SFopp v).
Proof.
  destruct u as [su|su| |su mu eu], v as [sv|sv| |sv mv ev]; simpl; try done;
    try (by destruct su, sv).
Qed.

Lemma sub_value x y vx vy :
  value x = Some vx → value y = Some vy →
  (∃ r, value (x - y) = Some r ∧ Nearest (vx - vy) 1 r)
  ∨ (∃ r, 2 ^ 2098 ≤ Z.abs r ∧ Nearest (vx - vy) 1 r).
Proof.
  unfold value. rewrite sub_spec. unfold SF64sub. rewrite SFsub_SFadd.
  intros Hx Hy. apply SFadd_value; [apply Prim2SF_valid| |done|by apply sval_opp].
  apply valid_opp, Prim2SF_valid.
Qed.

Lemma abs_value x vx : value x = Some vx → value (abs x) = Some (Z.abs vx).
Proof.
  unfold value. rewrite abs_spec.
  pose proof (Prim2SF_valid x) as V.
  destruct (Prim2SF x) as [s|s| |s m e]; simpl; try done.
  - by intros [= <-].
  - intros [= <-]. f_equal. apply bounded_qexp in V as (He & _).
    pose proof (ulps_pos m e He). unfold sulps. destruct s; lia.
Qed.

(** With representable bounds on the exact result there is no overflow. *)
Lemma no_overflow N D r A B :
  0 < D → Nearest N D r → representable A → representable B →
  A * D ≤ N ≤ B * D → 2 ^ 2098 ≤ Z.abs r → False.
Proof.
  intros HD Hn HA HB [HAN HNB] Hbig.
  pose proof (Nearest_upper _ _ _ _ HD Hn HB HNB).
  pose proof (Nearest_lower _ _ _ _ HD Hn HA HAN).
  destruct HA as [_ HA], HB as [_ HB]. lia.
Qed.

(** *** Comparisons and the exact built-ins *)

Lemma compare_ulps m1 e1 m2 e2 :
  bounded prec emax m1 e1 = true → bounded prec emax m2 e2 = true →
  match e1 ?= e2 with
  | Eq => Pos.compare_cont Eq m1 m2
  | Lt => Lt
  | Gt => Gt
  end = (ulps m1 e1 ?= ulps m2 e2).
Proof.
  intros (H1 & He1 & H1')%bounded_range (H2 & He2 & H2')%bounded_range.
  assert (∀ ma ea mb eb, Zpos ma < 2 ^ 53 → -1074 ≤ ea → ea < eb →
            2 ^ 52 ≤ Zpos mb → ulps ma ea < ulps mb eb) as Hlt.
  { intros ma ea mb eb Ha Hea Hab Hb. unfold ulps.
    rewrite (pow2_split (ea + 1 + 1074) (eb + 1074)) by lia.
    replace (ea + 1 + 1074) with (Z.succ (ea + 1074)) by lia.
    rewrite Z.pow_succ_r by lia.
    pose proof (pow2_pos (ea + 1074) ltac:(lia)).
    pose proof (pow2_pos (eb + 1074 - Z.succ (ea + 1074)) ltac:(lia)).
    change (2 ^ 53) with (2 * 2 ^ 52) in Ha.
    set (P := 2 ^ (ea + 1074)) in *.
    set (Q := 2 ^ (eb + 1074 - Z.succ (ea + 1074))) in *. set (C := 2 ^ 52) in *.
    assert (Zpos ma * P < 2 * C * P) by nia.
    assert (C * (2 * P) ≤ Zpos mb * (2 * P)) by nia.
    assert (Zpos mb * (2 * P) * 1 ≤ Zpos mb * (2 * P) * Q)
      by (apply Z.mul_le_mono_nonneg_l; lia).
    lia. }
  destruct (Z.compare_spec e1 e2) as [->|Hc|Hc].
  - unfold ulps. pose proof (pow2_pos (e2 + 1074) ltac:(lia)).
    rewrite <- Zmult_compare_compat_r by lia. done.
  - symmetry. apply Z.compare_lt_iff. apply Hlt; [done|done|done|]. apply H2'. lia.
  - symmetry. apply Z.compare_gt_iff. apply Hlt; [done|done|done|]. apply H1'. lia.
Qed.

Lemma SFcompare_value u v vu vv :
  valid_binary u = true → valid_binary v = true →
  sval u = Some vu → sval v = Some vv →
  SFcompare u v = Some (vu ?= vv).
Proof.
  intros Vu Vv Hu Hv.
  destruct u as [su|su| |su mu eu], v as [sv|sv| |sv mv ev]; simpl in *; try done;
    injection Hu as <-; injection Hv as <-.
  - done.
  - apply bounded_qexp in Vv as (He & _). pose proof (ulps_pos mv ev He).
    f_equal. symmetry. unfold sulps. destruct sv.
    + apply Z.compare_gt_iff. lia.
    + apply Z.compare_lt_iff. lia.
  - apply bounded_qexp in Vu as (He & _). pose proof (ulps_pos mu eu He).
    f_equal. symmetry. unfold sulps. destruct su.
    + apply Z.compare_lt_iff. lia.
    + apply Z.compare_gt_iff. lia.
  - pose proof (compare_ulps _ _ _ _ Vu Vv) as Hc.
    apply bounded_qexp in Vu as (Heu & _). apply bounded_qexp in Vv as (Hev & _).
    pose proof (ulps_pos mu eu Heu). pose proof (ulps_pos mv ev Hev).
    f_equal. unfold sulps. destruct su, sv.
    + rewrite Z.compare_opp, (Z.compare_antisym (ulps mu eu)), <- Hc.
      by destruct (eu ?= ev).
    + symmetry. apply Z.compare_lt_iff. lia.
    + symmetry. apply Z.compare_gt_iff. lia.
    + done.
Qed.

Lemma compare_value x y vx vy :
  value x = Some vx → value y = Some vy →
  SFcompare (Prim2SF x) (Prim2SF y) = Some (vx ?= vy).
Proof. apply SFcompare_value; apply Prim2SF_valid. Qed.

Lemma ltb_value x y vx vy :
  value x = Some vx → value y = Some vy → (x <? y)%float = (vx <? vy).
Proof.
  intros Hx Hy. rewrite FloatAxioms.ltb_spec. unfold SFltb, Z.ltb.
  by rewrite (compare_value _ _ _ _ Hx Hy).
Qed.

Lemma leb_value x y vx vy :
  value x = Some vx → value y = Some vy → (x <=? y)%float = (vx <=? vy).
Proof.
  intros Hx Hy. rewrite FloatAxioms.leb_spec. unfold SFleb, Z.leb.
  rewrite (compare_value _ _ _ _ Hx Hy). by destruct (vx ?= vy).
Qed.

(** A number that is not zero is the value of one double only. *)
Lemma value_inj x y v : value x = Some v → value y = Some v → v ≠ 0 → x = y.
Proof.
  unfold value. intros Hx Hy Hv. apply Prim2SF_inj.
  pose proof (Prim2SF_valid x) as Vx. pose proof (Prim2SF_valid y) as Vy.
  destruct (Prim2SF x) as [sx|sx| |sx mx ex], (Prim2SF y) as [sy|sy| |sy my ey];
    simpl in *; try done; injection Hx as Hx; injection Hy as Hy; try lia.
  apply bounded_qexp in Vx as (Hex & Hqx & _). apply bounded_qexp in Vy as (Hey & Hqy & _).
  pose proof (ulps_pos mx ex Hex). pose proof (ulps_pos my ey Hey).
  assert (sx = sy ∧ ulps mx ex = ulps my ey) as [-> Hu].
  { unfold sulps in *. destruct sx, sy; split; try done; lia. }
  assert (ex = ey) as -> by (rewrite Hu in Hqx; lia).
  unfold ulps in Hu. pose proof (pow2_pos (ey + 1074) ltac:(lia)).
  assert (Zpos mx = Zpos my) as Hm by nia. by injection Hm as ->.
Qed.

Lemma representable_scaled n k :
  Z.abs n < 2 ^ 53 → 0 ≤ k ≤ 2045 → representable (n * 2 ^ k).
Proof.
  intros Hn Hk. pose proof (pow2_pos k ltac:(lia)) as Hp.
  unfold representable. rewrite Z.abs_mul, (Z.abs_eq (2 ^ k)) by lia.
  assert (2 ^ k ≤ 2 ^ 2045) by (apply Z.pow_le_mono_r; lia).
  split.
  - destruct (Z.eq_dec n 0) as [->|Hne]; [done|].
    apply (mod_pow2_le _ _ k); [apply qexp_nonneg| |apply Z.mod_mul; lia].
    unfold qexp. rewrite Z.log2_mul_pow2 by lia.
    assert (Z.log2 (Z.abs n) < 53) by (apply Z.log2_lt_pow2; lia). lia.
  - change (2 ^ 2098) with (2 ^ 53 * 2 ^ 2045). nia.
Qed.

Lemma of_scaled_value M e sz :
  -1074 ≤ e → representable (M * 2 ^ (e + 1074)) →
  value (JS.of_scaled M e sz) = Some (M * 2 ^ (e + 1074)).
Proof.
  intros He HR. unfold JS.of_scaled, value, binary_normalize.
  assert (∀ sx p, representable (ulps p e) →
            sval (Prim2SF (SF2Prim (binary_round prec emax sx p e)))
            = Some (sulps sx p e)) as Hround.
  { intros sx p Hrep. pose proof (binary_round_Nearest sx p e He) as Hb.
    destruct (binary_round prec emax sx p e) as [s|s| |s m e'] eqn:E; try done.
    - pose proof (Nearest_exact (ulps p e) 1 0 (ulps p e) ltac:(lia) Hb Hrep ltac:(lia)) as H0.
      pose proof (ulps_pos p e He). lia.
    - destruct Hb as (r & Hr & Hn).
      pose proof (Nearest_exact (ulps p e) 1 r (ulps p e) ltac:(lia) Hn Hrep ltac:(lia)) as H0.
      destruct Hrep as [_ Hlt]. pose proof (ulps_pos p e He). lia.
    - destruct Hb as (-> & Hb & Hn). rewrite Prim2SF_SF2Prim by done. simpl.
      pose proof (Nearest_exact (ulps p e) 1 (ulps m e') (ulps p e)
                    ltac:(lia) Hn Hrep ltac:(lia)) as H0.
      unfold sulps. by rewrite H0. }
  destruct M as [|p|p].
  - by rewrite Prim2SF_SF2Prim.
  - by rewrite (Hround false p HR).
  - rewrite (Hround true p).
    + unfold sulps, ulps. f_equal. lia.
    + apply representable_opp in HR. unfold ulps.
      by replace (- (Zneg p * 2 ^ (e + 1074))) with (Zpos p * 2 ^ (e + 1074)) in HR by lia.
Qed.

Lemma of_Z_value n : Z.abs n < 2 ^ 53 → value (JS.of_Z n) = Some (n * 2 ^ 1074).
Proof.
  intros Hn. unfold JS.of_Z.
  rewrite (of_scaled_value n 0 false) by (try apply representable_scaled; lia). done.
Qed.

(** [%] is exact: the remainder of the values, with the sign of the
    dividend. *)
Lemma rem_value x y vx vy :
  value x = Some vx → value y = Some vy → vy ≠ 0 →
  value (JS.rem x y) = Some (Z.rem vx vy).
Proof.
  unfold value at 1 2. intros Hx Hy Hne. unfold JS.rem.
  pose proof (Prim2SF_valid x) as Vx. pose proof (Prim2SF_valid y) as Vy.
  destruct (Prim2SF x) as [sx|sx| |sx mx ex] eqn:Ex,
           (Prim2SF y) as [sy|sy| |sy my ey] eqn:Ey;
    simpl in *; try done; injection Hx as <-; injection Hy as <-; try lia.
  { unfold value. rewrite Ex. simpl. by rewrite Z.rem_0_l. }
  pose proof (bounded_range _ _ Vx) as (Hmx & _ & _).
  pose proof (bounded_range _ _ Vy) as (Hmy & _ & _).
  apply bounded_qexp in Vx as (Hex & _). apply bounded_qexp in Vy as (Hey & _).
  set (e := Z.min ex ey).
  assert (e ≤ ex ∧ e ≤ ey ∧ -1074 ≤ e ∧ e ≤ 971 ∧ (e = ex ∨ e = ey))
    as (Hle1 & Hle2 & He & He' & Hcase).
  { unfold e. pose proof (bounded_range mx ex). 
    assert (ex ≤ 971); [|lia].
    pose proof (Prim2SF_valid x) as V. rewrite Ex in V. simpl in V.
    unfold bounded, emax, prec in V. apply andb_true_iff in V as [_ V].
    apply Z.leb_le in V. lia. }
  rewrite !Z.shiftl_mul_pow2 by lia.
  pose proof (pow2_pos (ex - e) ltac:(lia)) as Px.
  pose proof (pow2_pos (ey - e) ltac:(lia)) as Py.
  pose proof (pow2_pos (e + 1074) ltac:(lia)) as Pc.
  set (X := Zpos mx * 2 ^ (ex - e)). set (Y := Zpos my * 2 ^ (ey - e)).
  set (c := 2 ^ (e + 1074)) in *.
  assert (0 < Y) as HY by (unfold Y; nia).
  assert (0 ≤ X) as HX by (unfold X; nia).
  pose proof (Z.mod_pos_bound X Y HY) as Hr.
  pose proof (Z.mod_le X Y HX HY) as Hr'.
  assert (ulps mx ex = X * c) as Ux.
  { unfold ulps, X, c. rewrite <- Z.mul_assoc, <- Z.pow_add_r by lia.
    do 2 f_equal. lia. }
  assert (ulps my ey = Y * c) as Uy.
  { unfold ulps, Y, c. rewrite <- Z.mul_assoc, <- Z.pow_add_r by lia.
    do 2 f_equal. lia. }
  assert (X mod Y < 2 ^ 53) as Hsmall.
  { destruct Hcase as [E|E].
    - assert (X = Zpos mx) by (unfold X; rewrite E, Z.sub_diag; lia). lia.
    - assert (Y = Zpos my) by (unfold Y; rewrite E, Z.sub_diag; lia). lia. }
  assert (Z.rem (sulps sx mx ex) (sulps sy my ey)
          = (if sx then - (X mod Y) else X mod Y) * c) as Hrem.
  { assert (Z.rem (X * c) (Y * c) = X mod Y * c) as Hpos.
    { rewrite Z.rem_mod_nonneg by nia. apply Z.mul_mod_distr_r; lia. }
    unfold sulps. rewrite Ux, Uy.
    destruct sx, sy; rewrite ?Z.rem_opp_l, ?Z.rem_opp_r, ?Hpos by nia; lia. }
  rewrite Hrem. apply of_scaled_value; [done|].
  apply representable_scaled; [destruct sx; lia|lia].
Qed.

(** [Math.floor] is exact: the value rounded down to a whole number. *)
Lemma floor_value x vx :
  value x = Some vx →
  value (JS.floor x) = Some (vx / 2 ^ 1074 * 2 ^ 1074).
Proof.
  unfold value at 1. intros Hx. unfold JS.floor.
  pose proof (Prim2SF_valid x) as Vx.
  destruct (Prim2SF x) as [sx|sx| |sx mx ex] eqn:Ex; simpl in *; try done;
    injection Hx as <-.
  { unfold value. by rewrite Ex. }
  pose proof (bounded_range _ _ Vx) as (Hmx & Hex & _).
  destruct (Z.leb_spec 0 ex) as [H0|H0].
  - unfold value. rewrite Ex. simpl. f_equal.
    assert (sulps sx mx ex = (if sx then Zneg mx else Zpos mx) * 2 ^ ex * 2 ^ 1074) as ->.
    { unfold sulps, ulps. rewrite Z.pow_add_r by lia. destruct sx; lia. }
    by rewrite Z.div_mul.
  - rewrite Z.shiftr_div_pow2 by lia.
    pose proof (pow2_pos (- ex) ltac:(lia)) as Pk.
    pose proof (pow2_pos (ex + 1074) ltac:(lia)) as Pc.
    assert (2 ^ 1074 = 2 ^ (- ex) * 2 ^ (ex + 1074)) as HT.
    { rewrite <- Z.pow_add_r by lia. f_equal. lia. }
    assert (sulps sx mx ex = (if sx then Zneg mx else Zpos mx) * 2 ^ (ex + 1074)) as ->.
    { unfold sulps, ulps. destruct sx; lia. }
    rewrite HT at 1. rewrite Z.div_mul_cancel_r by lia.
    set (n := (if sx then Zneg mx else Zpos mx) / 2 ^ (- ex)).
    rewrite (of_scaled_value n 0 sx); [done|lia|].
    apply representable_scaled; [|lia].
    pose proof (Z.div_mod (if sx then Zneg mx else Zpos mx) (2 ^ (- ex)) ltac:(lia)) as Hdm.
    pose proof (Z.mod_pos_bound (if sx then Zneg mx else Zpos mx) (2 ^ (- ex)) Pk) as Hb.
    fold n in Hdm. destruct sx; nia.
Qed.

(** [arr[x]] when [x] is a whole number [j >= 0]. *)
Lemma arrayGet_value {A} (l : list A) x (j : nat) :
  value x = Some (Z.of_nat j * 2 ^ 1074) → arrayGet l x = l !! j.
Proof.
  unfold value. intros Hx. unfold arrayGet.
  pose proof (Prim2SF_valid x) as Vx.
  destruct (Prim2SF x) as [sx|sx| |sx mx ex] eqn:Ex; simpl in *; try done;
    injection Hx as Hx.
  { assert (j = 0%nat) as ->; [|done].
    pose proof (pow2_pos 1074 ltac:(lia)). nia. }
  apply bounded_qexp in Vx as (Hex & _).
  pose proof (ulps_pos mx ex Hex) as Hpos.
  pose proof (pow2_pos 1074 ltac:(lia)) as HT.
  unfold sulps in Hx. destruct sx; [nia|].
  assert (JS.magnitude mx ex = Z.of_nat j) as Hmag.
  { rewrite magnitude_ulps by done. rewrite Hx. by apply Z.div_mul; lia. }
  rewrite Hmag.
  assert ((if 0 <=? ex then true else Z.shiftl (Z.of_nat j) (- ex) =? Zpos mx) = true)
    as ->.
  { destruct (Z.leb_spec 0 ex) as [|Hneg]; [done|]. apply Z.eqb_eq.
    rewrite Z.shiftl_mul_pow2 by lia. unfold ulps in Hx.
    pose proof (pow2_pos (ex + 1074) ltac:(lia)) as Pc.
    assert (2 ^ 1074 = 2 ^ (- ex) * 2 ^ (ex + 1074)) as HT'.
    { rewrite <- Z.pow_add_r by lia. f_equal. lia. }
    rewrite HT' in Hx. nia. }
  simpl. destruct (Z.ltb_spec (Z.of_nat j) (Z.of_nat (length l))) as [Hlt|Hge].
  - by rewrite Nat2Z.id.
  - symmetry. apply lookup_ge_None. lia.
Qed.

(** *** Division *)

Lemma new_location_locOf N D : 0 < D → new_location D (N mod D) = locOf N D.
Proof.
  intros HD. pose proof (Z.mod_pos_bound N D HD) as Hr.
  unfold new_location, new_location_even, new_location_odd, locOf.
  destruct (Z.even D) eqn:Hev; [done|].
  destruct (Z.eqb_spec (N mod D) 0) as [|Hne]; [done|]. f_equal.
  assert (Z.odd D = true) as Hodd by (by rewrite <- Z.negb_even, Hev).
  apply Z.odd_spec in Hodd as [k Hk].
  destruct (Z.compare_spec (2 * (N mod D) + 1) D) as [E|E|E];
    symmetry; [apply Z.compare_lt_iff|apply Z.compare_lt_iff|apply Z.compare_gt_iff]; lia.
Qed.

Lemma div_eucl_div a b q r : Z.div_eucl a b = (q, r) → q = a / b ∧ r = a mod b.
Proof. unfold Z.div, Z.modulo. by intros ->. Qed.

Lemma Nearest_0 D : 0 < D → Nearest 0 D 0.
Proof.
  intros HD. unfold Nearest. change (Z.abs 0 / D) with 0.
  change (2 ^ qexp 0) with 1. split; [done|]. simpl. lia.
Qed.

Lemma SFdiv_value mx ex my ey sx :
  bounded prec emax mx ex = true → bounded prec emax my ey = true →
  let N := sulps sx mx ex * 2 ^ 1074 in
  let D := ulps my ey in
  match SFdiv prec emax (S754_finite sx mx ex) (S754_finite false my ey) with
  | S754_zero _ => Nearest N D 0
  | S754_finite s m e => bounded prec emax m e = true ∧ Nearest N D (sulps s m e)
  | S754_infinity _ => ∃ r, 2 ^ 2098 ≤ Z.abs r ∧ Nearest N D r
  | S754_nan => False
  end.
Proof.
  intros Vx Vy N D.
  apply bounded_qexp in Vx as (Hex & _). apply bounded_qexp in Vy as (Hey & _).
  pose proof (ulps_pos my ey Hey) as HDpos. fold D in HDpos.
  unfold SFdiv, SFdiv_core_binary. rewrite xorb_false_r.
  set (d1 := Zdigits2 (Zpos mx)). set (d2 := Zdigits2 (Zpos my)).
  set (e' := Z.min (fexp prec emax (d1 + ex - (d2 + ey))) (ex - ey)).
  set (s := ex - ey - e').
  assert (0 ≤ s) as Hs by (unfold s, e'; lia).
  set (m' := match s with 0 => Zpos mx | Zpos _ => Z.shiftl (Zpos mx) s | Zneg _ => 0 end).
  assert (m' = Zpos mx * 2 ^ s) as Hm'.
  { unfold m'. destruct s as [|p|p] eqn:Es; [simpl; lia| |lia].
    by rewrite Z.shiftl_mul_pow2. }
  pose proof (pow2_pos s Hs) as Ps.
  assert (0 < m') as Hm'pos by nia.
  destruct (Z.div_eucl m' (Zpos my)) as [q r] eqn:Hqr.
  apply div_eucl_div in Hqr as [Hq ->].
  rewrite new_location_locOf by done.
  assert (e' ≤ fexp prec emax (Zdigits2 q + e')) as Hn1.
  { assert (e' ≤ fexp prec emax (d1 + ex - (d2 + ey))) as Hmin by (unfold e'; lia).
    assert (d1 + ex - (d2 + ey) ≤ Zdigits2 q + e'); [|rewrite !fexp_eq in *; lia].
    assert (0 ≤ q) as Hq0 by (subst q; apply Z.div_pos; lia).
    pose proof (Zdigits2_nonneg q Hq0) as Hdq.
    destruct (Z.le_gt_cases (d1 - d2 + s) 0) as [|Hbig]; [unfold s in *; lia|].
    assert (2 ^ (d1 - d2 + s - 1) ≤ q) as Hqbig.
    { subst q. apply Z.div_le_lower_bound; [done|].
      pose proof (digits2_bounds mx) as [Hlo _]. pose proof (digits2_bounds my) as [_ Hhi].
      fold (Zdigits2 (Zpos mx)) in Hlo. fold (Zdigits2 (Zpos my)) in Hhi.
      fold d1 in Hlo. fold d2 in Hhi.
      assert (0 < d2) by (unfold d2; simpl; lia).
      assert (0 < d1) by (unfold d1; simpl; lia).
      assert (2 ^ (d1 - 1) * 2 ^ s = 2 ^ d2 * 2 ^ (d1 - d2 + s - 1)) as Hsplit.
      { rewrite <- !Z.pow_add_r by lia. f_equal. lia. }
      pose proof (pow2_pos (d1 - d2 + s - 1) ltac:(lia)).
      rewrite Hm'. nia. }
    pose proof (pow2_pos (d1 - d2 + s - 1) ltac:(lia)).
    rewrite Zdigits2_log2 by lia.
    assert (d1 - d2 + s - 1 ≤ Z.log2 q) by (apply Z.log2_le_pow2; lia).
    unfold s in *. lia. }
  pose proof (binary_round_aux_Nearest sx q e' m' (Zpos my)
                ltac:(lia) ltac:(lia) Hq Hn1) as Haux.
  cbv zeta in Haux. set (e1 := fexp prec emax (Zdigits2 q + e')) in *.
  destruct Haux as [HD1 Haux].
  assert (-1074 ≤ e1) as He1 by (unfold e1; rewrite fexp_eq; lia).
  assert (m' * 2 ^ (e1 + 1074) * D
          = ulps mx ex * 2 ^ 1074 * (Zpos my * 2 ^ (e1 - e'))) as Heq.
  { unfold D, ulps. rewrite Hm'.
    assert (2 ^ s * 2 ^ (e1 + 1074) * 2 ^ (ey + 1074)
            = 2 ^ (ex + 1074) * 2 ^ 1074 * 2 ^ (e1 - e')) as Hp.
    { rewrite <- !Z.pow_add_r by lia. f_equal. unfold s. lia. }
    replace (Zpos mx * 2 ^ s * 2 ^ (e1 + 1074) * (Zpos my * 2 ^ (ey + 1074)))
      with (Zpos mx * Zpos my * (2 ^ s * 2 ^ (e1 + 1074) * 2 ^ (ey + 1074))) by ring.
    rewrite Hp. ring. }
  assert (∀ r, Nearest (m' * 2 ^ (e1 + 1074)) (Zpos my * 2 ^ (e1 - e')) r
               → Nearest (ulps mx ex * 2 ^ 1074) D r) as Hconv.
  { intros r. apply Nearest_equiv; [done|done|done]. }
  assert (∀ r, Nearest (ulps mx ex * 2 ^ 1074) D r
               → Nearest N D (if sx then - r else r)) as Hsign.
  { intros r Hr. unfold N, sulps. destruct sx; [|done].
    replace (- ulps mx ex * 2 ^ 1074) with (- (ulps mx ex * 2 ^ 1074)) by lia.
    by apply Nearest_opp. }
  destruct (binary_round_aux prec emax sx q e' (locOf m' (Zpos my))) as [s0|s0| |s0 m e].
  - destruct Haux as [_ H]. apply Hconv, Hsign in H. by destruct sx.
  - destruct Haux as (_ & r & Hr & H). apply Hconv, Hsign in H.
    eexists. split; [|exact H]. destruct sx; lia.
  - done.
  - destruct Haux as (-> & Hb & H). split; [done|]. apply Hconv, Hsign in H.
    unfold sulps. by destruct sx.
Qed.

Lemma div_value x y vx vy :
  value x = Some vx → value y = Some vy → 0 < vy →
  (∃ r, value (x / y) = Some r ∧ Nearest (vx * 2 ^ 1074) vy r)
  ∨ (∃ r, 2 ^ 2098 ≤ Z.abs r ∧ Nearest (vx * 2 ^ 1074) vy r).
Proof.
  unfold value. rewrite div_spec. unfold SF64div. intros Hx Hy Hpos.
  pose proof (Prim2SF_valid x) as Vx. pose proof (Prim2SF_valid y) as Vy.
  destruct (Prim2SF x) as [sx|sx| |sx mx ex], (Prim2SF y) as [sy|sy| |sy my ey];
    simpl in Hx, Hy, Vx, Vy; try done; injection Hx as <-; injection Hy as <-; try lia.
  - left. exists 0. split; [done|]. by apply Nearest_0.
  - assert (sy = false) as ->.
    { apply bounded_qexp in Vy as (Hey & _). pose proof (ulps_pos my ey Hey).
      unfold sulps in Hpos. destruct sy; [lia|done]. }
    pose proof (SFdiv_value mx ex my ey sx Vx Vy) as H. cbv zeta in H.
    change (sulps false my ey) with (ulps my ey).
    destruct (SFdiv prec emax _ _) as [s|s| |s m e]; try done.
    + left. by exists 0.
    + by right.
    + left. destruct H as [_ H]. by eexists.
Qed.

(** ** normalize360 *)

Lemma is_finite_value x : is_finite x = true → ∃ v, value x = Some v.
Proof.
  unfold is_finite, is_nan, is_infinity, value.
  rewrite !FloatAxioms.eqb_spec, abs_spec. unfold SFeqb.
  change (Prim2SF infinity) with (S754_infinity false).
  destruct (Prim2SF x) as [s|s| |s m e]; simpl; eauto; try done.
  by destruct s.
Qed.

Lemma not_finite x :
  is_finite x = false → x = nan ∨ x = infinity ∨ x = neg_infinity.
Proof.
  unfold is_finite, is_nan, is_infinity.
  rewrite !FloatAxioms.eqb_spec, abs_spec. unfold SFeqb. intros H.
  change (Prim2SF infinity) with (S754_infinity false) in H.
  destruct (Prim2SF x) as [s|s| |s m e] eqn:E; simpl in H.
  - by destruct s.
  - right. destruct s; [right|left]; by apply Prim2SF_inj; rewrite E.
  - left. by apply Prim2SF_inj; rewrite E.
  - rewrite Z.compare_refl, Pos.compare_cont_refl in H. by destruct s.
Qed.

Lemma value_is_finite x v : value x = Some v → is_finite x = true.
Proof.
  intros Hv. destruct (is_finite x) eqn:E; [done|].
  by destruct (not_finite x E) as [->|[->| ->]].
Qed.

Lemma whole_of_Z (n : Z) : Z.abs n < 2 ^ 53 → whole (JS.of_Z n) n.
Proof. apply of_Z_value. Qed.

Lemma whole_const (x : float) (n : Z) :
  x = JS.of_Z n → Z.abs n < 2 ^ 53 → whole x n.
Proof. intros ->. apply whole_of_Z. Qed.

Lemma whole_0 : whole 0 0.
Proof. reflexivity. Qed.
Lemma value_0 : value 0 = Some 0.
Proof. reflexivity. Qed.
Lemma whole_1 : whole 1 1.
Proof. by apply whole_const. Qed.
Lemma whole_12 : whole 12 12.
Proof. by apply whole_const. Qed.
Lemma whole_30 : whole 30 30.
Proof. by apply whole_const. Qed.
Lemma whole_180 : whole 180 180.
Proof. by apply whole_const. Qed.
Lemma whole_360 : whole 360 360.
Proof. by apply whole_const. Qed.

Lemma representable_whole n : Z.abs n < 2 ^ 53 → representable (n * 2 ^ 1074).
Proof. intros. apply representable_scaled; lia. Qed.

Lemma rem_zero x y s sy my ey :
  Prim2SF x = S754_zero s → Prim2SF y = S754_finite sy my ey → JS.rem x y = x.
Proof. unfold JS.rem. by intros -> ->. Qed.

(** The remainder by 360 and what [normalize360] makes of it, in values. *)
Lemma normalize360_value deg v :
  value deg = Some v →
  ∃ r, value (normalize360 deg) = Some r
       ∧ 0 ≤ r ≤ 360 * 2 ^ 1074
       ∧ (0 ≤ v → r = v mod (360 * 2 ^ 1074))
       ∧ (v < 0 → Nearest (Z.rem v (360 * 2 ^ 1074) + 360 * 2 ^ 1074) 1 r ∨ r = 0).
Proof.
  intros Hv. pose proof (pow2_pos 1074 ltac:(lia)) as HT.
  pose proof (rem_value deg 360 v _ Hv whole_360 ltac:(lia)) as Hrem.
  unfold normalize360. cbv zeta. set (x := JS.rem deg 360) in *.
  rewrite (ltb_value x 0 _ 0 Hrem value_0).
  set (T := 2 ^ 1074) in *.
  pose proof (representable_whole 360 ltac:(done)) as R360. fold T in R360.
  pose proof representable_0 as R0.
  destruct (Z.ltb_spec (Z.rem v (360 * T)) 0) as [Hneg|Hpos].
  - assert (v < 0) as Hvneg.
    { destruct (Z.le_gt_cases 0 v) as [H0|]; [|done].
      pose proof (Z.rem_nonneg v (360 * T) ltac:(lia) H0). lia. }
    pose proof (Z.rem_bound_abs v (360 * T) ltac:(lia)) as Hb.
    destruct (add_value x 360 _ _ Hrem whole_360) as [(r & Hr & Hn)|(r & Hr & Hn)].
    + exists r. split; [done|].
      assert (r ≤ 360 * T)
        by (eapply (Nearest_upper _ 1); [lia|exact Hn|exact R360|lia]).
      assert (0 ≤ r)
        by (eapply (Nearest_lower _ 1); [lia|exact Hn|exact R0|lia]).
      split_and!; [lia|lia|lia|by left].
    + exfalso. eapply (no_overflow _ 1 r 0 (360 * T)); [lia|exact Hn|done|done|lia|done].
  - exists (Z.rem v (360 * T)). split; [done|].
    destruct (Z.le_gt_cases 0 v) as [Hv0|Hlt].
    + rewrite Z.rem_mod_nonneg by lia.
      pose proof (Z.mod_pos_bound v (360 * T) ltac:(lia)).
      split_and!; [lia|lia|done|lia].
    + pose proof (Z.rem_nonpos v (360 * T) ltac:(lia) ltac:(lia)) as Hnp.
      assert (Z.rem v (360 * T) = 0) as E0 by lia. rewrite E0.
      split_and!; [lia|lia|lia|by right].
Qed.

(** X7.  For every finite argument [normalize360] returns a number between
    0 and 360, both included: below 360 for a non-negative argument, and
    possibly 360 itself for a negative one (the sum [x + 360] rounds).  For
    NaN and the infinities it returns NaN. *)
Theorem normalize360_range deg :
  (is_finite deg = true →
     (0 <=? normalize360 deg)%float = true
     ∧ (normalize360 deg <=? 360)%float = true
     ∧ ((0 <=? deg)%float = true → (normalize360 deg <? 360)%float = true))
  ∧ (is_finite deg = false → normalize360 deg = nan).
Proof.
  split.
  - intros [v Hv]%is_finite_value.
    destruct (normalize360_value deg v Hv) as (r & Hr & Hrange & Hpos & _).
    rewrite (leb_value _ _ _ _ value_0 Hr), (leb_value _ _ _ _ Hr whole_360).
    split_and!; [apply Z.leb_le; lia|apply Z.leb_le; lia|].
    rewrite (leb_value _ _ _ _ value_0 Hv), (ltb_value _ _ _ _ Hr whole_360).
    intros H0%Z.leb_le. apply Z.ltb_lt. rewrite (Hpos ltac:(lia)).
    pose proof (pow2_pos 1074 ltac:(lia)).
    pose proof (Z.mod_pos_bound v (360 * 2 ^ 1074) ltac:(lia)). lia.
  - by intros [->|[->| ->]]%not_finite.
Qed.

Lemma value_of_range y :
  (0 <=? y)%float = true → (y <? 360)%float = true →
  ∃ v, value y = Some v ∧ 0 ≤ v < 360 * 2 ^ 1074.
Proof.
  intros H0 H360.
  assert (is_finite y = true) as Hfin.
  { destruct (is_finite y) eqn:E; [done|].
    by destruct (not_finite y E) as [->|[->| ->]]. }
  destruct (is_finite_value y Hfin) as [v Hv]. exists v. split; [done|].
  rewrite (leb_value _ _ _ _ value_0 Hv) in H0.
  rewrite (ltb_value _ _ _ _ Hv whole_360) in H360.
  apply Z.leb_le in H0. apply Z.ltb_lt in H360. lia.
Qed.

Lemma normalize360_fixed y :
  (0 <=? y)%float = true → (y <? 360)%float = true → normalize360 y = y.
Proof.
  intros H0 H360. destruct (value_of_range y H0 H360) as (v & Hv & Hrange).
  pose proof (rem_value y 360 v _ Hv whole_360 ltac:(lia)) as Hrem.
  rewrite Z.rem_small in Hrem by lia.
  assert (JS.rem y 360 = y) as Hx.
  { destruct (Z.eq_dec v 0) as [->|Hne]; [|by eapply value_inj].
    unfold value in Hv. destruct (Prim2SF y) as [s|s| |s m e] eqn:E; try done.
    - by eapply rem_zero.
    - simpl in Hv. injection Hv as Hv. pose proof (Prim2SF_valid y) as V.
      rewrite E in V. apply bounded_qexp in V as (He & _).
      pose proof (ulps_pos m e He). unfold sulps in Hv. destruct s; lia. }
  unfold normalize360. cbv zeta. rewrite Hx.
  rewrite (ltb_value _ _ _ _ Hv value_0).
  destruct (Z.ltb_spec v 0); [lia|done].
Qed.

Lemma normalize360_twice_below deg :
  is_finite deg = true →
  is_finite (normalize360 deg) = true
  ∧ (normalize360 (normalize360 deg) <? 360)%float = true.
Proof.
  intros Hfin. destruct (is_finite_value deg Hfin) as [v Hv].
  destruct (normalize360_value deg v Hv) as (r & Hr & Hrange & _).
  split; [by eapply value_is_finite|].
  destruct (normalize360 deg <? 360)%float eqn:Hlt.
  - rewrite normalize360_fixed; [done| |done].
    rewrite (leb_value _ _ _ _ value_0 Hr). apply Z.leb_le. lia.
  - rewrite (ltb_value _ _ _ _ Hr whole_360) in Hlt. apply Z.ltb_ge in Hlt.
    assert (normalize360 deg = 360%float) as ->; [|by vm_compute].
    apply (value_inj _ _ r); [done| |].
    + replace r with (360 * 2 ^ 1074) by lia. apply whole_360.
    + pose proof (pow2_pos 1074 ltac:(lia)). lia.
Qed.

(** X8.  [normalize360] leaves every number of [0, 360) unchanged, so it
    is idempotent on all finite arguments but those it maps to 360, which a
    second application maps to 0. *)
Theorem normalize360_idempotent deg :
  is_finite deg = true →
  normalize360 (normalize360 deg)
  = if (normalize360 deg <? 360)%float then normalize360 deg else 0%float.
Proof.
  intros Hfin. destruct (is_finite_value deg Hfin) as [v Hv].
  destruct (normalize360_value deg v Hv) as (r & Hr & Hrange & _).
  destruct (normalize360 deg <? 360)%float eqn:Hlt.
  - apply normalize360_fixed; [|done].
    rewrite (leb_value _ _ _ _ value_0 Hr). apply Z.leb_le. lia.
  - rewrite (ltb_value _ _ _ _ Hr whole_360) in Hlt. apply Z.ltb_ge in Hlt.
    assert (normalize360 deg = 360%float) as ->; [|by vm_compute].
    apply (value_inj _ _ r); [done| |].
    + replace r with (360 * 2 ^ 1074) by lia. apply whole_360.
    + pose proof (pow2_pos 1074 ltac:(lia)). lia.
Qed.

(** ** Angular distance and combustion (src/utils.js) *)

Lemma utils_normalize360 deg : Utils.normalize360 deg = normalize360 deg.
Proof. reflexivity. Qed.

Lemma SFabs_binary_round s s' m e :
  SFabs (binary_round prec emax s m e) = SFabs (binary_round prec emax s' m e).
Proof.
  unfold binary_round. destruct (shl_align m e _) as [mz ez].
  unfold binary_round_aux. destruct (shr_fexp prec emax (Zpos mz) ez loc_Exact) as [mrs1 e1].
  destruct (shr_fexp prec emax _ e1 loc_Exact) as [mrs2 e2].
  destruct (shr_m mrs2); [done| |done]. by destruct (e2 <=? _).
Qed.

Lemma SFabs_sub_comm u v :
  SFabs (SFsub prec emax u v) = SFabs (SFsub prec emax v u).
Proof.
  destruct u as [su|su| |su mu eu], v as [sv|sv| |sv mv ev]; simpl; try done;
    try (by destruct su, sv); try (by destruct su); try (by destruct sv).
  rewrite (Z.min_comm ev eu). set (ez := Z.min eu ev).
  set (A := cond_Zopp su _). set (B := cond_Zopp sv _).
  replace (B - A) with (- (A - B)) by lia.
  unfold binary_normalize. destruct (A - B) as [|p|p]; simpl; [done| |];
    apply SFabs_binary_round.
Qed.

Lemma abs_sub_comm x y : abs (x - y) = abs (y - x).
Proof.
  apply Prim2SF_inj. rewrite !abs_spec, !sub_spec. apply SFabs_sub_comm.
Qed.

(** X9.  The angular distance does not depend on the order of its
    arguments, whatever they are. *)
Theorem angDist_symmetric a b : Utils.angDist a b = Utils.angDist b a.
Proof. unfold Utils.angDist. by rewrite abs_sub_comm. Qed.

Lemma sub_nan_r x : (x - nan)%float = nan.
Proof.
  apply Prim2SF_inj. rewrite sub_spec. change (Prim2SF nan) with S754_nan.
  by destruct (Prim2SF x).
Qed.

Lemma normalize360_not_finite x : is_finite x = false → normalize360 x = nan.
Proof. by intros [->|[->| ->]]%not_finite. Qed.

Lemma angDist_nan a b :
  is_finite a = false ∨ is_finite b = false → Utils.angDist a b = nan.
Proof.
  unfold Utils.angDist. change Utils.normalize360 with normalize360.
  intros [H|H]; rewrite (normalize360_not_finite _ H).
  - by rewrite sub_nan_l.
  - by rewrite sub_nan_r.
Qed.

Lemma angDist_value a b va vb :
  value a = Some va → value b = Some vb →
  ∃ r, value (Utils.angDist a b) = Some r ∧ 0 ≤ r ≤ 180 * 2 ^ 1074.
Proof.
  intros Ha Hb. pose proof (pow2_pos 1074 ltac:(lia)) as HT.
  destruct (normalize360_value a va Ha) as (ra & Hra & Ra & _).
  destruct (normalize360_value b vb Hb) as (rb & Hrb & Rb & _).
  unfold Utils.angDist. change Utils.normalize360 with normalize360. cbv zeta.
  set (T := 2 ^ 1074) in *.
  pose proof (representable_whole 360 ltac:(done)) as R360. fold T in R360.
  pose proof (representable_whole (-360) ltac:(done)) as R360'. fold T in R360'.
  pose proof (representable_whole 180 ltac:(done)) as R180. fold T in R180.
  pose proof representable_0 as R0.
  destruct (sub_value _ _ _ _ Hra Hrb) as [(d & Hd & Hn)|(d & Hd & Hn)]; cycle 1.
  { exfalso. eapply (no_overflow _ 1 d (-360 * T) (360 * T));
      [lia|exact Hn|done|done|lia|done]. }
  assert (d ≤ 360 * T)
    by (eapply (Nearest_upper _ 1); [lia|exact Hn|exact R360|lia]).
  assert (-360 * T ≤ d)
    by (eapply (Nearest_lower _ 1); [lia|exact Hn|exact R360'|lia]).
  pose proof (abs_value _ _ Hd) as Hx.
  set (x := abs (normalize360 a - normalize360 b)) in *.
  rewrite (ltb_value _ _ _ _ whole_180 Hx). fold T.
  destruct (Z.ltb_spec (180 * T) (Z.abs d)) as [Hfar|Hnear].
  - destruct (sub_value _ _ _ _ whole_360 Hx) as [(r & Hr & Hn2)|(r & Hr & Hn2)];
      fold T in Hn2.
    + exists r. split; [done|]. split.
      * eapply (Nearest_lower _ 1); [lia|exact Hn2|exact R0|lia].
      * eapply (Nearest_upper _ 1); [lia|exact Hn2|exact R180|lia].
    + exfalso. eapply (no_overflow _ 1 r 0 (180 * T));
        [lia|exact Hn2|done|done|lia|done].
  - exists (Z.abs d). split; [done|lia].
Qed.

(** X10.  The angular distance of two finite longitudes is a number
    between 0 and 180, both included; with a NaN or infinite argument it is
    NaN. *)
Theorem angDist_range a b :
  (is_finite a = true → is_finite b = true →
     (0 <=? Utils.angDist a b)%float = true
     ∧ (Utils.angDist a b <=? 180)%float = true)
  ∧ (is_finite a = false ∨ is_finite b = false → Utils.angDist a b = nan).
Proof.
  split; [|apply angDist_nan].
  intros [va Ha]%is_finite_value [vb Hb]%is_finite_value.
  destruct (angDist_value a b va vb Ha Hb) as (r & Hr & Hrange).
  rewrite (leb_value _ _ _ _ value_0 Hr), (leb_value _ _ _ _ Hr whole_180).
  split; apply Z.leb_le; lia.
Qed.

(** *** Combustion *)

Lemma COMBUST_THRESH_names name th :
  Utils.COMBUST_THRESH !! name = Some th →
  (name, th) ∈ [("Mercury", 12); ("Venus", 10); ("Mars", 17); ("Jupiter", 11);
                ("Saturn", 15)]%float%string.
Proof.
  unfold Utils.COMBUST_THRESH. intros H.
  repeat (apply lookup_insert_Some in H as [[<- <-]|[_ H]];
          [set_solver|]).
  apply lookup_singleton_Some in H as [<- <-]. set_solver.
Qed.

Lemma leb_nan_l x : (nan <=? x)%float = false.
Proof.
  rewrite FloatAxioms.leb_spec. change (Prim2SF nan) with S754_nan. done.
Qed.

(** X11.  [isCombust] can only be true for Mercury, Venus, Mars, Jupiter
    and Saturn, and then exactly when the angular distance is at most the
    planet's threshold: every other name (the Sun itself, the Moon, Rahu,
    Ketu) is never combust.  The answer does not depend on the order of the
    two longitudes, and it is false as soon as one of them is NaN or
    infinite. *)
Theorem isCombust_spec name lon sun :
  (Utils.isCombust name lon sun = true →
     ∃ th, (name, th) ∈ [("Mercury", 12); ("Venus", 10); ("Mars", 17);
                          ("Jupiter", 11); ("Saturn", 15)]%float%string
           ∧ (Utils.angDist lon sun <=? th)%float = true
           ∧ is_finite lon = true ∧ is_finite sun = true)
  ∧ (∀ th, Utils.COMBUST_THRESH !! name = Some th →
       Utils.isCombust name lon sun = (Utils.angDist lon sun <=? th)%float)
  ∧ Utils.isCombust name lon sun = Utils.isCombust name sun lon.
Proof.
  unfold Utils.isCombust. split_and!.
  - destruct (Utils.COMBUST_THRESH !! name) as [th|] eqn:Hth; [|done].
    destruct (JS.falsy th); [done|]. intros Hle. exists th.
    split; [by apply COMBUST_THRESH_names|]. split; [done|].
    destruct (is_finite lon) eqn:Hl, (is_finite sun) eqn:Hs; try done;
      rewrite angDist_nan, leb_nan_l in Hle by auto; done.
  - intros th Hth. rewrite Hth.
    apply COMBUST_THRESH_names in Hth.
    repeat (apply elem_of_cons in Hth as [[= -> ->]|Hth]; [done|]).
    by apply elem_of_nil in Hth.
  - unfold Utils.angDist. by rewrite (abs_sub_comm (Utils.normalize360 lon)).
Qed.

(** ** Signs, nakshatras and houses *)

Lemma add_whole x y a b :
  whole x a → whole y b → Z.abs (a + b) < 2 ^ 53 → whole (x + y) (a + b).
Proof.
  unfold whole. intros Hx Hy Hab.
  pose proof (representable_whole (a + b) Hab) as R.
  destruct (add_value x y _ _ Hx Hy) as [(r & Hr & Hn)|(r & Hr & Hn)].
  - rewrite Hr. f_equal.
    eapply (Nearest_exact _ 1); [lia|exact Hn|exact R|lia].
  - exfalso. eapply (no_overflow _ 1 r _ _ ltac:(lia) Hn R R); [lia|done].
Qed.

Lemma sub_whole x y a b :
  whole x a → whole y b → Z.abs (a - b) < 2 ^ 53 → whole (x - y) (a - b).
Proof.
  unfold whole. intros Hx Hy Hab.
  pose proof (representable_whole (a - b) Hab) as R.
  destruct (sub_value x y _ _ Hx Hy) as [(r & Hr & Hn)|(r & Hr & Hn)].
  - rewrite Hr. f_equal.
    eapply (Nearest_exact _ 1); [lia|exact Hn|exact R|lia].
  - exfalso. eapply (no_overflow _ 1 r _ _ ltac:(lia) Hn R R); [lia|done].
Qed.

Lemma rem_whole x y a b :
  whole x a → whole y b → b ≠ 0 → whole (JS.rem x y) (Z.rem a b).
Proof.
  unfold whole. intros Hx Hy Hb. pose proof (pow2_pos 1074 ltac:(lia)).
  rewrite (rem_value x y _ _ Hx Hy) by lia.
  by rewrite Z.mul_rem_distr_r by lia.
Qed.

(** The largest double below 360 is 360 - 2^-44. *)
Lemma below_360 v :
  representable v → 0 ≤ v < 360 * 2 ^ 1074 → v ≤ 360 * 2 ^ 1074 - 2 ^ 1030.
Proof.
  intros [Hgrid _] [H0 Hlt]. rewrite Z.abs_eq in Hgrid by done.
  assert (2 ^ 1074 = 2 ^ 44 * 2 ^ 1030) as HT by (by rewrite <- Z.pow_add_r).
  assert (2 ^ 1082 = 2 ^ 52 * 2 ^ 1030) as H256 by (by rewrite <- Z.pow_add_r).
  pose proof (pow2_pos 1030 ltac:(lia)) as Hq. rewrite HT in *.
  set (q := 2 ^ 1030) in *. change (2 ^ 44) with 17592186044416 in *.
  change (2 ^ 52) with 4503599627370496 in H256.
  destruct (Z.lt_ge_cases v (2 ^ 1082)) as [Hsmall|Hbig]; [lia|].
  assert (Z.log2 v = 1082) as Hlog.
  { apply Z.log2_unique; [lia|]. split; [done|].
    change (Z.succ 1082) with (1 + 1082). rewrite Z.pow_add_r, H256 by lia. lia. }
  assert (qexp v = 1030) as Hqe by (unfold qexp; rewrite Hlog; done).
  rewrite Hqe in Hgrid. fold q in Hgrid.
  pose proof (multiple_of q v Hq Hgrid) as Ev. nia.
Qed.

Section Quotients.
Local Open Scope float_scope.

(** [Math.floor(d / c)] for [0 <= d] and a positive [c], given a
    representable bound [B] on the quotient. *)
Lemma floor_div_bounded d c vd vc B n :
  value d = Some vd → value c = Some vc → (0 ≤ vd)%Z → (0 < vc)%Z →
  representable B → (vd * 2 ^ 1074 ≤ B * vc)%Z → (B < (n + 1) * 2 ^ 1074)%Z →
  ∃ k, whole (JS.floor (d / c)) k ∧ (0 ≤ k ≤ n)%Z.
Proof.
  intros Hd Hc Hd0 Hc0 RB Hle Hn.
  pose proof (pow2_pos 1074 ltac:(lia)) as HT.
  destruct (div_value d c _ _ Hd Hc Hc0) as [(r & Hr & Hnear)|(r & Hr & Hnear)].
  - assert (r ≤ B)%Z by (eapply Nearest_upper; [exact Hc0|exact Hnear|exact RB|done]).
    assert (0 ≤ r)%Z
      by (eapply Nearest_lower; [exact Hc0|exact Hnear|exact representable_0|nia]).
    exists (r / 2 ^ 1074)%Z. split; [by apply floor_value|]. split.
    + apply Z.div_pos; lia.
    + assert (r / 2 ^ 1074 < n + 1)%Z; [|lia].
      apply Z.div_lt_upper_bound; lia.
  - exfalso.
    eapply (no_overflow _ vc r 0 B Hc0 Hnear representable_0 RB); [nia|done].
Qed.

Lemma value_NAK :
  ∃ vN, value NAK_LEN_DEG = Some vN ∧ (0 < vN)%Z
    ∧ (360 * 2 ^ 1074 * 2 ^ 1074 ≤ (55 * 2 ^ 1073) * vN)%Z
    ∧ ((360 * 2 ^ 1074 - 2 ^ 1030) * 2 ^ 1074 ≤ ((27 * 2 ^ 48 - 1) * 2 ^ 1026) * vN)%Z.
Proof.
  eexists. split; [vm_compute; reflexivity|].
  split_and!; apply Z.leb_le || apply Z.ltb_lt; vm_compute; reflexivity.
Qed.

(** The index [Math.floor(d / NAK_LEN_DEG)] of a normalized longitude. *)
Lemma nak_index_range d vd :
  value d = Some vd → (0 ≤ vd ≤ 360 * 2 ^ 1074)%Z →
  ∃ k, whole (JS.floor (d / NAK_LEN_DEG)) k ∧ (0 ≤ k ≤ 27)%Z
       ∧ ((vd < 360 * 2 ^ 1074)%Z → (k ≤ 26)%Z).
Proof.
  intros Hd [H0 H360]. destruct value_NAK as (vN & HN & HNpos & Hup & Hup').
  pose proof (pow2_pos 1074 ltac:(lia)) as HT.
  pose proof (pow2_pos 1073 ltac:(lia)) as HT'.
  assert (2 ^ 1074 = 2 * 2 ^ 1073)%Z as E by (by rewrite <- Z.pow_succ_r).
  destruct (Z.lt_ge_cases vd (360 * 2 ^ 1074)) as [Hlt|Hge].
  - pose proof (below_360 vd (value_representable _ _ Hd) ltac:(lia)) as Hb.
    destruct (floor_div_bounded d NAK_LEN_DEG vd vN ((27 * 2 ^ 48 - 1) * 2 ^ 1026) 26
                Hd HN H0 HNpos) as (k & Hk & Hrange).
    + apply representable_scaled; [done|lia].
    + etrans; [|exact Hup']. apply Z.mul_le_mono_nonneg_r; lia.
    + assert (2 ^ 1074 = 2 ^ 48 * 2 ^ 1026)%Z as -> by (by rewrite <- Z.pow_add_r).
      pose proof (pow2_pos 1026 ltac:(lia)). nia.
    + exists k. split_and!; [done|lia|lia|lia].
  - destruct (floor_div_bounded d NAK_LEN_DEG vd vN (55 * 2 ^ 1073) 27
                Hd HN H0 HNpos) as (k & Hk & Hrange).
    + apply representable_scaled; [done|lia].
    + etrans; [|exact Hup]. apply Z.mul_le_mono_nonneg_r; lia.
    + rewrite E. lia.
    + exists k. split_and!; [done|lia|lia|lia].
Qed.

(** The index [Math.floor(d / 30)] of a normalized longitude. *)
Lemma rashi_index_range d vd :
  value d = Some vd → (0 ≤ vd ≤ 360 * 2 ^ 1074)%Z →
  ∃ k, whole (JS.floor (d / 30)) k ∧ (0 ≤ k ≤ 12)%Z
       ∧ ((vd < 360 * 2 ^ 1074)%Z → (k ≤ 11)%Z).
Proof.
  intros Hd [H0 H360].
  pose proof (pow2_pos 1074 ltac:(lia)) as HT.
  pose proof (pow2_pos 1073 ltac:(lia)) as HT'.
  pose proof (pow2_pos 1025 ltac:(lia)) as HT''.
  assert (2 ^ 1074 = 2 * 2 ^ 1073)%Z as E by (by rewrite <- Z.pow_succ_r).
  assert (2 ^ 1074 = 2 ^ 49 * 2 ^ 1025)%Z as E' by (by rewrite <- Z.pow_add_r).
  assert (2 ^ 1030 = 32 * 2 ^ 1025)%Z as E''
    by (change 32%Z with (2 ^ 5)%Z; by rewrite <- Z.pow_add_r).
  destruct (Z.lt_ge_cases vd (360 * 2 ^ 1074)) as [Hlt|Hge].
  - pose proof (below_360 vd (value_representable _ _ Hd) ltac:(lia)) as Hb.
    destruct (floor_div_bounded d 30 vd _ ((12 * 2 ^ 49 - 1) * 2 ^ 1025) 11
                Hd whole_30 H0 ltac:(lia)) as (k & Hk & Hrange).
    + apply representable_scaled; [done|lia].
    + rewrite E'' in Hb. rewrite E' in Hb at 1.
      change (2 ^ 49)%Z with 562949953421312%Z in *.
      set (q := (2 ^ 1025)%Z) in *. set (T := (2 ^ 1074)%Z) in *. nia.
    + rewrite E'. change (2 ^ 49)%Z with 562949953421312%Z.
      set (q := (2 ^ 1025)%Z) in *. nia.
    + exists k. split_and!; [done|lia|lia|lia].
  - destruct (floor_div_bounded d 30 vd _ (25 * 2 ^ 1073) 12
                Hd whole_30 H0 ltac:(lia)) as (k & Hk & Hrange).
    + apply representable_scaled; [done|lia].
    + rewrite E at 1 2. set (q := (2 ^ 1073)%Z) in *. set (T := (2 ^ 1074)%Z) in *. nia.
    + rewrite E. lia.
    + exists k. split_and!; [done|lia|lia|lia].
Qed.
End Quotients.

(** ** The sign, the nakshatra and the starting lord of a longitude *)

Lemma normalized_value deg :
  is_finite deg = true →
  ∃ r, value (normalize360 deg) = Some r ∧ 0 ≤ r ≤ 360 * 2 ^ 1074
       ∧ ((normalize360 deg <? 360)%float = true → r < 360 * 2 ^ 1074).
Proof.
  intros [v Hv]%is_finite_value.
  destruct (normalize360_value deg v Hv) as (r & Hr & Hrange & _).
  exists r. split_and!; [done|lia|lia|].
  rewrite (ltb_value _ _ _ _ Hr whole_360). by intros ?%Z.ltb_lt.
Qed.

(** X12.  For every finite longitude [getRashi] returns a whole index
    between 0 and 12 and the name [RASHIS[index]]; the index is at most 11,
    so that the name is defined, unless [normalize360] has returned 360. *)
Theorem getRashi_range deg :
  is_finite deg = true →
  ∃ n : nat,
    whole (Utils.rashi_index (Utils.getRashi deg)) (Z.of_nat n)
    ∧ Utils.rashi_name (Utils.getRashi deg) = Utils.RASHIS !! n
    ∧ (n ≤ 12)%nat
    ∧ ((Utils.normalize360 deg <? 360)%float = true → (n ≤ 11)%nat).
Proof.
  intros Hfin. destruct (normalized_value deg Hfin) as (r & Hr & Hrange & Hlt).
  destruct (rashi_index_range _ r Hr Hrange) as (k & Hk & Hk' & Hk'').
  unfold Utils.getRashi. change Utils.normalize360 with normalize360. simpl.
  exists (Z.to_nat k). rewrite Z2Nat.id by lia. split_and!; [done| |lia|].
  - apply arrayGet_value. by rewrite Z2Nat.id by lia.
  - intros H. specialize (Hk'' (Hlt H)). lia.
Qed.

(** X13.  For every finite longitude [getNakshatra] returns a whole index
    between 0 and 27 and the name [NAKS[index]]; the index is at most 26,
    so that the name is defined, unless [normalize360] has returned 360.
    Index and elapsed fraction are those of [nakFromLon], the copy of the
    computation in the dasha engine. *)
Theorem getNakshatra_range deg :
  is_finite deg = true →
  ∃ n : nat,
    whole (Utils.nak_index (Utils.getNakshatra deg)) (Z.of_nat n)
    ∧ Utils.nak_name (Utils.getNakshatra deg) = Utils.NAKS !! n
    ∧ (n ≤ 27)%nat
    ∧ ((Utils.normalize360 deg <? 360)%float = true → (n ≤ 26)%nat)
    ∧ Utils.nak_index (Utils.getNakshatra deg) = index (nakFromLon deg)
    ∧ Utils.nak_fracElapsed (Utils.getNakshatra deg) = fracElapsed (nakFromLon deg).
Proof.
  intros Hfin. destruct (normalized_value deg Hfin) as (r & Hr & Hrange & Hlt).
  destruct (nak_index_range _ r Hr Hrange) as (k & Hk & Hk' & Hk'').
  unfold Utils.getNakshatra. change Utils.normalize360 with normalize360.
  change Utils.NAK_LEN_DEG with NAK_LEN_DEG. simpl.
  exists (Z.to_nat k). rewrite Z2Nat.id by lia. split_and!; [done| |lia| |done|done].
  - apply arrayGet_value. by rewrite Z2Nat.id by lia.
  - intros H. specialize (Hk'' (Hlt H)). lia.
Qed.

Section StartLord.
Context {env : Env}.

Lemma pushMD_throws mdLord mdStart mdEnd :
  JS.toISO mdEnd = None → pushMD mdLord mdStart mdEnd = None.
Proof.
  unfold pushMD. intros ->. destruct (mapM _ _); simpl; [|done].
  by destruct (JS.toISO mdStart).
Qed.

Lemma start_lord_finite lon :
  is_finite lon = true →
  ∃ n : nat, whole (index (nakFromLon lon)) (Z.of_nat n) ∧ (n ≤ 27)%nat
    ∧ startLordOf (nakFromLon lon) = LORDS !! (n mod 9)%nat.
Proof.
  intros Hfin. destruct (normalized_value lon Hfin) as (r & Hr & Hrange & _).
  destruct (nak_index_range _ r Hr Hrange) as (k & Hk & Hk' & _).
  exists (Z.to_nat k). rewrite Z2Nat.id by lia.
  unfold startLordOf, nakFromLon. cbn [index]. split_and!; [done|lia|].
  apply arrayGet_value.
  pose proof (rem_whole _ 9 k 9 Hk ltac:(by apply whole_const) ltac:(done)) as H.
  unfold whole in H. rewrite H. do 2 f_equal.
  rewrite Z.rem_mod_nonneg by lia.
  rewrite Nat2Z.inj_mod, Z2Nat.id by lia. done.
Qed.

(** X14.  A starting lord is found exactly for the finite longitudes: for
    such a longitude the nakshatra index is a whole number [n] between 0
    and 27 and the starting lord is [LORDS[n mod 9]]; a longitude that is
    NaN or infinite passes the guard (it is of type number) but gives no
    starting lord, the anchor's end is NaN and [toISOString] throws a
    RangeError while the first period is built. *)
Theorem start_lord_iff_finite fuel p lon :
  validPayload p = true → moonSiderealDeg p = Some lon →
  (is_finite lon = true →
     ∃ (n : nat) l, whole (index (nakOf p)) (Z.of_nat n) ∧ (n ≤ 27)%nat
       ∧ LORDS !! (n mod 9)%nat = Some l ∧ startLordOf (nakOf p) = Some l)
  ∧ (is_finite lon = false →
       startLordOf (nakOf p) = None ∧ computeVimshottari fuel p = RangeError).
Proof.
  intros Hv Hlon. unfold nakOf. rewrite Hlon. simpl toNumber. split.
  - intros Hfin. destruct (start_lord_finite lon Hfin) as (n & Hn & Hle & Hsl).
    destruct (LORDS !! (n mod 9)%nat) as [l|] eqn:Hl.
    + by exists n, l.
    + apply lookup_ge_None in Hl. simpl in Hl.
      pose proof (Nat.mod_upper_bound n 9 ltac:(done)). lia.
  - intros Hnf.
    assert (startLordOf (nakFromLon lon) = None) as Hsl.
    { by destruct (not_finite lon Hnf) as [->|[->| ->]]. }
    split; [done|].
    assert (startLordOf (nakOf p) = None) as Hsl'
      by (unfold nakOf; by rewrite Hlon).
    pose proof (anchorEndOf_undefined_lord p Hsl') as He.
    unfold computeVimshottari. rewrite Hv. simpl.
    change (nakFromLon (toNumber (moonSiderealDeg p))) with (nakOf p).
    change (capEndOf (birthMsOf p) (default 120%float (totalYears p)))
      with (horizonOf p).
    change (JS.min _ (horizonOf p)) with (anchorEndOf p).
    by rewrite (pushMD_throws _ _ _ He).
Qed.
End StartLord.

(** ** The chart (src/engine.js) *)

(** X15.  [computeKundali] passes every longitude through [normalize360]
    before it asks for the sign and the nakshatra, and the helpers
    normalize once more: on the result of [normalize360], for a finite
    longitude, the sign index is a whole number between 0 and 11 and the
    nakshatra index one between 0 and 26, so both names are defined. *)
Theorem chart_names_defined x :
  is_finite x = true →
  let sid := Utils.normalize360 x in
  ∃ (r n : nat) rashi nak,
    whole (Utils.rashi_index (Utils.getRashi sid)) (Z.of_nat r) ∧ (r ≤ 11)%nat
    ∧ Utils.rashi_name (Utils.getRashi sid) = Some rashi
    ∧ Utils.RASHIS !! r = Some rashi
    ∧ whole (Utils.nak_index (Utils.getNakshatra sid)) (Z.of_nat n) ∧ (n ≤ 26)%nat
    ∧ Utils.nak_name (Utils.getNakshatra sid) = Some nak
    ∧ Utils.NAKS !! n = Some nak.
Proof.
  intros Hfin sid. unfold sid. change Utils.normalize360 with normalize360.
  destruct (normalize360_twice_below x Hfin) as [Hfin' Hlt].
  destruct (normalized_value _ Hfin') as (v & Hv & Hrange & Hbelow).
  specialize (Hbelow Hlt).
  destruct (rashi_index_range _ v Hv Hrange) as (kr & Hkr & Hkr' & Hkr'').
  destruct (nak_index_range _ v Hv Hrange) as (kn & Hkn & Hkn' & Hkn'').
  specialize (Hkr'' Hbelow). specialize (Hkn'' Hbelow).
  unfold Utils.getRashi, Utils.getNakshatra.
  change Utils.normalize360 with normalize360.
  change Utils.NAK_LEN_DEG with NAK_LEN_DEG. cbn [Utils.rashi_index Utils.rashi_name
    Utils.nak_index Utils.nak_name].
  destruct (Utils.RASHIS !! Z.to_nat kr) as [rashi|] eqn:Er;
    [|apply lookup_ge_None in Er; simpl in Er; lia].
  destruct (Utils.NAKS !! Z.to_nat kn) as [nak|] eqn:En;
    [|apply lookup_ge_None in En; simpl in En; lia].
  exists (Z.to_nat kr), (Z.to_nat kn), rashi, nak. rewrite !Z2Nat.id by lia.
  split_and!; [done|lia| |done|done|lia| |done].
  - rewrite <- Er. apply arrayGet_value. by rewrite Z2Nat.id by lia.
  - rewrite <- En. apply arrayGet_value. by rewrite Z2Nat.id by lia.
Qed.

Lemma houseNumber_whole p a (np na : nat) :
  whole p (Z.of_nat np) → whole a (Z.of_nat na) → (np ≤ 11)%nat → (na ≤ 11)%nat →
  let h := (Z.of_nat np - Z.of_nat na) mod 12 + 1 in
  whole (houseNumber p a) h ∧ 1 ≤ h ≤ 12 ∧ (h = 1 ↔ np = na).
Proof.
  intros Hp Ha Hnp Hna h.
  pose proof (Z.mod_pos_bound (Z.of_nat np - Z.of_nat na) 12 ltac:(lia)) as Hm.
  split; [|split; [unfold h; lia|]].
  - unfold houseNumber.
    pose proof (sub_whole _ _ _ _ Hp Ha ltac:(lia)) as H1.
    pose proof (add_whole _ 12 _ 12 H1 whole_12 ltac:(lia)) as H2.
    pose proof (rem_whole _ 12 _ 12 H2 whole_12 ltac:(done)) as H3.
    pose proof (add_whole _ 1 _ 1 H3 whole_1) as H4.
    rewrite Z.rem_mod_nonneg in H4 by lia.
    replace ((Z.of_nat np - Z.of_nat na + 12) mod 12)
      with ((Z.of_nat np - Z.of_nat na) mod 12) in H4.
    + apply H4. lia.
    + replace (Z.of_nat np - Z.of_nat na + 12)
        with (Z.of_nat np - Z.of_nat na + 1 * 12) by lia.
      by rewrite Z.mod_add.
  - unfold h. split.
    + intros E. assert ((Z.of_nat np - Z.of_nat na) mod 12 = 0) as E0 by lia.
      apply Z.mod_divide in E0 as [c Hc]; lia.
    + intros ->. by rewrite Z.sub_diag.
Qed.

Lemma chart_sign_index x :
  is_finite x = true →
  ∃ r : nat,
    whole (Utils.rashi_index (Utils.getRashi (Utils.normalize360 x))) (Z.of_nat r)
    ∧ (r ≤ 11)%nat.
Proof.
  intros Hfin. change Utils.normalize360 with normalize360.
  destruct (normalize360_twice_below x Hfin) as [Hfin' Hlt].
  destruct (normalized_value _ Hfin') as (v & Hv & Hrange & Hbelow).
  specialize (Hbelow Hlt).
  destruct (rashi_index_range _ v Hv Hrange) as (kr & Hkr & Hkr' & Hkr'').
  specialize (Hkr'' Hbelow).
  exists (Z.to_nat kr). rewrite Z2Nat.id by lia. split; [|lia].
  unfold Utils.getRashi. change Utils.normalize360 with normalize360. done.
Qed.

(** X16.  The whole-sign house [computeKundali] gives a planet, from the
    sign indices of the planet and of the ascendant as it computes them
    (finite longitudes passed through [normalize360] and [getRashi]): both
    indices are whole numbers between 0 and 11 and the house is a whole
    number between 1 and 12, the planet's sign counted from the
    ascendant's sign, which is house 1. *)
Theorem house_of_planet planet asc :
  is_finite planet = true → is_finite asc = true →
  let planetRashiIndex :=
    Utils.rashi_index (Utils.getRashi (Utils.normalize360 planet)) in
  let ascRashiIndex :=
    Utils.rashi_index (Utils.getRashi (Utils.normalize360 asc)) in
  ∃ np na : nat,
    whole planetRashiIndex (Z.of_nat np) ∧ (np ≤ 11)%nat
    ∧ whole ascRashiIndex (Z.of_nat na) ∧ (na ≤ 11)%nat
    ∧ whole (houseNumber planetRashiIndex ascRashiIndex)
            ((Z.of_nat np - Z.of_nat na) mod 12 + 1)
    ∧ 1 ≤ (Z.of_nat np - Z.of_nat na) mod 12 + 1 ≤ 12
    ∧ ((Z.of_nat np - Z.of_nat na) mod 12 + 1 = 1 ↔ np = na).
Proof.
  intros Hp Ha pIdx aIdx.
  destruct (chart_sign_index planet Hp) as (np & Hnp & Hnp').
  destruct (chart_sign_index asc Ha) as (na & Hna & Hna').
  destruct (houseNumber_whole pIdx aIdx np na Hnp Hna Hnp' Hna') as (H1 & H2 & H3).
  exists np, na. exact (conj Hnp (conj Hnp' (conj Hna (conj Hna' (conj H1 (conj H2 H3)))))).
Qed.

(** ** Multiplication and [Math.round] *)

Lemma SFmul_value sx mx ex sy my ey :
  bounded prec emax mx ex = true → bounded prec emax my ey = true →
  let N := sulps sx mx ex * sulps sy my ey in
  match SFmul prec emax (S754_finite sx mx ex) (S754_finite sy my ey) with
  | S754_zero _ => Nearest N (2 ^ 1074) 0
  | S754_finite s m e => bounded prec emax m e = true ∧ Nearest N (2 ^ 1074) (sulps s m e)
  | S754_infinity _ => ∃ r, 2 ^ 2098 ≤ Z.abs r ∧ Nearest N (2 ^ 1074) r
  | S754_nan => False
  end.
Proof.
  intros Vx Vy N.
  pose proof Vx as Cx. pose proof Vy as Cy.
  unfold bounded, canonical_mantissa in Cx, Cy.
  apply andb_true_iff in Cx as [Cx _]. apply andb_true_iff in Cy as [Cy _].
  apply Z.eqb_eq in Cx, Cy. rewrite fexp_eq in Cx, Cy.
  apply bounded_qexp in Vx as (Hex & _). apply bounded_qexp in Vy as (Hey & _).
  pose proof (pow2_pos 1074 ltac:(lia)) as HT.
  unfold SFmul. rewrite Pos2Z.inj_mul.
  set (P := Zpos mx * Zpos my).
  assert (0 < P) as HP by (unfold P; lia).
  assert (ex + ey ≤ fexp prec emax (Zdigits2 P + (ex + ey))) as Hn1.
  { rewrite fexp_eq.
    assert (Zpos (digits2_pos mx) + Zpos (digits2_pos my) - 1 ≤ Zdigits2 P); [|lia].
    rewrite Zdigits2_log2 by done.
    pose proof (Zdigits2_log2 (Zpos mx) ltac:(done)) as Dx.
    pose proof (Zdigits2_log2 (Zpos my) ltac:(done)) as Dy.
    simpl Zdigits2 in Dx, Dy.
    pose proof (Z.log2_mul_below (Zpos mx) (Zpos my) ltac:(done) ltac:(done)).
    fold P in H. lia. }
  pose proof (binary_round_aux_Nearest (xorb sx sy) P (ex + ey) P 1
                ltac:(lia) ltac:(lia) ltac:(by rewrite Z.div_1_r) Hn1) as Haux.
  cbv zeta in Haux. rewrite locOf_1 in Haux.
  set (e1 := fexp prec emax (Zdigits2 P + (ex + ey))) in *.
  destruct Haux as [HD1 Haux].
  assert (-1074 ≤ e1) as He1 by (unfold e1; rewrite fexp_eq; lia).
  assert (P * 2 ^ (e1 + 1074) * 2 ^ 1074
          = ulps mx ex * ulps my ey * (1 * 2 ^ (e1 - (ex + ey)))) as Heq.
  { unfold ulps, P.
    assert (2 ^ (e1 + 1074) * 2 ^ 1074
            = 2 ^ (ex + 1074) * 2 ^ (ey + 1074) * 2 ^ (e1 - (ex + ey))) as Hp.
    { rewrite <- !Z.pow_add_r by lia. f_equal. lia. }
    replace (Zpos mx * Zpos my * 2 ^ (e1 + 1074) * 2 ^ 1074)
      with (Zpos mx * Zpos my * (2 ^ (e1 + 1074) * 2 ^ 1074)) by ring.
    rewrite Hp. ring. }
  assert (∀ r, Nearest (P * 2 ^ (e1 + 1074)) (1 * 2 ^ (e1 - (ex + ey))) r
               → Nearest N (2 ^ 1074) (if xorb sx sy then - r else r)) as Hconv.
  { intros r Hr.
    apply (Nearest_equiv _ _ (ulps mx ex * ulps my ey) (2 ^ 1074)) in Hr;
      [|done|done|done].
    unfold N, sulps. destruct sx, sy; simpl.
    - by replace (- ulps mx ex * - ulps my ey) with (ulps mx ex * ulps my ey) by lia.
    - replace (- ulps mx ex * ulps my ey) with (- (ulps mx ex * ulps my ey)) by lia.
      by apply Nearest_opp.
    - replace (ulps mx ex * - ulps my ey) with (- (ulps mx ex * ulps my ey)) by lia.
      by apply Nearest_opp.
    - done. }
  destruct (binary_round_aux prec emax (xorb sx sy) P (ex + ey) loc_Exact)
    as [s0|s0| |s0 m e].
  - destruct Haux as [_ H]. apply Hconv in H. by destruct (xorb sx sy).
  - destruct Haux as (_ & r & Hr & H). apply Hconv in H.
    eexists. split; [|exact H]. destruct (xorb sx sy); lia.
  - done.
  - destruct Haux as (-> & Hb & H). split; [done|]. apply Hconv in H.
    unfold sulps. by destruct (xorb sx sy).
Qed.

Lemma mul_value x y vx vy :
  value x = Some vx → value y = Some vy →
  (∃ r, value (x * y) = Some r ∧ Nearest (vx * vy) (2 ^ 1074) r)
  ∨ (∃ r, 2 ^ 2098 ≤ Z.abs r ∧ Nearest (vx * vy) (2 ^ 1074) r).
Proof.
  unfold value. rewrite mul_spec. unfold SF64mul. intros Hx Hy.
  pose proof (Prim2SF_valid x) as Vx. pose proof (Prim2SF_valid y) as Vy.
  pose proof (pow2_pos 1074 ltac:(lia)) as HT.
  destruct (Prim2SF x) as [sx|sx| |sx mx ex], (Prim2SF y) as [sy|sy| |sy my ey];
    simpl in Hx, Hy, Vx, Vy; try done; injection Hx as <-; injection Hy as <-.
  - left. exists 0. split; [done|]. by apply Nearest_0.
  - left. exists 0. split; [done|]. by apply Nearest_0.
  - left. exists 0. split; [done|]. rewrite Z.mul_0_r. by apply Nearest_0.
  - pose proof (SFmul_value sx mx ex sy my ey Vx Vy) as H. cbv zeta in H.
    destruct (SFmul prec emax _ _) as [s|s| |s m e]; try done.
    + left. by exists 0.
    + by right.
    + left. destruct H as [_ H]. by eexists.
Qed.

(** [Math.round] is exact: the value plus one half, rounded down. *)
Lemma round_value x vx :
  value x = Some vx →
  value (JS.round x) = Some ((2 * vx + 2 ^ 1074) / (2 * 2 ^ 1074) * 2 ^ 1074).
Proof.
  unfold value at 1. intros Hx. unfold JS.round.
  pose proof (Prim2SF_valid x) as Vx.
  pose proof (pow2_pos 1074 ltac:(lia)) as HT.
  destruct (Prim2SF x) as [sx|sx| |sx mx ex] eqn:Ex; simpl in *; try done;
    injection Hx as <-.
  { unfold value. rewrite Ex. cbn [sval].
    rewrite Z.mul_0_r, Z.add_0_l, Z.div_small by lia. done. }
  pose proof (bounded_range _ _ Vx) as (Hmx & Hex & _).
  set (M := if sx then Zneg mx else Zpos mx).
  destruct (Z.leb_spec 0 ex) as [H0|H0].
  - unfold value. rewrite Ex. simpl. f_equal.
    assert (sulps sx mx ex = M * 2 ^ ex * 2 ^ 1074) as ->.
    { unfold sulps, ulps, M. rewrite Z.pow_add_r by lia. destruct sx; lia. }
    replace (2 * (M * 2 ^ ex * 2 ^ 1074) + 2 ^ 1074)
      with (2 ^ 1074 + (M * 2 ^ ex) * (2 * 2 ^ 1074)) by ring.
    rewrite Z.div_add by lia. rewrite Z.div_small by lia. lia.
  - rewrite Z.shiftr_div_pow2 by lia.
    pose proof (pow2_pos (- ex) ltac:(lia)) as Pk.
    pose proof (pow2_pos (ex + 1074) ltac:(lia)) as Pc.
    assert (2 ^ 1074 = 2 ^ (- ex) * 2 ^ (ex + 1074)) as HTs.
    { rewrite <- Z.pow_add_r by lia. f_equal. lia. }
    assert (sulps sx mx ex = M * 2 ^ (ex + 1074)) as ->.
    { unfold sulps, ulps, M. destruct sx; lia. }
    assert (2 ^ (- ex + 1) = 2 * 2 ^ (- ex)) as Hk1.
    { rewrite Z.pow_add_r by lia. lia. }
    assert ((2 * (M * 2 ^ (ex + 1074)) + 2 ^ 1074) / (2 * 2 ^ 1074)
            = (2 * M + 2 ^ (- ex)) / 2 ^ (- ex + 1)) as ->.
    { rewrite Hk1. rewrite HTs at 1 2.
      replace (2 * (M * 2 ^ (ex + 1074)) + 2 ^ (- ex) * 2 ^ (ex + 1074))
        with ((2 * M + 2 ^ (- ex)) * 2 ^ (ex + 1074)) by ring.
      replace (2 * (2 ^ (- ex) * 2 ^ (ex + 1074)))
        with (2 * 2 ^ (- ex) * 2 ^ (ex + 1074)) by ring.
      by rewrite Z.div_mul_cancel_r by lia. }
    set (n := (2 * M + 2 ^ (- ex)) / 2 ^ (- ex + 1)).
    rewrite (of_scaled_value n 0 sx); [done|lia|].
    apply representable_scaled; [|lia].
    pose proof (Z.div_mod (2 * M + 2 ^ (- ex)) (2 ^ (- ex + 1)) ltac:(lia)) as Hdm.
    pose proof (Z.mod_pos_bound (2 * M + 2 ^ (- ex)) (2 ^ (- ex + 1)) ltac:(lia)) as Hb.
    fold n in Hdm. rewrite Hk1 in *.
    assert (2 ≤ 2 ^ (- ex)).
    { change 2 with (2 ^ 1) at 1. apply Z.pow_le_mono_r; lia. }
    unfold M in *. set (K := 2 ^ (- ex)) in *. destruct sx; nia.
Qed.

(** ** Sign and degree within the sign *)

(** The largest double below a double [B]. *)
Lemma pred_bound v B :
  representable v → representable B → 0 ≤ v < B → v ≤ B - 2 ^ qexp (B - 1).
Proof.
  intros [Hv _] [HB _] [H0 Hlt].
  rewrite Z.abs_eq in Hv by lia. rewrite Z.abs_eq in HB by lia.
  pose proof (qexp_nonneg (B - 1)) as Hq0.
  pose proof (pow2_pos _ Hq0) as Hq.
  pose proof (mod_pow2_le _ _ _ Hq0 (qexp_mono (B - 1) B ltac:(lia)) HB) as HBq.
  pose proof (multiple_of _ B Hq HBq) as EB.
  destruct (Z.le_gt_cases (Z.log2 (B - 1) - 52) 0) as [Hsmall|Hbig].
  { assert (qexp (B - 1) = 0) as E0 by (unfold qexp; lia). rewrite E0.
    change (2 ^ 0) with 1. lia. }
  assert (qexp (B - 1) = Z.log2 (B - 1) - 52) as Ek by (unfold qexp; lia).
  assert (0 < B - 1) as HB1.
  { destruct (Z.le_gt_cases (B - 1) 0) as [Hle|]; [|lia].
    rewrite Z.log2_nonpos in Hbig by done. lia. }
  pose proof (Z.log2_spec (B - 1) HB1) as [Hlo Hhi].
  assert (2 ^ Z.log2 (B - 1) = 2 ^ 52 * 2 ^ qexp (B - 1)) as Hsplit.
  { rewrite Ek, <- Z.pow_add_r by lia. f_equal. lia. }
  set (q := 2 ^ qexp (B - 1)) in *.
  destruct (Z.lt_ge_cases v (2 ^ Z.log2 (B - 1))) as [Hvlt|Hvge].
  - assert (2 ^ 52 < B / q); [|nia].
    destruct (Z.le_gt_cases (B / q) (2 ^ 52)); [nia|done].
  - assert (Z.log2 v = Z.log2 (B - 1)) as HlA.
    { apply Z.le_antisymm; [apply Z.log2_le_mono; lia|].
      apply Z.log2_le_pow2; [lia|done]. }
    assert (qexp v = qexp (B - 1)) as Eqv by (unfold qexp; by rewrite HlA).
    rewrite Eqv in Hv. fold q in Hv.
    pose proof (multiple_of q v Hq Hv) as Ev.
    assert (v / q < B / q); [|nia].
    destruct (Z.le_gt_cases (B / q) (v / q)); [nia|done].
Qed.

Lemma sign_grid k :
  1 ≤ k ≤ 12 →
  30 * 2 ^ qexp (k * 2 ^ 1074 - 1) ≤ 2 ^ qexp (30 * k * 2 ^ 1074 - 1)
  ∧ representable (k * 2 ^ 1074 - 2 ^ qexp (k * 2 ^ 1074 - 1)).
Proof.
  intros Hk.
  assert (k = 1 ∨ k = 2 ∨ k = 3 ∨ k = 4 ∨ k = 5 ∨ k = 6 ∨ k = 7 ∨ k = 8
          ∨ k = 9 ∨ k = 10 ∨ k = 11 ∨ k = 12) as Hc by lia.
  destruct Hc as [->|[->|[->|[->|[->|[->|[->|[->|[->|[->|[->| ->]]]]]]]]]]];
    (split; [apply Z.leb_le; vm_compute; reflexivity|]);
    (split; [vm_compute; reflexivity|apply Z.ltb_lt; vm_compute; reflexivity]).
Qed.

(** The quotient by 30 never rounds into the next sign. *)
Lemma rashi_index_exact d r :
  value d = Some r → 0 ≤ r ≤ 360 * 2 ^ 1074 →
  whole (JS.floor (d / 30)) (r / (30 * 2 ^ 1074)).
Proof.
  intros Hd [H0 H360]. pose proof (pow2_pos 1074 ltac:(lia)) as HT.
  set (T := 2 ^ 1074) in *. set (m := r / (30 * T)).
  pose proof (Z.div_mod r (30 * T) ltac:(lia)) as Hdm. fold m in Hdm.
  pose proof (Z.mod_pos_bound r (30 * T) ltac:(lia)) as Hmod.
  assert (0 ≤ m ≤ 12) as Hm.
  { split; [apply Z.div_pos; lia|]. unfold m. apply Z.div_le_upper_bound; lia. }
  pose proof (value_representable _ _ Hd) as Rr.
  destruct (div_value d 30 r _ Hd whole_30 ltac:(lia)) as [(q & Hq & Hn)|(q & Hq & Hn)];
    fold T in Hn; cycle 1.
  { exfalso. eapply (no_overflow _ (30 * T) q 0 (13 * T) ltac:(lia) Hn representable_0);
      [apply representable_whole; lia|nia|done]. }
  assert (m * T ≤ q) as Hlow.
  { eapply (Nearest_lower _ (30 * T)); [lia|exact Hn| |nia].
    apply representable_whole. lia. }
  assert (q < (m + 1) * T) as Hup.
  { destruct (Z.eq_dec m 12) as [E12|Hne].
    - assert (q ≤ 12 * T); [|lia].
      eapply (Nearest_upper _ (30 * T)); [lia|exact Hn| |nia].
      apply representable_whole. lia.
    - destruct (sign_grid (m + 1) ltac:(lia)) as [Hgrid RB]. fold T in Hgrid, RB.
      assert (representable (30 * (m + 1) * T)) as RBd
        by (apply representable_whole; lia).
      pose proof (pred_bound r _ Rr RBd ltac:(nia)) as Hpred.
      pose proof (pow2_pos _ (qexp_nonneg ((m + 1) * T - 1))) as Hq2.
      assert (q ≤ (m + 1) * T - 2 ^ qexp ((m + 1) * T - 1)); [|lia].
      eapply (Nearest_upper _ (30 * T)); [lia|exact Hn|exact RB|].
      set (q1 := 2 ^ qexp (30 * (m + 1) * T - 1)) in *.
      set (q2 := 2 ^ qexp ((m + 1) * T - 1)) in *. nia. }
  unfold whole. rewrite (floor_value _ _ Hq). do 2 f_equal.
  apply div_char; lia.
Qed.

Lemma degree_in_sign_value deg :
  is_finite deg = true →
  ∃ r, value (normalize360 deg) = Some r ∧ 0 ≤ r ≤ 360 * 2 ^ 1074
    ∧ value (Utils.value (Utils.getDegreeInSign deg)) = Some (r mod (30 * 2 ^ 1074)).
Proof.
  intros Hfin. destruct (normalized_value deg Hfin) as (r & Hr & Hrange & _).
  pose proof (pow2_pos 1074 ltac:(lia)) as HT.
  exists r. split_and!; [done|lia|lia|].
  unfold Utils.getDegreeInSign. change Utils.normalize360 with normalize360. simpl.
  rewrite (rem_value _ 30 r _ Hr whole_30) by lia.
  by rewrite Z.rem_mod_nonneg by lia.
Qed.

(** X17.  Sign and degree within the sign always agree: for every finite
    longitude, with [d] the normalized longitude, the sign index is exactly
    the whole part of [d / 30] (the binary division never rounds a
    longitude into the next sign) and the degree within the sign is exactly
    [d - 30 * index], a number of [0, 30). *)
Theorem sign_and_degree_exact deg :
  is_finite deg = true →
  ∃ r w,
    value (Utils.normalize360 deg) = Some r
    ∧ whole (Utils.rashi_index (Utils.getRashi deg)) (r / (30 * 2 ^ 1074))
    ∧ value (Utils.value (Utils.getDegreeInSign deg)) = Some w
    ∧ 0 ≤ w < 30 * 2 ^ 1074
    ∧ r = r / (30 * 2 ^ 1074) * (30 * 2 ^ 1074) + w.
Proof.
  intros Hfin. change Utils.normalize360 with normalize360.
  destruct (degree_in_sign_value deg Hfin) as (r & Hr & Hrange & Hw).
  pose proof (pow2_pos 1074 ltac:(lia)) as HT.
  exists r, (r mod (30 * 2 ^ 1074)).
  pose proof (Z.mod_pos_bound r (30 * 2 ^ 1074) ltac:(lia)).
  pose proof (Z.div_mod r (30 * 2 ^ 1074) ltac:(lia)).
  split_and!; [done| |done|lia|lia|lia].
  unfold Utils.getRashi. change Utils.normalize360 with normalize360. simpl.
  by apply rashi_index_exact.
Qed.

(** ** Degrees, minutes and seconds *)

Lemma whole_60 : whole 60 60.
Proof. by apply whole_const. Qed.

Lemma sub_floor_value x vx :
  value x = Some vx → 0 ≤ vx →
  value (x - JS.floor x) = Some (vx mod 2 ^ 1074).
Proof.
  intros Hx H0. pose proof (pow2_pos 1074 ltac:(lia)) as HT.
  pose proof (floor_value x vx Hx) as Hf.
  pose proof (Z.div_mod vx (2 ^ 1074) ltac:(lia)) as Hdm.
  pose proof (Z.mod_pos_bound vx (2 ^ 1074) HT) as Hmod.
  set (rho := vx mod 2 ^ 1074) in *.
  assert (representable rho) as Rrho.
  { destruct (value_representable _ _ Hx) as [Hgrid _].
    rewrite Z.abs_eq in Hgrid by done.
    split; [|rewrite Z.abs_eq by lia;
             assert (2 ^ 1074 < 2 ^ 2098) by (by apply Z.pow_lt_mono_r); lia].
    rewrite Z.abs_eq by lia.
    pose proof (qexp_nonneg rho) as Hj0. pose proof (pow2_pos _ Hj0) as Hj.
    assert (qexp rho ≤ 1074) as Hj1.
    { unfold qexp. destruct (Z.le_gt_cases rho 0) as [|Hpos].
      - rewrite Z.log2_nonpos by done. lia.
      - assert (Z.log2 rho < 1074) by (apply Z.log2_lt_pow2; lia). lia. }
    pose proof (mod_pow2_le _ _ _ Hj0 (qexp_mono rho vx ltac:(lia)) Hgrid) as Hvx.
    assert (2 ^ 1074 mod 2 ^ qexp rho = 0) as HTj.
    { apply (mod_pow2_le _ _ 1074); [done|done|]. by apply Z.mod_same; lia. }
    apply Z.mod_divide in Hvx; [|lia]. apply Z.mod_divide in HTj; [|lia].
    apply Z.mod_divide; [lia|].
    assert ((2 ^ qexp rho | vx - vx / 2 ^ 1074 * 2 ^ 1074)) as Hdiv
      by (apply Z.divide_sub_r; [done|by apply Z.divide_mul_r]).
    by replace (vx - vx / 2 ^ 1074 * 2 ^ 1074) with rho in Hdiv by lia. }
  destruct (sub_value _ _ _ _ Hx Hf) as [(r & Hr & Hn)|(r & Hr & Hn)].
  - rewrite Hr. f_equal.
    eapply (Nearest_exact _ 1); [lia|exact Hn|exact Rrho|lia].
  - exfalso. eapply (no_overflow _ 1 r _ _ ltac:(lia) Hn Rrho Rrho); [lia|done].
Qed.

Lemma below_one u :
  representable u → 0 ≤ u < 2 ^ 1074 → u ≤ 2 ^ 1074 - 2 ^ 1021.
Proof.
  intros Ru Hu.
  pose proof (pred_bound u (2 ^ 1074) Ru (representable_whole 1 ltac:(done)) Hu) as H.
  by assert (qexp (2 ^ 1074 - 1) = 1021) as <- by (vm_compute; reflexivity).
Qed.

(** A fraction of a degree (or of a minute) times 60 stays below 60. *)
Lemma times60_range u vu :
  value u = Some vu → 0 ≤ vu < 2 ^ 1074 →
  ∃ r, value (u * 60) = Some r ∧ 0 ≤ r < 60 * 2 ^ 1074.
Proof.
  intros Hu Hrange. pose proof (pow2_pos 1074 ltac:(lia)) as HT.
  pose proof (below_one vu (value_representable _ _ Hu) Hrange) as Hb.
  assert (2 ^ 1074 = 2 ^ 53 * 2 ^ 1021) as E by (by rewrite <- Z.pow_add_r).
  assert (2 ^ 1027 = 2 ^ 6 * 2 ^ 1021) as E' by (by rewrite <- Z.pow_add_r).
  pose proof (pow2_pos 1021 ltac:(lia)) as Hq.
  destruct (mul_value u 60 vu _ Hu whole_60) as [(r & Hr & Hn)|(r & Hr & Hn)]; cycle 1.
  { exfalso.
    eapply (no_overflow _ (2 ^ 1074) r 0 (60 * 2 ^ 1074) HT Hn representable_0);
      [apply representable_whole; lia|nia|done]. }
  exists r. split; [done|]. split.
  - eapply (Nearest_lower _ (2 ^ 1074)); [done|exact Hn|exact representable_0|nia].
  - destruct Hn as [_ Hhalf].
    rewrite (Z.abs_eq (vu * (60 * 2 ^ 1074))) in Hhalf by nia.
    replace (vu * (60 * 2 ^ 1074)) with (60 * vu * 2 ^ 1074) in Hhalf by ring.
    rewrite Z.div_mul in Hhalf by lia.
    assert (2 ^ qexp (60 * vu) ≤ 2 ^ 1027) as Hqle.
    { apply Z.pow_le_mono_r; [lia|].
      etrans; [apply (qexp_mono _ (60 * 2 ^ 1074)); lia|].
      by vm_compute. }
    replace (r * 2 ^ 1074 - 60 * vu * 2 ^ 1074)
      with ((r - 60 * vu) * 2 ^ 1074) in Hhalf by ring.
    rewrite Z.abs_mul, (Z.abs_eq (2 ^ 1074)) in Hhalf by lia.
    assert (2 * Z.abs (r - 60 * vu) ≤ 2 ^ qexp (60 * vu)) as Hh by nia.
    rewrite E' in Hqle. rewrite E in *.
    change (2 ^ 53) with 9007199254740992 in *. change (2 ^ 6) with 64 in *.
    set (q := 2 ^ 1021) in *. lia.
Qed.

Lemma toDMS_range x vx :
  value x = Some vx → 0 ≤ vx →
  ∃ m s,
    whole (Utils.d (Utils.toDMS x)) (vx / 2 ^ 1074)
    ∧ whole (Utils.m (Utils.toDMS x)) m ∧ 0 ≤ m ≤ 59
    ∧ whole (Utils.s (Utils.toDMS x)) s ∧ 0 ≤ s ≤ 60.
Proof.
  intros Hx H0. pose proof (pow2_pos 1074 ltac:(lia)) as HT.
  unfold Utils.toDMS. simpl.
  pose proof (sub_floor_value x vx Hx H0) as Hu.
  pose proof (Z.mod_pos_bound vx (2 ^ 1074) HT) as Hub.
  destruct (times60_range _ _ Hu Hub) as (r1 & Hr1 & Hr1b).
  pose proof (floor_value _ _ Hr1) as Hm.
  pose proof (sub_floor_value _ _ Hr1 ltac:(lia)) as Hv.
  pose proof (Z.mod_pos_bound r1 (2 ^ 1074) HT) as Hvb.
  destruct (times60_range _ _ Hv Hvb) as (r2 & Hr2 & Hr2b).
  pose proof (round_value _ _ Hr2) as Hs.
  exists (r1 / 2 ^ 1074), ((2 * r2 + 2 ^ 1074) / (2 * 2 ^ 1074)).
  split_and!; [by apply floor_value|done| | |done| |].
  - apply Z.div_pos; lia.
  - assert (r1 / 2 ^ 1074 < 60); [|lia]. apply Z.div_lt_upper_bound; lia.
  - apply Z.div_pos; lia.
  - assert ((2 * r2 + 2 ^ 1074) / (2 * 2 ^ 1074) < 61); [|lia].
    apply Z.div_lt_upper_bound; lia.
Qed.

(** X18.  The degree within the sign as degrees, minutes and seconds, for
    every finite longitude: the degrees are the whole part of the value, 0
    to 29; the minutes are a whole number from 0 to 59; the seconds are a
    whole number from 0 to 60, and 60 does occur (29.9999999 degrees is
    rendered as 29 degrees, 59 minutes, 60 seconds). *)
Theorem degree_minutes_seconds :
  (∀ deg, is_finite deg = true →
     let g := Utils.getDegreeInSign deg in
     ∃ w m s,
       value (Utils.value g) = Some w
       ∧ whole (Utils.d (Utils.dms g)) (w / 2 ^ 1074) ∧ 0 ≤ w / 2 ^ 1074 ≤ 29
       ∧ whole (Utils.m (Utils.dms g)) m ∧ 0 ≤ m ≤ 59
       ∧ whole (Utils.s (Utils.dms g)) s ∧ 0 ≤ s ≤ 60)
  ∧ Utils.dms (Utils.getDegreeInSign 0x1.dfffffca4f091p+4)
    = {| Utils.d := 29; Utils.m := 59; Utils.s := 60 |}.
Proof.
  split; [|by vm_compute].
  intros deg Hfin g. pose proof (pow2_pos 1074 ltac:(lia)) as HT.
  destruct (degree_in_sign_value deg Hfin) as (r & _ & _ & Hw).
  pose proof (Z.mod_pos_bound r (30 * 2 ^ 1074) ltac:(lia)) as Hwb.
  set (w := r mod (30 * 2 ^ 1074)) in *.
  destruct (toDMS_range _ w Hw ltac:(lia)) as (m & s & Hd & Hm & Hmb & Hs & Hsb).
  exists w, m, s. split_and!; try done; try lia.
  - apply Z.div_pos; lia.
  - assert (w / 2 ^ 1074 < 30); [|lia]. apply Z.div_lt_upper_bound; lia.
Qed.

(** ** Instances of the further theorems *)

Lemma siblings_contiguous_witness :
  ∃ m, head (sequence Examples.moon45) = Some m
    ∧ (∃ b, chained (md_start m) (subInterval <$> antar m) b)
    ∧ ∀ a, a ∈ antar m →
        ∃ b, chained (ad_start a) (subSubInterval <$> pratyantar a) b.
Proof.
  assert (∃ m, head (sequence Examples.moon45) = Some m) as [m Hm]
    by (eexists; by vm_compute).
  destruct (siblings_contiguous (env := Examples.env) 4%nat
              (Examples.payload "2000-01-01" 45 (Some 1%float)) Examples.moon45 m)
    as [H1 H2].
  - by vm_compute.
  - apply (list_elem_of_lookup_2 _ 0%nat). rewrite <- head_lookup. exact Hm.
  - exists m. exact (conj Hm (conj H1 H2)).
Defined.

Lemma major_lords_order_witness :
  ∃ l, startLord (meta Examples.moon0_250) = Some l
    ∧ (md_lord <$> sequence Examples.moon0_250)
        `prefix_of` (Some <$> l :: visited 4 (rotateFromStart (Some l))).
Proof.
  apply (major_lords_order (env := Examples.env) 4%nat
           (Examples.payload "2000-01-01" 0 (Some 250%float))).
  vm_compute. reflexivity.
Defined.

(** With a horizon of 250 years the nineteenth Major period is Venus: Ketu,
    the starting lord, is left out after the second Mercury. *)
Lemma start_lord_left_out_in_third_round :
  md_lord <$> sequence Examples.moon0_250
  = Some <$> [Ketu; Venus; Sun; Moon; Mars; Rahu; Jupiter; Saturn; Mercury;
              Ketu; Venus; Sun; Moon; Mars; Rahu; Jupiter; Saturn; Mercury;
              Venus].
Proof. vm_compute. reflexivity. Qed.

Lemma major_periods_forward_witness :
  ∃ m, sequence Examples.moon0 !! 1%nat = Some m
    ∧ md_start m ≤ md_end m
    ∧ ((1 + 1 < length (sequence Examples.moon0))%nat → md_start m < md_end m).
Proof.
  assert (∃ m, sequence Examples.moon0 !! 1%nat = Some m) as [m Hm]
    by (eexists; vm_compute; reflexivity).
  exists m. split; [exact Hm|].
  apply (major_periods_forward (env := Examples.env) 4%nat
           (Examples.payload "2000-01-01" 0 None) Examples.moon0 1%nat m).
  - vm_compute. reflexivity.
  - exact Hm.
  - lia.
Defined.

Lemma start_lord_iff_finite_witness :
  (∃ (n : nat) l,
     whole (index (nakOf (Examples.payload "2000-01-01" 45 None))) (Z.of_nat n)
     ∧ (n ≤ 27)%nat ∧ LORDS !! (n mod 9)%nat = Some l
     ∧ startLordOf (nakOf (Examples.payload "2000-01-01" 45 None)) = Some l)
  ∧ startLordOf (nakOf (Examples.payload "2000-01-01" nan None)) = None
  ∧ computeVimshottari (env := Examples.env) 4%nat
      (Examples.payload "2000-01-01" nan None) = RangeError.
Proof.
  split.
  - apply (proj1 (start_lord_iff_finite (env := Examples.env) 4%nat
                    (Examples.payload "2000-01-01" 45 None) 45
                    ltac:(reflexivity) ltac:(reflexivity))).
    reflexivity.
  - apply (proj2 (start_lord_iff_finite (env := Examples.env) 4%nat
                    (Examples.payload "2000-01-01" nan None) nan
                    ltac:(reflexivity) ltac:(reflexivity))).
    reflexivity.
Defined.

Lemma normalize360_range_witness :
  (0 <=? normalize360 Examples.lon_tiny_negative)%float = true
  ∧ (normalize360 Examples.lon_tiny_negative <=? 360)%float = true
  ∧ ((0 <=? Examples.lon_tiny_negative)%float = true
     → (normalize360 Examples.lon_tiny_negative <? 360)%float = true).
Proof.
  apply (proj1 (normalize360_range Examples.lon_tiny_negative)). reflexivity.
Defined.

Lemma normalize360_idempotent_witness :
  normalize360 (normalize360 Examples.lon_tiny_negative)
  = if (normalize360 Examples.lon_tiny_negative <? 360)%float
    then normalize360 Examples.lon_tiny_negative else 0%float.
Proof. apply (normalize360_idempotent Examples.lon_tiny_negative). reflexivity. Defined.

Lemma angDist_range_witness :
  (0 <=? Utils.angDist 10 350)%float = true
  ∧ (Utils.angDist 10 350 <=? 180)%float = true.
Proof. apply (proj1 (angDist_range 10 350)); reflexivity. Defined.

Lemma getRashi_range_witness :
  ∃ n : nat,
    whole (Utils.rashi_index (Utils.getRashi Examples.lon_47_7)) (Z.of_nat n)
    ∧ Utils.rashi_name (Utils.getRashi Examples.lon_47_7) = Utils.RASHIS !! n
    ∧ (n ≤ 12)%nat
    ∧ ((Utils.normalize360 Examples.lon_47_7 <? 360)%float = true → (n ≤ 11)%nat).
Proof. apply (getRashi_range Examples.lon_47_7). reflexivity. Defined.

Lemma getNakshatra_range_witness :
  ∃ n : nat,
    whole (Utils.nak_index (Utils.getNakshatra Examples.lon_47_7)) (Z.of_nat n)
    ∧ Utils.nak_name (Utils.getNakshatra Examples.lon_47_7) = Utils.NAKS !! n
    ∧ (n ≤ 27)%nat
    ∧ ((Utils.normalize360 Examples.lon_47_7 <? 360)%float = true → (n ≤ 26)%nat)
    ∧ Utils.nak_index (Utils.getNakshatra Examples.lon_47_7)
      = index (nakFromLon Examples.lon_47_7)
    ∧ Utils.nak_fracElapsed (Utils.getNakshatra Examples.lon_47_7)
      = fracElapsed (nakFromLon Examples.lon_47_7).
Proof. apply (getNakshatra_range Examples.lon_47_7). reflexivity. Defined.

Lemma chart_names_defined_witness :
  ∃ (r n : nat) rashi nak,
    whole (Utils.rashi_index
             (Utils.getRashi (Utils.normalize360 Examples.lon_tiny_negative)))
          (Z.of_nat r)
    ∧ (r ≤ 11)%nat
    ∧ Utils.rashi_name (Utils.getRashi (Utils.normalize360 Examples.lon_tiny_negative))
      = Some rashi
    ∧ Utils.RASHIS !! r = Some rashi
    ∧ whole (Utils.nak_index
               (Utils.getNakshatra (Utils.normalize360 Examples.lon_tiny_negative)))
            (Z.of_nat n)
    ∧ (n ≤ 26)%nat
    ∧ Utils.nak_name
        (Utils.getNakshatra (Utils.normalize360 Examples.lon_tiny_negative))
      = Some nak
    ∧ Utils.NAKS !! n = Some nak.
Proof. apply (chart_names_defined Examples.lon_tiny_negative). reflexivity. Defined.

Lemma house_of_planet_witness :
  ∃ np na : nat,
    whole (Utils.rashi_index (Utils.getRashi (Utils.normalize360 100)))
          (Z.of_nat np) ∧ (np ≤ 11)%nat
    ∧ whole (Utils.rashi_index (Utils.getRashi (Utils.normalize360 Examples.lon_47_7)))
            (Z.of_nat na) ∧ (na ≤ 11)%nat
    ∧ whole (houseNumber
               (Utils.rashi_index (Utils.getRashi (Utils.normalize360 100)))
               (Utils.rashi_index (Utils.getRashi (Utils.normalize360 Examples.lon_47_7))))
            ((Z.of_nat np - Z.of_nat na) mod 12 + 1)
    ∧ 1 ≤ (Z.of_nat np - Z.of_nat na) mod 12 + 1 ≤ 12
    ∧ ((Z.of_nat np - Z.of_nat na) mod 12 + 1 = 1 ↔ np = na).
Proof. apply (house_of_planet 100 Examples.lon_47_7); reflexivity. Defined.

Lemma sign_and_degree_exact_witness :
  ∃ r w,
    value (Utils.normalize360 Examples.lon_47_7) = Some r
    ∧ whole (Utils.rashi_index (Utils.getRashi Examples.lon_47_7)) (r / (30 * 2 ^ 1074))
    ∧ value (Utils.value (Utils.getDegreeInSign Examples.lon_47_7)) = Some w
    ∧ 0 ≤ w < 30 * 2 ^ 1074
    ∧ r = r / (30 * 2 ^ 1074) * (30 * 2 ^ 1074) + w.
Proof. apply (sign_and_degree_exact Examples.lon_47_7). reflexivity. Defined.

